(** * The game-state engine of [world.py]

    A shallow embedding of the class [World]: the wall grid with the
    indexing rules of the array library, wall placement, the bounded
    breadth-first search of [check_valid_step], the union-find of
    [check_endgame], the fallback [random_walk], the per-turn operation
    [step] and the constructor.

    Python integers are [Z]; the grid is a total map from indices with the
    array's bounds behaviour written in the accessors; the dictionary
    [father] is a [gmap]; the visited set is a [gset]; exceptions are an
    explicit result type threaded through a small state-and-error monad.
    Loops whose termination is not structural ([while], the recursion of
    [find]) take a fuel argument. *)

From Stdlib Require Import ZArith Lia.
From stdpp Require Import gmap list relations sorting strings.

Local Open Scope Z_scope.

(** ** Exceptions and the state-and-error monad *)

(** An exception is known by the name of its class, which is what
    [World.step] inspects.  [OutOfFuel] is not a Python exception: it marks
    a run of the model that was given too little fuel. *)
Inductive exn : Type :=
  | PyExn (class_name : string)
  | OutOfFuel.

Definition IndexError : exn := PyExn "IndexError".
Definition KeyError : exn := PyExn "KeyError".
Definition ValueError : exn := PyExn "ValueError".
Definition TypeError : exn := PyExn "TypeError".
Definition AssertionError : exn := PyExn "AssertionError".
Definition UnboundLocalError : exn := PyExn "UnboundLocalError".
Definition SystemExit : exn := PyExn "SystemExit".

Inductive res (A : Type) : Type :=
  | Ok (a : A)
  | Raise (e : exn).
Arguments Ok {A} a.
Arguments Raise {A} e.

Definition is_ok {A} (r : res A) : bool :=
  match r with Ok _ => true | Raise _ => false end.

Definition res_bind {A B} (r : res A) (k : A -> res B) : res B :=
  match r with Ok a => k a | Raise e => Raise e end.

(** A computation over a mutable state [S]: the state reached is returned
    also when an exception is raised, as assignments made before the
    exception stay made. *)
Definition St (S A : Type) : Type := S -> res A * S.

Definition ret {S A} (a : A) : St S A := fun s => (Ok a, s).
Definition raise {S A} (e : exn) : St S A := fun s => (Raise e, s).
Definition bind {S A B} (m : St S A) (k : A -> St S B) : St S B :=
  fun s => match m s with
           | (Ok a, s') => k a s'
           | (Raise e, s') => (Raise e, s')
           end.
Definition get {S} : St S S := fun s => (Ok s, s).
Definition gets {S A} (f : S -> A) : St S A := fun s => (Ok (f s), s).
Definition modify {S} (f : S -> S) : St S unit := fun s => (Ok tt, f s).
Definition lift {S A} (r : res A) : St S A := fun s => (r, s).

Global Instance res_ret : MRet res := fun A a => Ok a.
Global Instance res_mbind : MBind res := fun A B k r => res_bind r k.
Global Instance St_ret {S} : MRet (St S) := fun A a => ret a.
Global Instance St_bind {S} : MBind (St S) := fun A B k m => bind m k.

(** [for x in l: body x], stopping at the first exception. *)
Fixpoint for_each {S A} (l : list A) (body : A -> St S unit) : St S unit :=
  match l with
  | [] => ret tt
  | x :: l' => body x ;; for_each l' body
  end.

(** [range(n)]; empty when [n <= 0]. *)
Definition range (n : Z) : list Z := seqZ 0 n.

(** ** Positions, directions and the wall grid *)

Abbreviation pos := (Z * Z)%type.

Definition pos_add (p m : pos) : pos := (p.1 + m.1, p.2 + m.2).

(** [self.moves = ((-1, 0), (0, 1), (1, 0), (0, -1))] *)
Definition moves_tuple : list pos := [(-1, 0); (0, 1); (1, 0); (0, -1)].

(** Indexing a sequence of length [n] with a Python integer: negative
    indices count from the end, anything else out of range is an
    [IndexError].  Tuples and arrays share the rule. *)
Definition norm_index (n i : Z) : res Z :=
  if (0 <=? i) && (i <? n) then Ok i
  else if (- n <=? i) && (i <? 0) then Ok (i + n)
  else Raise IndexError.

(** [self.moves[dir]] *)
Definition moves (dir : Z) : res pos :=
  i ← norm_index 4 dir;
  match moves_tuple !! Z.to_nat i with
  | Some m => Ok m
  | None => Raise IndexError
  end.

(** [self.opposites = {0: 2, 1: 3, 2: 0, 3: 1}]; [self.opposites[dir]] *)
Definition opposites (dir : Z) : res Z :=
  if dir =? 0 then Ok 2
  else if dir =? 1 then Ok 3
  else if dir =? 2 then Ok 0
  else if dir =? 3 then Ok 1
  else Raise KeyError.

(** The array [chess_board] of shape [(n, n, 4)] and element type bool. *)
Record ndarray : Type := {
  arr_n : Z;
  arr_bits : Z -> Z -> Z -> bool
}.

(** [np.zeros((n, n, 4), dtype=bool)] *)
Definition zeros (n : Z) : ndarray :=
  {| arr_n := n; arr_bits := fun _ _ _ => false |}.

(** [a[r, c, d]] *)
Definition arr_get (a : ndarray) (r c d : Z) : res bool :=
  r' ← norm_index (arr_n a) r;
  c' ← norm_index (arr_n a) c;
  d' ← norm_index 4 d;
  Ok (arr_bits a r' c' d').

Definition bits_set (f : Z -> Z -> Z -> bool) (r c d : Z) (v : bool)
  : Z -> Z -> Z -> bool :=
  fun r' c' d' =>
    if (r' =? r) && (c' =? c) && (d' =? d) then v else f r' c' d'.

(** [a[r, c, d] = v] *)
Definition arr_set (r c d : Z) (v : bool) : St ndarray unit := fun a =>
  match norm_index (arr_n a) r, norm_index (arr_n a) c, norm_index 4 d with
  | Ok r', Ok c', Ok d' =>
      (Ok tt, {| arr_n := arr_n a; arr_bits := bits_set (arr_bits a) r' c' d' v |})
  | _, _, _ => (Raise IndexError, a)
  end.

(** [a[r, :, d] = v] and [a[:, c, d] = v] *)
Definition arr_set_row (r d : Z) (v : bool) : St ndarray unit := fun a =>
  match norm_index (arr_n a) r, norm_index 4 d with
  | Ok r', Ok d' =>
      (Ok tt, {| arr_n := arr_n a;
                 arr_bits := fun r0 c0 d0 =>
                   if (r0 =? r') && (d0 =? d') then v else arr_bits a r0 c0 d0 |})
  | _, _ => (Raise IndexError, a)
  end.

Definition arr_set_col (c d : Z) (v : bool) : St ndarray unit := fun a =>
  match norm_index (arr_n a) c, norm_index 4 d with
  | Ok c', Ok d' =>
      (Ok tt, {| arr_n := arr_n a;
                 arr_bits := fun r0 c0 d0 =>
                   if (c0 =? c') && (d0 =? d') then v else arr_bits a r0 c0 d0 |})
  | _, _ => (Raise IndexError, a)
  end.

(** The border assignments of the constructor. *)
Definition set_borders : St ndarray unit :=
  arr_set_row 0 0 true ;;
  arr_set_col 0 3 true ;;
  arr_set_row (-1) 2 true ;;
  arr_set_col (-1) 1 true.

(** [World.set_barrier], on the array it mutates. *)
Definition set_barrier_arr (r c dir : Z) : St ndarray unit :=
  arr_set r c dir true ;;
  move ← lift (moves dir);
  opp ← lift (opposites dir);
  arr_set (r + move.1) (c + move.2) opp true.

(** ** The random source

    [np.random.randint] is a collaborator: the draws are read off an
    arbitrary infinite sequence [rand_src], one element per integer drawn,
    reduced into the requested half-open range. *)
Record Rng : Type := {
  rand_src : nat -> Z;
  rand_ix : nat
}.

(** [np.random.randint(lo, hi)]; an empty range is a [ValueError]. *)
Definition randint (lo hi : Z) : St Rng Z := fun g =>
  if hi <=? lo then (Raise ValueError, g)
  else (Ok (lo + rand_src g (rand_ix g) `mod` (hi - lo)),
        {| rand_src := rand_src g; rand_ix := S (rand_ix g) |}).

(** [l[i]] on a Python list *)
Definition list_index {A} (l : list A) (i : Z) : res A :=
  j ← norm_index (Z.of_nat (length l)) i;
  match l !! Z.to_nat j with
  | Some x => Ok x
  | None => Raise IndexError
  end.

(** [l[np.random.randint(0, len(l))]] *)
Definition rand_choice {A} (l : list A) : St Rng A :=
  i ← randint 0 (Z.of_nat (length l));
  lift (list_index l i).

(** [enumerate(l)] *)
Definition enumerate {A} (l : list A) : list (Z * A) :=
  zip (seqZ 0 (Z.of_nat (length l))) l.

(** ** Reachability: the search of [check_valid_step] *)

(** The [for dir, move in enumerate(self.moves)] loop for one dequeued
    state.  The first component of the result is [is_reached]. *)
Fixpoint scan_moves (board : ndarray) (adv_pos end_pos cur_pos : pos)
    (cur_step : Z) (ms : list (Z * pos))
    (state_queue : list (pos * Z)) (visited : gset pos)
  : res (bool * list (pos * Z) * gset pos) :=
  match ms with
  | [] => Ok (false, state_queue, visited)
  | (dir, move) :: ms' =>
      wall ← arr_get board cur_pos.1 cur_pos.2 dir;
      if (wall : bool) then
        scan_moves board adv_pos end_pos cur_pos cur_step ms' state_queue visited
      else
        let next_pos := pos_add cur_pos move in
        if bool_decide (next_pos = adv_pos) || bool_decide (next_pos ∈ visited) then
          scan_moves board adv_pos end_pos cur_pos cur_step ms' state_queue visited
        else if bool_decide (next_pos = end_pos) then
          Ok (true, state_queue, visited)
        else
          scan_moves board adv_pos end_pos cur_pos cur_step ms'
            (state_queue ++ [(next_pos, cur_step + 1)]) ({[next_pos]} ∪ visited)
  end.

(** The [while state_queue and not is_reached] loop. *)
Fixpoint bfs (fuel : nat) (board : ndarray) (max_step : Z)
    (adv_pos end_pos : pos) (state_queue : list (pos * Z)) (visited : gset pos)
  : res bool :=
  match fuel with
  | O => Raise OutOfFuel
  | S fuel' =>
      match state_queue with
      | [] => Ok false
      | (cur_pos, cur_step) :: rest =>
          if cur_step =? max_step then Ok false
          else
            '(is_reached, state_queue', visited') ←
              scan_moves board adv_pos end_pos cur_pos cur_step
                (enumerate moves_tuple) rest visited;
            if (is_reached : bool) then Ok true
            else bfs fuel' board max_step adv_pos end_pos state_queue' visited'
      end
  end.

(** [World.check_valid_step] over the fields it reads. *)
Definition check_valid_step_on (fuel : nat) (board : ndarray) (max_step : Z)
    (adv_pos start_pos end_pos : pos) (barrier_dir : Z) : res bool :=
  wall ← arr_get board end_pos.1 end_pos.2 barrier_dir;
  if (wall : bool) then Ok false
  else if bool_decide (start_pos = end_pos) then Ok true
  else bfs fuel board max_step adv_pos end_pos [(start_pos, 0)] {[start_pos]}.

(** ** Connectivity: the union-find of [check_endgame] *)

(** [father[p]] *)
Definition father_get (p : pos) : St (gmap pos pos) pos := fun father =>
  match father !! p with
  | Some q => (Ok q, father)
  | None => (Raise KeyError, father)
  end.

(** The nested function [find], with path compression. *)
Fixpoint find (fuel : nat) (p : pos) : St (gmap pos pos) pos :=
  match fuel with
  | O => raise OutOfFuel
  | S fuel' =>
      q ← father_get p;
      (if bool_decide (q ≠ p) then
         r ← find fuel' q;
         modify (<[p := r]>)
       else ret tt) ;;
      father_get p
  end.

(** The nested function [union]. *)
Definition union (pos1 pos2 : pos) : St (gmap pos pos) unit :=
  modify (<[pos1 := pos2]>).

(** [l.count(x)] *)
Definition count (x : pos) (l : list pos) : Z :=
  Z.of_nat (length (filter (λ y, y = x) l)).

(** The first pair of loops: every cell its own father. *)
Definition init_father (n : Z) : St (gmap pos pos) unit :=
  for_each (range n) (λ r,
    for_each (range n) (λ c, modify (<[(r, c) := (r, c)]>))).

(** The body of the innermost loop over [enumerate(self.moves[1:3])]. *)
Definition join_step (fuel : nat) (board : ndarray) (r c : Z)
    (dm : Z * pos) : St (gmap pos pos) unit :=
  let '(dir, move) := dm in
  wall ← lift (arr_get board r c (dir + 1));
  if (wall : bool) then ret tt
  else
    pos_a ← find fuel (r, c);
    pos_b ← find fuel (r + move.1, c + move.2);
    if bool_decide (pos_a ≠ pos_b) then union pos_a pos_b else ret tt.

Definition join_all (fuel : nat) (n : Z) (board : ndarray)
  : St (gmap pos pos) unit :=
  for_each (range n) (λ r,
    for_each (range n) (λ c,
      for_each (enumerate (take 2 (drop 1 moves_tuple)))
        (join_step fuel board r c))).

(** The third pair of loops: [find((r, c))] on every cell. *)
Definition compress_all (fuel : nat) (n : Z) : St (gmap pos pos) unit :=
  for_each (range n) (λ r,
    for_each (range n) (λ c, find fuel (r, c) ;; ret tt)).

Definition check_endgame_st (fuel : nat) (n : Z) (board : ndarray)
    (p0_pos p1_pos : pos) : St (gmap pos pos) (bool * Z * Z) :=
  init_father n ;;
  join_all fuel n board ;;
  compress_all fuel n ;;
  p0_r ← find fuel p0_pos;
  p1_r ← find fuel p1_pos;
  father ← get;
  let values := (map_to_list father).*2 in
  let p0_score := count p0_r values in
  let p1_score := count p1_r values in
  if bool_decide (p0_r = p1_r) then ret (false, p0_score, p1_score)
  else ret (true, p0_score, p1_score).

(** [World.check_endgame] over the fields it reads; [father] starts as
    the empty dictionary. *)
Definition check_endgame_on (fuel : nat) (n : Z) (board : ndarray)
    (p0_pos p1_pos : pos) : res (bool * Z * Z) :=
  (check_endgame_st fuel n board p0_pos p1_pos ∅).1.

(** ** The fallback move: [random_walk] *)

(** The list comprehension that builds [allowed_dirs]. *)
Fixpoint allowed_dirs (board : ndarray) (adv_pos : pos) (r c : Z)
    (ds : list Z) : res (list Z) :=
  match ds with
  | [] => Ok []
  | d :: ds' =>
      wall ← arr_get board r c d;
      keep ← (if (wall : bool) then Ok false
              else m ← moves d;
                   Ok (negb (bool_decide (adv_pos = (r + m.1, c + m.2)))));
      rest ← allowed_dirs board adv_pos r c ds';
      Ok (if (keep : bool) then d :: rest else rest)
  end.

(** The list comprehension that builds [allowed_barriers]. *)
Fixpoint allowed_barriers (board : ndarray) (r c : Z) (ds : list Z)
  : res (list Z) :=
  match ds with
  | [] => Ok []
  | i :: ds' =>
      wall ← arr_get board r c i;
      rest ← allowed_barriers board r c ds';
      Ok (if (wall : bool) then rest else i :: rest)
  end.

(** [for _ in range(steps)] with its [break]. *)
Fixpoint walk_loop (steps : nat) (board : ndarray) (adv_pos my_pos : pos)
  : St Rng pos :=
  match steps with
  | O => ret my_pos
  | S steps' =>
      let '(r, c) := my_pos in
      dirs ← lift (allowed_dirs board adv_pos r c (seqZ 0 4));
      if bool_decide (length dirs = 0%nat) then ret my_pos
      else
        random_dir ← rand_choice dirs;
        m ← lift (moves random_dir);
        walk_loop steps' board adv_pos (r + m.1, c + m.2)
  end.

(** [World.random_walk] over the fields it reads. *)
Definition random_walk_on (board : ndarray) (max_step : Z)
    (my_pos adv_pos : pos) : St Rng (pos * Z) :=
  steps ← randint 0 (max_step + 1);
  my_pos ← walk_loop (Z.to_nat steps) board adv_pos my_pos;
  let '(r, c) := my_pos in
  barriers ← lift (allowed_barriers board r c (seqZ 0 4));
  if bool_decide (1 ≤ length barriers)%nat then
    dir ← rand_choice barriers;
    ret (my_pos, dir)
  else raise AssertionError.

(** ** The world *)

(** What the engine reads of a registered agent object. *)
Record Agent : Type := {
  is_human : bool;
  autoplay : bool
}.

(** The attributes of a [World] object, the display ones apart.  Times are
    opaque measurements. *)
Record World : Type := {
  p0 : Agent;
  p1 : Agent;
  board_size : Z;
  turn : Z;
  p0_time : list Z;
  p1_time : list Z;
  results_cache : option (bool * Z * Z);
  chess_board : ndarray;
  max_step : Z;
  p0_pos : pos;
  p1_pos : pos;
  initial_end : bool;
  rng : Rng
}.

Definition set_turn (v : Z) (w : World) : World :=
  {| p0 := p0 w; p1 := p1 w; board_size := board_size w; turn := v;
     p0_time := p0_time w; p1_time := p1_time w;
     results_cache := results_cache w; chess_board := chess_board w;
     max_step := max_step w; p0_pos := p0_pos w; p1_pos := p1_pos w;
     initial_end := initial_end w; rng := rng w |}.

Definition set_p0_time (v : list Z) (w : World) : World :=
  {| p0 := p0 w; p1 := p1 w; board_size := board_size w; turn := turn w;
     p0_time := v; p1_time := p1_time w;
     results_cache := results_cache w; chess_board := chess_board w;
     max_step := max_step w; p0_pos := p0_pos w; p1_pos := p1_pos w;
     initial_end := initial_end w; rng := rng w |}.

Definition set_p1_time (v : list Z) (w : World) : World :=
  {| p0 := p0 w; p1 := p1 w; board_size := board_size w; turn := turn w;
     p0_time := p0_time w; p1_time := v;
     results_cache := results_cache w; chess_board := chess_board w;
     max_step := max_step w; p0_pos := p0_pos w; p1_pos := p1_pos w;
     initial_end := initial_end w; rng := rng w |}.

Definition set_results_cache (v : option (bool * Z * Z)) (w : World) : World :=
  {| p0 := p0 w; p1 := p1 w; board_size := board_size w; turn := turn w;
     p0_time := p0_time w; p1_time := p1_time w;
     results_cache := v; chess_board := chess_board w;
     max_step := max_step w; p0_pos := p0_pos w; p1_pos := p1_pos w;
     initial_end := initial_end w; rng := rng w |}.

Definition set_chess_board (v : ndarray) (w : World) : World :=
  {| p0 := p0 w; p1 := p1 w; board_size := board_size w; turn := turn w;
     p0_time := p0_time w; p1_time := p1_time w;
     results_cache := results_cache w; chess_board := v;
     max_step := max_step w; p0_pos := p0_pos w; p1_pos := p1_pos w;
     initial_end := initial_end w; rng := rng w |}.

Definition set_p0_pos (v : pos) (w : World) : World :=
  {| p0 := p0 w; p1 := p1 w; board_size := board_size w; turn := turn w;
     p0_time := p0_time w; p1_time := p1_time w;
     results_cache := results_cache w; chess_board := chess_board w;
     max_step := max_step w; p0_pos := v; p1_pos := p1_pos w;
     initial_end := initial_end w; rng := rng w |}.

Definition set_p1_pos (v : pos) (w : World) : World :=
  {| p0 := p0 w; p1 := p1 w; board_size := board_size w; turn := turn w;
     p0_time := p0_time w; p1_time := p1_time w;
     results_cache := results_cache w; chess_board := chess_board w;
     max_step := max_step w; p0_pos := p0_pos w; p1_pos := v;
     initial_end := initial_end w; rng := rng w |}.

Definition set_rng (v : Rng) (w : World) : World :=
  {| p0 := p0 w; p1 := p1 w; board_size := board_size w; turn := turn w;
     p0_time := p0_time w; p1_time := p1_time w;
     results_cache := results_cache w; chess_board := chess_board w;
     max_step := max_step w; p0_pos := p0_pos w; p1_pos := p1_pos w;
     initial_end := initial_end w; rng := v |}.

(** Run a computation on the array, or on the random source, of a world. *)
Definition on_board {A} (m : St ndarray A) : St World A := fun w =>
  let '(r, b) := m (chess_board w) in (r, set_chess_board b w).

Definition on_rng {A} (m : St Rng A) : St World A := fun w =>
  let '(r, g) := m (rng w) in (r, set_rng g w).

(** [World.get_current_player] *)
Definition get_current_player (w : World) : Agent * pos * pos :=
  if turn w =? 0 then (p0 w, p0_pos w, p1_pos w)
  else (p1 w, p1_pos w, p0_pos w).

(** [World.update_player_time] *)
Definition update_player_time (time_taken : Z) (w : World) : World :=
  if turn w =? 0 then set_p0_time (p0_time w ++ [time_taken]) w
  else set_p1_time (p1_time w ++ [time_taken]) w.

(** [World.check_boundary] *)
Definition check_boundary (w : World) (p : pos) : bool :=
  let '(r, c) := p in
  ((0 <=? r) && (r <? board_size w)) && ((0 <=? c) && (c <? board_size w)).

(** [World.set_barrier] *)
Definition set_barrier (r c dir : Z) : St World unit :=
  on_board (set_barrier_arr r c dir).

(** [World.check_valid_step]; the adversary is read off [self.turn]. *)
Definition check_valid_step (fuel : nat) (w : World)
    (start_pos end_pos : pos) (barrier_dir : Z) : res bool :=
  let adv_pos := if turn w =? 0 then p1_pos w else p0_pos w in
  check_valid_step_on fuel (chess_board w) (max_step w) adv_pos
    start_pos end_pos barrier_dir.

(** [World.check_endgame] *)
Definition check_endgame (fuel : nat) (w : World) : res (bool * Z * Z) :=
  check_endgame_on fuel (board_size w) (chess_board w) (p0_pos w) (p1_pos w).

(** [World.random_walk] *)
Definition random_walk (my_pos adv_pos : pos) : St World (pos * Z) := fun w =>
  on_rng (random_walk_on (chess_board w) (max_step w) my_pos adv_pos) w.

(** ** One turn: [World.step] *)

(** What the call [cur_player.step(...)] hands back. *)
Inductive returned : Type :=
  | RetMove (next_pos : pos) (dir : Z)
      (** a position and an integer direction *)
  | RetNoPair
      (** a value that does not unpack into two: the assignment of line
          216 raises *)
  | RetBadPair (e : exn).
      (** two values that are not a position and an integer: the
          conversion or a check raises [e] *)

(** The collaborator either raises or returns after some elapsed time. *)
Inductive outcome : Type :=
  | AgentRaises (e : exn)
  | AgentReturns (v : returned) (elapsed : Z).

(** ["name" in ex_type] *)
Definition name_in (name ex_type : string) : bool :=
  match String.index 0 name ex_type with
  | Some _ => true
  | None => false
  end.

(** The body of the [try]: the move, the local [time_taken] when it has
    been assigned, and the world. *)
Definition step_try (fuel : nat) (call : outcome) (cur_pos : pos) (w : World)
  : res (pos * Z) * option Z * World :=
  match call with
  | AgentRaises e => (Raise e, None, w)
  | AgentReturns RetNoPair _ => (Raise TypeError, None, w)
  | AgentReturns (RetBadPair e) elapsed =>
      (Raise e, Some elapsed, update_player_time elapsed w)
  | AgentReturns (RetMove next_pos dir) elapsed =>
      let w1 := update_player_time elapsed w in
      (if negb (check_boundary w1 next_pos) then Raise ValueError
       else if negb ((0 <=? dir) && (dir <=? 3)) then Raise ValueError
       else
         valid ← check_valid_step fuel w1 cur_pos next_pos dir;
         if (valid : bool) then Ok (next_pos, dir) else Raise ValueError,
       Some elapsed, w1)
  end.

(** The [except BaseException] handler. *)
Definition step_except (cur_player : Agent) (cur_pos adv_pos : pos) (e : exn)
  : St World (pos * Z) :=
  match e with
  | OutOfFuel => raise OutOfFuel
  | PyExn ex_type =>
      if (name_in "SystemExit" ex_type && is_human cur_player)
         || name_in "KeyboardInterrupt" ex_type
      then raise SystemExit
      else random_walk cur_pos adv_pos
  end.

(** The line written to the log reads [self.player_names[self.turn]],
    [self.dir_names[dir]] and the local [time_taken]; the two dictionaries
    have the player ids 0, 1 and the directions 0..3 as keys. *)
Definition log_move (w : World) (dir : Z) (time_taken : option Z) : res unit :=
  if negb ((turn w =? 0) || (turn w =? 1)) then Raise KeyError
  else if negb ((0 <=? dir) && (dir <=? 3)) then Raise KeyError
  else match time_taken with
       | None => Raise UnboundLocalError
       | Some _ => Ok tt
       end.

(** The statements after the [try]. *)
Definition step_apply (fuel : nat) (next_pos : pos) (dir : Z)
    (time_taken : option Z) : St World (bool * Z * Z) :=
  w ← get;
  lift (log_move w dir time_taken) ;;
  modify (if turn w =? 0 then set_p0_pos next_pos else set_p1_pos next_pos) ;;
  (let '(r, c) := next_pos in set_barrier r c dir) ;;
  modify (λ w, set_turn (1 - turn w) w) ;;
  w ← get;
  results ← lift (check_endgame fuel w);
  modify (set_results_cache (Some results)) ;;
  ret results.

Definition step (fuel : nat) (call : outcome) : St World (bool * Z * Z) :=
  fun w =>
    let '(cur_player, cur_pos, adv_pos) := get_current_player w in
    let '(attempt, time_taken, w1) := step_try fuel call cur_pos w in
    let '(move, w2) :=
      match attempt with
      | Ok mv => (Ok mv, w1)
      | Raise e => step_except cur_player cur_pos adv_pos e w1
      end in
    match move with
    | Ok (next_pos, dir) => step_apply fuel next_pos dir time_taken w2
    | Raise e => (Raise e, w2)
    end.

(** ** Construction: [World.__init__] *)

(** Run a computation for the state it reaches. *)
Definition exec {S A} (m : St S A) (s : S) : res S :=
  match m s with
  | (Ok _, s') => Ok s'
  | (Raise e, _) => Raise e
  end.

(** Draw a cell and a direction until the slot drawn has no wall. *)
Fixpoint draw_free_slot (fuel : nat) (n : Z) (board : ndarray)
  : St Rng (Z * Z * Z) :=
  match fuel with
  | O => raise OutOfFuel
  | S fuel' =>
      r ← randint 0 n;
      c ← randint 0 n;
      dir ← randint 0 4;
      wall ← lift (arr_get board r c dir);
      if (wall : bool) then draw_free_slot fuel' n board else ret (r, c, dir)
  end.

(** [for _ in range(num_barriers)]: a random wall and its point mirror. *)
Fixpoint place_barriers (fuel : nat) (k : nat) (n : Z) (board : ndarray)
  : St Rng ndarray :=
  match k with
  | O => ret board
  | S k' =>
      '(r, c, dir) ← draw_free_slot fuel n board;
      let anti_r := n - 1 - r in
      let anti_c := n - 1 - c in
      anti_dir ← lift (opposites dir);
      board ← lift (exec (set_barrier_arr r c dir) board);
      board ← lift (exec (set_barrier_arr anti_r anti_c anti_dir) board);
      place_barriers fuel k' n board
  end.

(** One roll of the start positions, as the constructor does it before and
    inside its [while]: the positions and [initial_end]. *)
Definition roll_start (fuel : nat) (n : Z) (board : ndarray)
  : St Rng (pos * pos * bool) :=
  r ← randint 0 n;
  c ← randint 0 n;
  let p0_pos := (r, c) in
  let p1_pos := (n - 1 - r, n - 1 - c) in
  '(initial_end, _, _) ← lift (check_endgame_on fuel n board p0_pos p1_pos);
  ret (p0_pos, p1_pos, initial_end).

(** Roll, then [while np.array_equal(p0_pos, p1_pos) or initial_end]: roll
    again. *)
Fixpoint draw_start (rolls : nat) (fuel : nat) (n : Z) (board : ndarray)
  : St Rng (pos * pos * bool) :=
  match rolls with
  | O => raise OutOfFuel
  | S rolls' =>
      '(p0_pos, p1_pos, initial_end) ← roll_start fuel n board;
      if bool_decide (p0_pos = p1_pos) || initial_end
      then draw_start rolls' fuel n board
      else ret (p0_pos, p1_pos, initial_end)
  end.

(** The constructor.  [registry] is the table of registered agents and
    [min_size], [max_size] the bounds of a random board size, all three
    defined outside this file of the repository. *)
Definition World_init (registry : string -> option Agent)
    (min_size max_size : Z) (player_1 player_2 : string)
    (size : option Z) (want_autoplay : bool) (fuel : nat)
  : St Rng World :=
  match registry player_1, registry player_2 with
  | None, _ => raise ValueError
  | Some _, None => raise ValueError
  | Some a0, Some a1 =>
      if want_autoplay && (negb (autoplay a0) || negb (autoplay a1))
      then raise ValueError
      else
        n ← match size with
            | None => randint min_size max_size
            | Some n => ret n
            end;
        board ← lift (exec set_borders (zeros n));
        let max_step := (n + 1) `div` 2 in
        let num_barriers := n `div` 2 - 1 in
        board ← place_barriers fuel (Z.to_nat num_barriers) n board;
        '(p0_pos, p1_pos, initial_end) ← draw_start fuel fuel n board;
        if (initial_end : bool) then raise AssertionError
        else
          g ← get;
          ret {| p0 := a0; p1 := a1; board_size := n; turn := 0;
                 p0_time := []; p1_time := []; results_cache := None;
                 chess_board := board; max_step := max_step;
                 p0_pos := p0_pos; p1_pos := p1_pos;
                 initial_end := initial_end; rng := g |}
  end.

(** ** The vocabulary of the specification *)

(** ⌈a / b⌉ for a positive [b]. *)
Definition ceil_div (a b : Z) : Z := - ((- a) `div` b).

Definition in_bounds (n : Z) (p : pos) : Prop :=
  (0 ≤ p.1 < n) ∧ (0 ≤ p.2 < n).

Definition in_boundsb (n : Z) (p : pos) : bool :=
  ((0 <=? p.1) && (p.1 <? n)) && ((0 <=? p.2) && (p.2 <? n)).

(** The displacement of a direction and the direction facing it. *)
Definition move_of (dir : Z) : pos :=
  default (0, 0) (moves_tuple !! Z.to_nat dir).

Definition opposite (dir : Z) : Z := (dir + 2) `mod` 4.

Definition neighbor (p : pos) (dir : Z) : pos := pos_add p (move_of dir).

(** All cells of an [n] by [n] grid, in row-major order. *)
Definition cells (n : Z) : list pos :=
  r ← range n; c ← range n; [(r, c)].

(** A board as every reachable state has it: the array has the shape of
    the grid, the four outer edges are walled, and each interior edge
    carries the same bit on its two sides. *)
Definition wf_board (n : Z) (b : ndarray) : Prop :=
  arr_n b = n ∧ 0 < n ∧
  (∀ i, 0 ≤ i < n →
     arr_bits b 0 i 0 = true ∧ arr_bits b (n - 1) i 2 = true ∧
     arr_bits b i 0 3 = true ∧ arr_bits b i (n - 1) 1 = true) ∧
  (∀ r c, 0 ≤ r < n → 0 ≤ c < n →
     (r + 1 < n → arr_bits b r c 2 = arr_bits b (r + 1) c 0) ∧
     (c + 1 < n → arr_bits b r c 1 = arr_bits b r (c + 1) 3)).

Definition wf_boardb (n : Z) (b : ndarray) : bool :=
  (arr_n b =? n) && (0 <? n) &&
  forallb (λ i,
    arr_bits b 0 i 0 && arr_bits b (n - 1) i 2 &&
    arr_bits b i 0 3 && arr_bits b i (n - 1) 1) (range n) &&
  forallb (λ p : pos,
    implb (p.1 + 1 <? n)
      (bool_decide (arr_bits b p.1 p.2 2 = arr_bits b (p.1 + 1) p.2 0)) &&
    implb (p.2 + 1 <? n)
      (bool_decide (arr_bits b p.1 p.2 1 = arr_bits b p.1 (p.2 + 1) 3)))
    (cells n).

(** [q] is the cell next to [p] across an edge with no wall. *)
Definition adjacent (n : Z) (b : ndarray) (p q : pos) : Prop :=
  in_bounds n p ∧ in_bounds n q ∧
  ∃ dir, 0 ≤ dir ≤ 3 ∧ arr_get b p.1 p.2 dir = Ok false ∧ q = neighbor p dir.

(** One grid step of a player: across an open edge, not onto the
    opponent. *)
Definition legal_step (n : Z) (b : ndarray) (adv : pos) (p q : pos) : Prop :=
  adjacent n b p q ∧ q ≠ adv.

(** A path of at most [k] legal steps. *)
Definition reachable_within (n : Z) (b : ndarray) (adv : pos) (k : nat)
  : relation pos :=
  bsteps (legal_step n b adv) k.

(** Two cells are in one partition when a chain of open edges joins them. *)
Definition connected (n : Z) (b : ndarray) : relation pos :=
  rtsc (adjacent n b).

(** [s] is the partition of the cell [p]. *)
Definition is_partition_of (n : Z) (b : ndarray) (p : pos) (s : gset pos)
  : Prop :=
  ∀ x, x ∈ s ↔ in_bounds n x ∧ connected n b p x.

(** A world for examples: two automatic agents, a fixed random source. *)
Definition example_rng : Rng :=
  {| rand_src := λ i, Z.of_nat i * 7 + 3; rand_ix := 0 |}.

Definition example_agent : Agent := {| is_human := false; autoplay := true |}.

Definition example_world (n : Z) (board : ndarray) (a b : pos) (t : Z) : World :=
  {| p0 := example_agent; p1 := example_agent; board_size := n; turn := t;
     p0_time := []; p1_time := []; results_cache := None;
     chess_board := board; max_step := (n + 1) `div` 2;
     p0_pos := a; p1_pos := b; initial_end := false; rng := example_rng |}.

(** The empty board of size [n]: border walls only. *)
Definition empty_board (n : Z) : ndarray := (set_borders (zeros n)).2.

(** A board with the listed walls added to the empty board, each through
    [set_barrier]. *)
Definition board_with (n : Z) (walls : list (Z * Z * Z)) : ndarray :=
  foldl (λ b '(r, c, d), (set_barrier_arr r c d b).2) (empty_board n) walls.

(** What [set_barrier r c dir] leaves behind when it returns: the two
    bits [(r, c, dir)] and [(r2, c2, d2)] set, every other bit and the shape
    as before. *)
Definition sets_two (w w' : World) (r c dir r2 c2 d2 : Z) : Prop :=
  arr_get (chess_board w') r c dir = Ok true ∧
  arr_get (chess_board w') r2 c2 d2 = Ok true ∧
  (∀ r' c' d', (r', c', d') ≠ (r, c, dir) → (r', c', d') ≠ (r2, c2, d2) →
     arr_bits (chess_board w') r' c' d' = arr_bits (chess_board w) r' c' d') ∧
  arr_n (chess_board w') = arr_n (chess_board w).

(** What it leaves behind when the mirrored write is out of range: the
    first bit set, nothing else changed. *)
Definition sets_one (w w' : World) (r c dir : Z) : Prop :=
  arr_get (chess_board w') r c dir = Ok true ∧
  (∀ r' c' d', (r', c', d') ≠ (r, c, dir) →
     arr_bits (chess_board w') r' c' d' = arr_bits (chess_board w) r' c' d') ∧
  arr_n (chess_board w') = arr_n (chess_board w).

(** The table of registered agents of the examples. *)
Definition example_registry (name : string) : option Agent := Some example_agent.

(** ** The vocabulary of the union-find argument *)

(** Following [father] from [x] for [k] links ends at the root [r]. *)
Inductive root_at (father : gmap pos pos) : nat → pos → pos → Prop :=
  | root_at_O x :
      father !! x = Some x → root_at father 0 x x
  | root_at_S k x y r :
      father !! x = Some y → y ≠ x → root_at father k y r →
      root_at father (S k) x r.

(** [father'] is [father] with some cells re-pointed at their roots. *)
Definition compressed (father father' : gmap pos pos) : Prop :=
  ∀ y, father' !! y = father !! y ∨
       ∃ k r, root_at father k y r ∧ father' !! y = Some r.

(** The edge that the loop of [check_endgame] examines at cell [(r, c)]
    in direction [dir], when it is open. *)
Definition edge_of (n : Z) (b : ndarray) (t : Z * Z * Z) (x y : pos) : Prop :=
  x = (t.1.1, t.1.2) ∧ y = neighbor x t.2 ∧
  in_bounds n x ∧ in_bounds n y ∧ arr_bits b t.1.1 t.1.2 t.2 = false.

Definition edges (n : Z) (b : ndarray) (done : list (Z * Z * Z))
  : relation pos :=
  λ x y, ∃ t, t ∈ done ∧ edge_of n b t x y.

(** The invariant of the joining loop: every cell has a root at most
    [bound] links away, only cells are keys, and two cells have the same
    root exactly when the edges examined so far join them. *)
Definition uf_inv (n : Z) (E : relation pos) (bound : nat)
    (father : gmap pos pos) : Prop :=
  (∀ x, in_bounds n x →
     ∃ k r, root_at father k x r ∧ (k ≤ bound)%nat ∧ in_bounds n r) ∧
  (∀ x, is_Some (father !! x) → in_bounds n x) ∧
  (∀ x y kx ky rx ry,
     in_bounds n x → in_bounds n y →
     root_at father kx x rx → root_at father ky y ry →
     rx = ry ↔ rtsc E x y).

(** The cell [x] points directly at its root. *)
Definition flat_at (father : gmap pos pos) (x : pos) : Prop :=
  ∃ r, father !! x = Some r ∧ father !! r = Some r.

(** The (cell, direction) pairs in the order the joining loop takes them. *)
Definition join_order (n : Z) : list (Z * Z * (Z * pos)) :=
  r ← range n; c ← range n;
  dm ← enumerate (take 2 (drop 1 moves_tuple)); [(r, c, dm)].

(** The cell and the direction that an item of [join_order] stands for:
    the loop reads the wall bit [dir + 1]. *)
Definition triple_of (t : Z * Z * (Z * pos)) : Z * Z * Z :=
  (t.1.1, t.1.2, t.2.1 + 1).

(** Play the listed turns one after the other and return what the last
    one returned. *)
Fixpoint play (fuel : nat) (calls : list outcome) (last : bool * Z * Z)
  : St World (bool * Z * Z) :=
  match calls with
  | [] => ret last
  | call :: calls' =>
      results ← step fuel call;
      play fuel calls' results
  end.

(** ** The vocabulary of the search argument *)

(** The invariant of the [while] loop of [check_valid_step].  [depth] is
    the step count with which each visited cell entered the queue. *)
Definition bfs_inv (n : Z) (b : ndarray) (adv start_pos end_pos : pos)
    (max_step : Z) (state_queue : list (pos * Z)) (visited : gset pos)
    (depth : pos → option Z) : Prop :=
  (∀ p, p ∈ visited ↔ is_Some (depth p)) ∧
  depth start_pos = Some 0 ∧
  (∀ p d, (p, d) ∈ state_queue → depth p = Some d) ∧
  (∀ p d, depth p = Some d →
     0 ≤ d ≤ max_step ∧ in_bounds n p ∧ p ≠ end_pos ∧
     reachable_within n b adv (Z.to_nat d) start_pos p) ∧
  StronglySorted Z.le (state_queue.*2) ∧
  (∀ p d p0 d0 rest, state_queue = (p0, d0) :: rest →
     depth p = Some d → d ≤ d0 + 1) ∧
  (∀ p d, depth p = Some d → p ∉ state_queue.*1 →
     ∀ p', legal_step n b adv p p' →
       p' ≠ end_pos ∧ ∃ d', depth p' = Some d' ∧ d' ≤ d + 1).

(** The grid distance between two cells. *)
Definition manhattan (p q : pos) : Z := Z.abs (p.1 - q.1) + Z.abs (p.2 - q.2).

(** [x] lies in the rectangle of cells spanned by [p] and [q]. *)
Definition in_rect (p q x : pos) : Prop :=
  (Z.min p.1 q.1 ≤ x.1 ≤ Z.max p.1 q.1) ∧ (Z.min p.2 q.2 ≤ x.2 ≤ Z.max p.2 q.2).

(** A board with no wall between any two of its cells. *)
Definition wall_freeb (n : Z) (b : ndarray) : bool :=
  forallb (λ p : pos,
    forallb (λ d, implb (in_boundsb n (neighbor p d)) (negb (arr_bits b p.1 p.2 d)))
      (seqZ 0 4))
    (cells n).

(** The states the engine is in between two turns. *)
Definition wf_world (w : World) : Prop :=
  wf_board (board_size w) (chess_board w) ∧
  in_bounds (board_size w) (p0_pos w) ∧
  in_bounds (board_size w) (p1_pos w) ∧
  max_step w = (board_size w + 1) `div` 2 ∧
  (turn w = 0 ∨ turn w = 1).

(** The boolean form of [wf_world]. *)
Definition wf_worldb (w : World) : bool :=
  wf_boardb (board_size w) (chess_board w) &&
  in_boundsb (board_size w) (p0_pos w) &&
  in_boundsb (board_size w) (p1_pos w) &&
  (max_step w =? (board_size w + 1) `div` 2) &&
  ((turn w =? 0) || (turn w =? 1)).

(** The position, and the recorded times, of the player whose turn it is
    and of the other player. *)
Definition mover_pos (w : World) : pos :=
  if turn w =? 0 then p0_pos w else p1_pos w.

Definition waiting_pos (w : World) : pos :=
  if turn w =? 0 then p1_pos w else p0_pos w.

Definition mover_time (w : World) : list Z :=
  if turn w =? 0 then p0_time w else p1_time w.

Definition waiting_time (w : World) : list Z :=
  if turn w =? 0 then p1_time w else p0_time w.

(** The agent object of the player whose turn it is. *)
Definition mover_agent (w : World) : Agent :=
  if turn w =? 0 then p0 w else p1 w.

(** The world with the two players' positions exchanged. *)
Definition swap_positions (w : World) : World :=
  set_p1_pos (p0_pos w) (set_p0_pos (p1_pos w) w).

(** The board looks the same after a half turn about its centre. *)
Definition point_symmetric (n : Z) (b : ndarray) : Prop :=
  ∀ r c d, 0 ≤ r < n → 0 ≤ c < n → 0 ≤ d ≤ 3 →
    arr_bits b r c d = arr_bits b (n - 1 - r) (n - 1 - c) (opposite d).

(** The 4 by 4 board with border walls only, the players in opposite
    corners, player 0 to move; and a first move for player 0. *)
Definition example_start : World :=
  example_world 4 (empty_board 4) (0, 0) (3, 3) 0.

Definition example_move : outcome := AgentReturns (RetMove (0, 1) 1) 5.

(** A 4 by 4 world whose two middle columns are walled apart, and a move
    of player 0 inside its half. *)
Definition example_finished : World :=
  example_world 4 (board_with 4 [(0, 1, 1); (1, 1, 1); (2, 1, 1); (3, 1, 1)])
    (0, 0) (3, 3) 0.

Definition example_late_move : outcome := AgentReturns (RetMove (0, 1) 2) 5.

(** A dictionary in which (0, 0) points at the root (0, 2) through
    (0, 1). *)
Definition example_father : gmap pos pos :=
  <[(0, 0) := (0, 1)]> (<[(0, 1) := (0, 2)]> {[(0, 2) := (0, 2)]}).

(** The wall slots of the board, a cell and a direction each; the slots
    that hold a wall, and their number. *)
Definition slots (n : Z) : list (Z * Z * Z) :=
  p ← cells n; d ← seqZ 0 4; [(p.1, p.2, d)].

Definition wall_set (n : Z) (b : ndarray) : gset (Z * Z * Z) :=
  list_to_set (filter (λ t, arr_bits b t.1.1 t.1.2 t.2 = true) (slots n)).

Definition wall_count (n : Z) (b : ndarray) : Z :=
  Z.of_nat (size (wall_set n b)).

(** The loop of the [__main__] block, from the world the constructor
    returned: turns are played until one reports the end of the game, and
    the scores of that turn are printed.  [calls] lists what the
    collaborators' calls do, turn by turn. *)
Fixpoint main_loop (fuel : nat) (calls : list outcome) : St World (Z * Z) :=
  match calls with
  | [] => raise OutOfFuel
  | call :: calls' =>
      '(is_end, p0_score, p1_score) ← step fuel call;
      if (is_end : bool) then ret (p0_score, p1_score)
      else main_loop fuel calls'
  end.

(** A game of four turns on the 3 by 3 board, from the corners. *)
Definition example_small : World :=
  example_world 3 (empty_board 3) (0, 0) (2, 2) 0.

Definition example_game : list outcome :=
  [AgentReturns (RetMove (0, 1) 3) 1; AgentReturns (RetMove (2, 2) 0) 1;
   AgentReturns (RetMove (1, 0) 0) 1; AgentReturns (RetMove (2, 2) 3) 1].

(** The walk the fallback makes: exactly [k] legal steps, or fewer when it
    stops in a cell that no legal step leaves. *)
Inductive walk_of (n : Z) (b : ndarray) (adv : pos) : nat → pos → pos → Prop :=
  | walk_of_done p : walk_of n b adv 0 p p
  | walk_of_boxed k p :
      (∀ q, ¬ legal_step n b adv p q) → walk_of n b adv (S k) p p
  | walk_of_step k p q r :
      legal_step n b adv p q → walk_of n b adv k q r →
      walk_of n b adv (S k) p r.

(** The 5 by 5 board with border walls only, the players in opposite
    corners: the fixed random source makes the fallback walk three steps. *)
Definition example_wide : World :=
  example_world 5 (empty_board 5) (0, 0) (4, 4) 0.


(** ** Position arrays that an agent holds *)

(** [step] keeps the array the agent returned: [np.asarray(next_pos,
    dtype=cur_pos.dtype)] makes no copy of an array that has that dtype, and
    [self.p0_pos = next_pos] stores the object.  An agent that returned its
    move as such an array therefore holds the array behind the position of
    its player, and code that runs during a later call can write to it.
    [held0] and [held1] tell whether the array behind [p0_pos] and [p1_pos]
    is one that an agent returned; the arrays the constructor and the
    fallback make are the engine's own. *)
Record Shared : Type := {
  world : World;
  held0 : bool;
  held1 : bool
}.

(** What the call of an agent does: it may write into the position arrays
    that agents hold, and it ends with an outcome.  [returns_array] tells
    whether a position it returns is an array of the engine's dtype that
    the agent keeps, rather than a tuple, a list or an array to convert. *)
Record agent_call : Type := {
  write0 : option pos;
  write1 : option pos;
  call_outcome : outcome;
  returns_array : bool
}.

(** The world after the writes of a call: a write changes the position
    only when the array is held. *)
Definition write_positions (c : agent_call) (s : Shared) : World :=
  let w0 :=
    match write0 c with
    | Some q => if held0 s then set_p0_pos q (world s) else world s
    | None => world s
    end in
  match write1 c with
  | Some q => if held1 s then set_p1_pos q w0 else w0
  | None => w0
  end.

Definition mover_held (s : Shared) : bool :=
  if turn (world s) =? 0 then held0 s else held1 s.

Definition mover_write (c : agent_call) (s : Shared) : option pos :=
  if turn (world s) =? 0 then write0 c else write1 c.

Definition waiting_write (c : agent_call) (s : Shared) : option pos :=
  if turn (world s) =? 0 then write1 c else write0 c.

(** [World.step] with the writes of the call.  [cur_pos] and [adv_pos]
    are bound to the array objects before the call and read after it, by
    the checks, by [random_walk] and by [check_endgame]: the turn runs on
    the positions as written.  When the turn returns, the array behind the
    mover's position is the agent's exactly when the move played is the
    one the agent returned and it returned it as an array; the move of the
    fallback is a tuple, which [np.asarray] copies. *)
Definition step_shared (fuel : nat) (c : agent_call) (s : Shared)
  : res (bool * Z * Z * Shared) :=
  let w1 := write_positions c s in
  let accepted := is_ok (step_try fuel (call_outcome c) (mover_pos w1) w1).1.1 in
  match step fuel (call_outcome c) w1 with
  | (Ok results, w2) =>
      let held := accepted && returns_array c in
      Ok (results,
          if turn w1 =? 0
          then {| world := w2; held0 := held; held1 := held1 s |}
          else {| world := w2; held0 := held0 s; held1 := held |})
  | (Raise e, _) => Raise e
  end.

(** The state a turn leaves, for examples. *)
Definition after_turn (fuel : nat) (c : agent_call) (s : Shared) : Shared :=
  match step_shared fuel c s with
  | Ok (_, s') => s'
  | Raise _ => s
  end.

(** The start of a game on the 4 by 4 board: both arrays are the
    engine's.  Player 0 moves to (0, 1) and returns the move as an array,
    player 1 moves to (3, 2) and returns a tuple; then player 0 writes the
    opponent's cell into the array it holds and returns that array. *)
Definition example_shared : Shared :=
  {| world := example_start; held0 := false; held1 := false |}.

Definition example_array_move : agent_call :=
  {| write0 := None; write1 := None;
     call_outcome := AgentReturns (RetMove (0, 1) 1) 5;
     returns_array := true |}.

Definition example_tuple_move : agent_call :=
  {| write0 := None; write1 := None;
     call_outcome := AgentReturns (RetMove (3, 2) 0) 5;
     returns_array := false |}.

Definition example_held : Shared :=
  after_turn 100 example_tuple_move
    (after_turn 100 example_array_move example_shared).

Definition example_jump : agent_call :=
  {| write0 := Some (3, 2); write1 := None;
     call_outcome := AgentReturns (RetMove (3, 2) 3) 5;
     returns_array := true |}.

(** * Properties *)

(** ** Indexing and the monad *)

Ltac st_unfold :=
  cbv [mbind mret St_bind St_ret res_mbind res_ret bind ret res_bind lift
       raise modify get gets] in *.

Lemma norm_index_in (n i : Z) : 0 ≤ i < n → norm_index n i = Ok i.
Proof.
  intros H. unfold norm_index.
  destruct (0 <=? i) eqn:E1; destruct (i <? n) eqn:E2; simpl; try reflexivity; lia.
Qed.

Lemma norm_index_neg (n i : Z) : - n ≤ i < 0 → norm_index n i = Ok (i + n).
Proof.
  intros H. unfold norm_index.
  destruct (0 <=? i) eqn:E1; [lia|]. simpl.
  destruct (- n <=? i) eqn:E3; destruct (i <? 0) eqn:E4; simpl; try reflexivity; lia.
Qed.

Lemma norm_index_high (n i : Z) : 0 ≤ n ≤ i → norm_index n i = Raise IndexError.
Proof.
  intros H. unfold norm_index.
  destruct (0 <=? i) eqn:E1; destruct (i <? n) eqn:E2; simpl; try lia.
  destruct (- n <=? i) eqn:E3; destruct (i <? 0) eqn:E4; simpl; try reflexivity; lia.
Qed.

Lemma norm_index_ok (n i j : Z) :
  norm_index n i = Ok j → 0 ≤ j < n ∧ (j = i ∨ j = i + n).
Proof.
  unfold norm_index.
  destruct (0 <=? i) eqn:E1; destruct (i <? n) eqn:E2; simpl;
    destruct (- n <=? i) eqn:E3; destruct (i <? 0) eqn:E4; simpl;
    intros [= <-] || intros [=]; lia.
Qed.

Lemma arr_get_in (b : ndarray) (r c d : Z) :
  0 ≤ r < arr_n b → 0 ≤ c < arr_n b → 0 ≤ d ≤ 3 →
  arr_get b r c d = Ok (arr_bits b r c d).
Proof.
  intros Hr Hc Hd. unfold arr_get.
  rewrite !norm_index_in by lia. reflexivity.
Qed.

Lemma moves_in (dir : Z) : 0 ≤ dir ≤ 3 → moves dir = Ok (move_of dir).
Proof.
  intros H. assert (dir = 0 ∨ dir = 1 ∨ dir = 2 ∨ dir = 3) as Hd by lia.
  destruct Hd as [-> | [-> | [-> | ->]]]; reflexivity.
Qed.

Lemma opposites_in (dir : Z) : 0 ≤ dir ≤ 3 → opposites dir = Ok (opposite dir).
Proof.
  intros H. assert (dir = 0 ∨ dir = 1 ∨ dir = 2 ∨ dir = 3) as Hd by lia.
  destruct Hd as [-> | [-> | [-> | ->]]]; reflexivity.
Qed.

Lemma opposite_range (dir : Z) : 0 ≤ opposite dir ≤ 3.
Proof. unfold opposite. pose proof (Z.mod_pos_bound (dir + 2) 4). lia. Qed.

(** ** Wall placement *)

Lemma arr_set_in (a : ndarray) (r c d : Z) (v : bool) :
  0 ≤ r < arr_n a → 0 ≤ c < arr_n a → 0 ≤ d ≤ 3 →
  arr_set r c d v a =
    (Ok tt, {| arr_n := arr_n a; arr_bits := bits_set (arr_bits a) r c d v |}).
Proof.
  intros Hr Hc Hd. unfold arr_set. rewrite !norm_index_in by lia. reflexivity.
Qed.

Lemma bits_set_eq (f : Z → Z → Z → bool) (r c d : Z) (v : bool) :
  bits_set f r c d v r c d = v.
Proof. unfold bits_set. rewrite !Z.eqb_refl. reflexivity. Qed.

Lemma bits_set_ne (f : Z → Z → Z → bool) (r c d r' c' d' : Z) (v : bool) :
  (r', c', d') ≠ (r, c, d) → bits_set f r c d v r' c' d' = f r' c' d'.
Proof.
  intros Hne. unfold bits_set.
  destruct (r' =? r) eqn:E1; destruct (c' =? c) eqn:E2;
    destruct (d' =? d) eqn:E3; simpl; try reflexivity.
  exfalso. apply Hne. f_equal; [f_equal|]; lia.
Qed.

Lemma bits_set_true (f : Z → Z → Z → bool) (r c d r' c' d' : Z) :
  f r' c' d' = true → bits_set f r c d true r' c' d' = true.
Proof. intros H. unfold bits_set. rewrite H. by destruct (_ && _). Qed.

Lemma move_of_cases (dir : Z) :
  0 ≤ dir ≤ 3 →
  (dir = 0 ∧ move_of dir = (-1, 0) ∧ opposite dir = 2) ∨
  (dir = 1 ∧ move_of dir = (0, 1) ∧ opposite dir = 3) ∨
  (dir = 2 ∧ move_of dir = (1, 0) ∧ opposite dir = 0) ∨
  (dir = 3 ∧ move_of dir = (0, -1) ∧ opposite dir = 1).
Proof.
  intros H. assert (dir = 0 ∨ dir = 1 ∨ dir = 2 ∨ dir = 3) as Hd by lia.
  destruct Hd as [-> | [-> | [-> | ->]]]; auto 10.
Qed.

(** [set_barrier_arr] when both writes are in range. *)
Lemma set_barrier_arr_in (a : ndarray) (r c dir : Z) :
  0 ≤ r < arr_n a → 0 ≤ c < arr_n a → 0 ≤ dir ≤ 3 →
  in_bounds (arr_n a) (neighbor (r, c) dir) →
  set_barrier_arr r c dir a =
    (Ok tt,
     {| arr_n := arr_n a;
        arr_bits :=
          bits_set (bits_set (arr_bits a) r c dir true)
            (neighbor (r, c) dir).1 (neighbor (r, c) dir).2 (opposite dir) true |}).
Proof.
  intros Hr Hc Hd [Hn1 Hn2]. unfold set_barrier_arr. st_unfold.
  rewrite arr_set_in by lia.
  rewrite moves_in, opposites_in by lia.
  pose proof (opposite_range dir).
  unfold neighbor, pos_add in *. simpl in *.
  rewrite arr_set_in by (simpl; lia). reflexivity.
Qed.

(** C7: when the cell and its neighbour in direction [dir] are both on the
    board, [set_barrier] returns normally, the wall bit at the cell and the
    mirrored bit at the neighbour are set, and no other bit of the array
    (nor its shape) changes. *)
Theorem set_barrier_sets_both_sides (w : World) (r c dir : Z) :
  arr_n (chess_board w) = board_size w →
  in_bounds (board_size w) (r, c) →
  0 ≤ dir ≤ 3 →
  in_bounds (board_size w) (neighbor (r, c) dir) →
  ∃ w',
    set_barrier r c dir w = (Ok tt, w') ∧
    arr_get (chess_board w') r c dir = Ok true ∧
    arr_get (chess_board w')
      (neighbor (r, c) dir).1 (neighbor (r, c) dir).2 (opposite dir) = Ok true ∧
    (∀ r' c' d',
       (r', c', d') ≠ (r, c, dir) →
       (r', c', d') ≠
         ((neighbor (r, c) dir).1, (neighbor (r, c) dir).2, opposite dir) →
       arr_bits (chess_board w') r' c' d' = arr_bits (chess_board w) r' c' d') ∧
    arr_n (chess_board w') = arr_n (chess_board w).
Proof.
  intros Hn [Hr Hc] Hd Hnb. simpl in Hr, Hc.
  unfold set_barrier, on_board.
  rewrite set_barrier_arr_in by (rewrite ?Hn; auto).
  eexists. split; [reflexivity|]. simpl.
  pose proof (opposite_range dir) as Ho.
  destruct Hnb as [Hn1 Hn2]. unfold neighbor, pos_add in *. simpl in *.
  split; [|split; [|split; [|reflexivity]]].
  - rewrite arr_get_in by (simpl; lia). f_equal.
    apply bits_set_true, bits_set_eq.
  - rewrite arr_get_in by (simpl; lia). f_equal. apply bits_set_eq.
  - intros r' c' d' H1 H2. rewrite bits_set_ne by assumption.
    apply bits_set_ne; assumption.
Qed.

Lemma set_barrier_sets_both_sides_witness :
  ∃ w',
    set_barrier 1 1 1 (example_world 4 (empty_board 4) (0, 0) (3, 3) 0)
      = (Ok tt, w') ∧
    arr_get (chess_board w') 1 1 1 = Ok true ∧
    arr_get (chess_board w') 1 2 3 = Ok true.
Proof.
  destruct (set_barrier_sets_both_sides
              (example_world 4 (empty_board 4) (0, 0) (3, 3) 0) 1 1 1)
    as (w' & H1 & H2 & H3 & _).
  - reflexivity.
  - unfold in_bounds; simpl; lia.
  - lia.
  - unfold in_bounds; simpl; lia.
  - exists w'. split; [exact H1|]. split; [exact H2| exact H3].
Defined.

Lemma set_barrier_wraps (w : World) (r c dir r2 c2 : Z) :
  0 ≤ r < arr_n (chess_board w) → 0 ≤ c < arr_n (chess_board w) →
  0 ≤ dir ≤ 3 →
  0 ≤ r2 < arr_n (chess_board w) → 0 ≤ c2 < arr_n (chess_board w) →
  norm_index (arr_n (chess_board w)) (r + (move_of dir).1) = Ok r2 →
  norm_index (arr_n (chess_board w)) (c + (move_of dir).2) = Ok c2 →
  ∃ w', set_barrier r c dir w = (Ok tt, w') ∧
        sets_two w w' r c dir r2 c2 (opposite dir).
Proof.
  intros Hr Hc Hd Hr2 Hc2 Er Ec.
  pose proof (opposite_range dir) as Ho.
  unfold set_barrier, on_board, set_barrier_arr. st_unfold.
  rewrite arr_set_in by lia.
  rewrite moves_in, opposites_in by lia.
  unfold arr_set. simpl. rewrite Er, Ec, norm_index_in by lia.
  eexists. split; [reflexivity|]. unfold sets_two. simpl.
  split; [|split; [|split; [|reflexivity]]].
  - rewrite arr_get_in by (simpl; lia). f_equal.
    apply bits_set_true, bits_set_eq.
  - rewrite arr_get_in by (simpl; lia). f_equal. apply bits_set_eq.
  - intros r' c' d' H1 H2. rewrite bits_set_ne by assumption.
    apply bits_set_ne; assumption.
Qed.

Lemma set_barrier_overflows (w : World) (r c dir : Z) :
  0 ≤ r < arr_n (chess_board w) → 0 ≤ c < arr_n (chess_board w) →
  0 ≤ dir ≤ 3 →
  arr_n (chess_board w) ≤ r + (move_of dir).1 ∨
  arr_n (chess_board w) ≤ c + (move_of dir).2 →
  ∃ w', set_barrier r c dir w = (Raise IndexError, w') ∧ sets_one w w' r c dir.
Proof.
  intros Hr Hc Hd Hover.
  unfold set_barrier, on_board, set_barrier_arr. st_unfold.
  rewrite arr_set_in by lia.
  rewrite moves_in, opposites_in by lia.
  unfold arr_set. simpl.
  assert (∃ b', (match norm_index (arr_n (chess_board w)) (r + (move_of dir).1),
                       norm_index (arr_n (chess_board w)) (c + (move_of dir).2),
                       norm_index 4 (opposite dir) with
                 | Ok r', Ok c', Ok d' =>
                     (Ok tt, {| arr_n := arr_n (chess_board w);
                                arr_bits := bits_set (bits_set (arr_bits (chess_board w)) r c dir true) r' c' d' true |})
                 | _, _, _ =>
                     (Raise IndexError,
                      {| arr_n := arr_n (chess_board w);
                         arr_bits := bits_set (arr_bits (chess_board w)) r c dir true |})
                 end) = (Raise IndexError, b') ∧
                b' = {| arr_n := arr_n (chess_board w);
                        arr_bits := bits_set (arr_bits (chess_board w)) r c dir true |})
    as (b' & -> & ->).
  { destruct Hover as [H | H].
    - rewrite (norm_index_high _ (r + _)) by lia. eexists; split; reflexivity.
    - rewrite (norm_index_high _ (c + _)) by lia.
      destruct (norm_index _ (r + _)); eexists; split; reflexivity. }
  eexists. split; [reflexivity|]. unfold sets_one. simpl.
  split; [|split; [|reflexivity]].
  - rewrite arr_get_in by (simpl; lia). f_equal. apply bits_set_eq.
  - intros r' c' d' H1. apply bits_set_ne; assumption.
Qed.

(** C9, as the code has it: on the top row with [dir] up and on the left
    column with [dir] left the mirrored index is -1, which the array reads
    from the end, so [set_barrier] returns and also sets the facing bit of
    the cell at the far end of the same column or row.  On the bottom row
    with [dir] down and on the right column with [dir] right the mirrored
    index is the board size: [set_barrier] raises [IndexError], having set
    the bit of the cell itself. *)
Theorem set_barrier_at_border (w : World) (i : Z) :
  arr_n (chess_board w) = board_size w →
  0 ≤ i < board_size w →
  (∃ w', set_barrier 0 i 0 w = (Ok tt, w') ∧
         sets_two w w' 0 i 0 (board_size w - 1) i 2) ∧
  (∃ w', set_barrier i 0 3 w = (Ok tt, w') ∧
         sets_two w w' i 0 3 i (board_size w - 1) 1) ∧
  (∃ w', set_barrier (board_size w - 1) i 2 w = (Raise IndexError, w') ∧
         sets_one w w' (board_size w - 1) i 2) ∧
  (∃ w', set_barrier i (board_size w - 1) 1 w = (Raise IndexError, w') ∧
         sets_one w w' i (board_size w - 1) 1).
Proof.
  intros Hn Hi.
  split; [|split; [|split]].
  - apply (set_barrier_wraps w 0 i 0 (board_size w - 1) i); rewrite ?Hn; try lia.
    + change (move_of 0).1 with (-1). rewrite norm_index_neg by lia. f_equal. lia.
    + change (move_of 0).2 with 0. rewrite norm_index_in by lia. f_equal. lia.
  - apply (set_barrier_wraps w i 0 3 i (board_size w - 1)); rewrite ?Hn; try lia.
    + change (move_of 3).1 with 0. rewrite norm_index_in by lia. f_equal. lia.
    + change (move_of 3).2 with (-1). rewrite norm_index_neg by lia. f_equal. lia.
  - apply set_barrier_overflows; rewrite ?Hn; try lia.
    left. change (move_of 2).1 with 1. lia.
  - apply set_barrier_overflows; rewrite ?Hn; try lia.
    right. change (move_of 1).2 with 1. lia.
Qed.

Lemma set_barrier_at_border_witness :
  (set_barrier 0 1 0 (example_world 4 (empty_board 4) (0, 0) (3, 3) 0)).1
    = Ok tt ∧
  (set_barrier 1 3 1 (example_world 4 (empty_board 4) (0, 0) (3, 3) 0)).1
    = Raise IndexError.
Proof.
  destruct (set_barrier_at_border
              (example_world 4 (empty_board 4) (0, 0) (3, 3) 0) 1)
    as ((w1 & H1 & _) & _ & _ & (w4 & H4 & _)).
  - reflexivity.
  - simpl; lia.
  - split.
    + exact (f_equal fst H1).
    + exact (f_equal fst H4).
Defined.

(** C9 as stated fails on the bottom row: [set_barrier] raises. *)
Lemma set_barrier_bottom_row_raises :
  (set_barrier 3 1 2 (example_world 4 (empty_board 4) (0, 0) (3, 3) 0)).1
    = Raise IndexError.
Proof. reflexivity. Qed.

(** ** The wall check of [check_valid_step] *)

(** C5: when the destination is on the board and already has the wall bit
    of the requested direction set, [check_valid_step] returns false,
    whatever the start position (the destination itself included), the
    opponent's position and the move budget. *)
Theorem check_valid_step_rejects_existing_wall
    (fuel : nat) (w : World) (start_pos end_pos : pos) (barrier_dir : Z) :
  arr_n (chess_board w) = board_size w →
  in_bounds (board_size w) end_pos →
  0 ≤ barrier_dir ≤ 3 →
  arr_bits (chess_board w) end_pos.1 end_pos.2 barrier_dir = true →
  check_valid_step fuel w start_pos end_pos barrier_dir = Ok false.
Proof.
  intros Hn [Hr Hc] Hd Hbit.
  unfold check_valid_step, check_valid_step_on.
  rewrite arr_get_in by (rewrite ?Hn; lia). rewrite Hbit. reflexivity.
Qed.

Lemma check_valid_step_rejects_existing_wall_witness :
  check_valid_step 0 (example_world 4 (empty_board 4) (0, 0) (3, 3) 0)
    (0, 0) (0, 0) 3 = Ok false.
Proof.
  apply check_valid_step_rejects_existing_wall.
  - reflexivity.
  - unfold in_bounds; simpl; lia.
  - lia.
  - reflexivity.
Defined.

(** ** The move budget *)

Lemma ceil_div_2 (n : Z) : ceil_div n 2 = (n + 1) `div` 2.
Proof.
  unfold ceil_div.
  pose proof (Z.div_mod (- n) 2 ltac:(lia)).
  pose proof (Z.mod_pos_bound (- n) 2 ltac:(lia)).
  pose proof (Z.div_mod (n + 1) 2 ltac:(lia)).
  pose proof (Z.mod_pos_bound (n + 1) 2 ltac:(lia)).
  lia.
Qed.

Lemma World_init_max_step registry min_size max_size player_1 player_2 size
    want_autoplay fuel g w g' :
  World_init registry min_size max_size player_1 player_2 size want_autoplay
    fuel g = (Ok w, g') →
  max_step w = (board_size w + 1) `div` 2.
Proof.
  unfold World_init. st_unfold. intros H.
  repeat case_match; simplify_eq; reflexivity.
Qed.

Lemma set_barrier_params r c dir w x w' :
  set_barrier r c dir w = (x, w') →
  max_step w' = max_step w ∧ board_size w' = board_size w ∧
  p0_pos w' = p0_pos w ∧ p1_pos w' = p1_pos w ∧ turn w' = turn w.
Proof.
  unfold set_barrier, on_board. destruct (set_barrier_arr _ _ _ _).
  intros [= <- <-]. auto.
Qed.

Lemma random_walk_params my_pos adv_pos w x w' :
  random_walk my_pos adv_pos w = (x, w') →
  max_step w' = max_step w ∧ board_size w' = board_size w ∧
  chess_board w' = chess_board w ∧
  p0_pos w' = p0_pos w ∧ p1_pos w' = p1_pos w ∧ turn w' = turn w.
Proof.
  unfold random_walk, on_rng. destruct (random_walk_on _ _ _ _ _).
  intros [= <- <-]. auto 10.
Qed.

Lemma update_player_time_params t w :
  max_step (update_player_time t w) = max_step w ∧
  board_size (update_player_time t w) = board_size w ∧
  chess_board (update_player_time t w) = chess_board w ∧
  p0_pos (update_player_time t w) = p0_pos w ∧
  p1_pos (update_player_time t w) = p1_pos w ∧
  turn (update_player_time t w) = turn w.
Proof. unfold update_player_time. destruct (turn w =? 0); auto 10. Qed.

Lemma step_try_params fuel call cur_pos w x t w' :
  step_try fuel call cur_pos w = (x, t, w') →
  max_step w' = max_step w ∧ board_size w' = board_size w ∧
  chess_board w' = chess_board w ∧
  p0_pos w' = p0_pos w ∧ p1_pos w' = p1_pos w ∧ turn w' = turn w.
Proof.
  unfold step_try. intros H.
  destruct call as [e | [next_pos dir | | e] elapsed]; simplify_eq;
    auto 10 using update_player_time_params.
Qed.

Lemma step_except_params cur_player cur_pos adv_pos e w x w' :
  step_except cur_player cur_pos adv_pos e w = (x, w') →
  max_step w' = max_step w ∧ board_size w' = board_size w ∧
  chess_board w' = chess_board w ∧
  p0_pos w' = p0_pos w ∧ p1_pos w' = p1_pos w ∧ turn w' = turn w.
Proof.
  unfold step_except. st_unfold. intros H.
  destruct e as [ex_type|]; [|simplify_eq; auto 10].
  destruct (_ || _); [simplify_eq; auto 10|].
  eapply random_walk_params; eauto.
Qed.

Lemma step_apply_params fuel next_pos dir t w x w' :
  step_apply fuel next_pos dir t w = (x, w') →
  max_step w' = max_step w ∧ board_size w' = board_size w.
Proof.
  unfold step_apply. st_unfold. intros H.
  destruct (log_move w dir t); [|simplify_eq; auto].
  destruct next_pos as [r c].
  destruct (set_barrier r c dir _) as [[[]|e] w1] eqn:E;
    apply set_barrier_params in E as (E1 & E2 & _);
    [|simplify_eq; rewrite E1, E2; by destruct (turn w =? 0)].
  destruct (check_endgame fuel _); simplify_eq; simpl;
    rewrite E1, E2; by destruct (turn w =? 0).
Qed.

Lemma step_params fuel call w x w' :
  step fuel call w = (x, w') →
  max_step w' = max_step w ∧ board_size w' = board_size w.
Proof.
  unfold step. intros H.
  destruct (get_current_player w) as [[cur_player cur_pos] adv_pos].
  destruct (step_try fuel call cur_pos w) as [[attempt t] w1] eqn:E1.
  apply step_try_params in E1 as (E1a & E1b & _).
  destruct attempt as [mv | e].
  - destruct mv as [next_pos dir].
    apply step_apply_params in H as [-> ->]. auto.
  - destruct (step_except _ _ _ _ _) as [[[next_pos dir]|e'] w2] eqn:E2;
      apply step_except_params in E2 as (E2a & E2b & _).
    + apply step_apply_params in H as [-> ->]. split; congruence.
    + simplify_eq. split; congruence.
Qed.

(** C2, as the code has it: the move budget computed by the constructor
    is the floor of (N + 1) / 2, which is ⌈N / 2⌉ (2 for N = 4), and a turn
    changes neither the budget nor the board size. *)
Theorem max_step_is_half_board_rounded_up :
  (∀ registry min_size max_size player_1 player_2 size want_autoplay fuel
     g w g',
     World_init registry min_size max_size player_1 player_2 size
       want_autoplay fuel g = (Ok w, g') →
     max_step w = (board_size w + 1) `div` 2 ∧
     max_step w = ceil_div (board_size w) 2 ∧
     (board_size w = 4 → max_step w = 2)) ∧
  (∀ fuel call w x w',
     step fuel call w = (x, w') →
     max_step w' = max_step w ∧ board_size w' = board_size w).
Proof.
  split.
  - intros * H. apply World_init_max_step in H.
    rewrite ceil_div_2. split; [exact H|]. split; [exact H|].
    intros H4. rewrite H, H4. reflexivity.
  - intros *. apply step_params.
Qed.

Lemma max_step_is_half_board_rounded_up_witness :
  ∃ w, (World_init example_registry 6 12 "a" "b" (Some 4) false 100
          example_rng).1 = Ok w ∧
       max_step w = 2.
Proof.
  destruct (World_init example_registry 6 12 "a" "b" (Some 4) false 100
              example_rng) as [[w|e] g'] eqn:E.
  - exists w. split; [reflexivity|].
    destruct max_step_is_half_board_rounded_up as [H _].
    destruct (H _ _ _ _ _ _ _ _ _ _ _ E) as (_ & _ & H4).
    apply H4. vm_compute in E. injection E as <- _. reflexivity.
  - vm_compute in E. discriminate E.
Defined.

(** C2 as stated fails for N = 4: the budget is 2, not ⌈5 / 2⌉ = 3. *)
Lemma max_step_is_not_ceiling :
  ∃ w, (World_init example_registry 6 12 "a" "b" (Some 4) false 100
          example_rng).1 = Ok w ∧
       board_size w = 4 ∧
       max_step w ≠ ceil_div (board_size w + 1) 2.
Proof.
  eexists. split; [vm_compute; reflexivity|].
  split; [reflexivity|]. vm_compute. discriminate.
Qed.

(** ** A turn in which the collaborator fails *)

Lemma log_move_unbound (w : World) (dir : Z) : is_ok (log_move w dir None) = false.
Proof. unfold log_move. repeat case_match; reflexivity. Qed.

Lemma step_apply_unbound fuel next_pos dir w :
  is_ok (step_apply fuel next_pos dir None w).1 = false.
Proof.
  unfold step_apply. st_unfold.
  pose proof (log_move_unbound w dir) as H.
  destruct (log_move w dir None); [discriminate H | reflexivity].
Qed.

(** When the call raised, or returned something that does not unpack,
    [time_taken] was never assigned and the turn cannot complete. *)
Lemma step_unbound_time_taken fuel call w :
  (step_try fuel call (get_current_player w).1.2 w).1.2 = None →
  is_ok (step fuel call w).1 = false.
Proof.
  unfold step.
  destruct (get_current_player w) as [[cur_player cur_pos] adv_pos]. simpl.
  destruct (step_try fuel call cur_pos w) as [[attempt t] w1]. simpl.
  intros ->.
  destruct attempt as [[next_pos dir] | e].
  - apply step_apply_unbound.
  - destruct (step_except _ _ _ _ _) as [[[next_pos dir]|e'] w2].
    + apply step_apply_unbound.
    + reflexivity.
Qed.

(** C1 fails on the code: a turn in which the collaborator's call raises,
    or returns a value that is not a pair, never completes.  The fallback
    move is drawn, but the log line then reads the local [time_taken],
    which is only assigned after the call has returned, and the caller sees
    an [UnboundLocalError]. *)
Theorem step_raises_when_agent_raises :
  (∀ fuel e w, is_ok (step fuel (AgentRaises e) w).1 = false) ∧
  (∀ fuel elapsed w, is_ok (step fuel (AgentReturns RetNoPair elapsed) w).1 = false) ∧
  (step 100 (AgentRaises ValueError)
     (example_world 4 (empty_board 4) (0, 0) (3, 3) 0)).1
    = Raise UnboundLocalError.
Proof.
  split; [|split].
  - intros. apply step_unbound_time_taken. reflexivity.
  - intros. apply step_unbound_time_taken. reflexivity.
  - vm_compute. reflexivity.
Qed.

(** ** Well-formed boards *)

Lemma elem_of_range (n i : Z) : i ∈ range n ↔ 0 ≤ i < n.
Proof. unfold range. rewrite elem_of_seqZ. lia. Qed.

Lemma elem_of_cells (n : Z) (p : pos) : p ∈ cells n ↔ in_bounds n p.
Proof.
  unfold cells, in_bounds. rewrite list_elem_of_bind. split.
  - intros (r & Hp & Hr). apply list_elem_of_bind in Hp as (c & Hp & Hc).
    apply list_elem_of_singleton in Hp as ->.
    apply elem_of_range in Hr, Hc. simpl. lia.
  - intros [Hr Hc]. exists p.1. split; [|by apply elem_of_range].
    apply list_elem_of_bind. exists p.2. split; [|by apply elem_of_range].
    destruct p. simpl. apply list_elem_of_singleton. reflexivity.
Qed.

Lemma wf_boardb_spec (n : Z) (b : ndarray) :
  wf_boardb n b = true → wf_board n b.
Proof.
  unfold wf_boardb, wf_board. rewrite !andb_true_iff, !forallb_forall.
  intros [[[Hn Hpos] Hborder] Hmirror].
  split; [lia|]. split; [lia|]. split.
  - intros i Hi.
    specialize (Hborder i). rewrite <- list_elem_of_In, elem_of_range in Hborder.
    specialize (Hborder Hi). rewrite !andb_true_iff in Hborder. tauto.
  - intros r c Hr Hc.
    specialize (Hmirror (r, c)).
    rewrite <- list_elem_of_In, elem_of_cells in Hmirror.
    specialize (Hmirror (conj Hr Hc)). simpl in Hmirror.
    rewrite andb_true_iff in Hmirror. destruct Hmirror as [H1 H2].
    split; intros Hlt.
    + destruct (r + 1 <? n) eqn:E; [|lia]. simpl in H1.
      by apply bool_decide_eq_true in H1.
    + destruct (c + 1 <? n) eqn:E; [|lia]. simpl in H2.
      by apply bool_decide_eq_true in H2.
Qed.

(** Crossing an open edge of a well-formed board stays on the board, and
    the edge is open from the other side as well. *)
Lemma open_edge_inside (n : Z) (b : ndarray) (p : pos) (dir : Z) :
  wf_board n b → in_bounds n p → 0 ≤ dir ≤ 3 →
  arr_bits b p.1 p.2 dir = false →
  in_bounds n (neighbor p dir) ∧
  arr_bits b (neighbor p dir).1 (neighbor p dir).2 (opposite dir) = false.
Proof.
  intros (Hn & Hpos & Hborder & Hmirror) [Hr Hc] Hd Hopen.
  destruct p as [r c]. simpl in *.
  pose proof (Hborder r Hr) as (_ & _ & Hl & Hrt).
  pose proof (Hborder c Hc) as (Hu & Hdn & _ & _).
  unfold neighbor, pos_add, in_bounds.
  destruct (move_of_cases dir Hd) as [(-> & -> & ->) | [(-> & -> & ->) |
    [(-> & -> & ->) | (-> & -> & ->)]]]; simpl.
  - assert (r ≠ 0) by (intros ->; congruence).
    split; [lia|]. rewrite Z.add_0_r.
    destruct (Hmirror (r - 1) c ltac:(lia) ltac:(lia)) as [Hm _].
    replace (r - 1 + 1) with r in Hm by lia.
    replace (r + -1) with (r - 1) by lia. rewrite Hm by lia. exact Hopen.
  - assert (c ≠ n - 1) by (intros ->; congruence).
    split; [lia|]. rewrite Z.add_0_r.
    destruct (Hmirror r c ltac:(lia) ltac:(lia)) as [_ Hm].
    rewrite <- Hm by lia. exact Hopen.
  - assert (r ≠ n - 1) by (intros ->; congruence).
    split; [lia|]. rewrite Z.add_0_r.
    destruct (Hmirror r c ltac:(lia) ltac:(lia)) as [Hm _].
    rewrite <- Hm by lia. exact Hopen.
  - assert (c ≠ 0) by (intros ->; congruence).
    split; [lia|]. rewrite Z.add_0_r.
    destruct (Hmirror r (c - 1) ltac:(lia) ltac:(lia)) as [_ Hm].
    replace (c - 1 + 1) with c in Hm by lia.
    replace (c + -1) with (c - 1) by lia. rewrite Hm by lia. exact Hopen.
Qed.

Lemma opposite_involutive (dir : Z) : 0 ≤ dir ≤ 3 → opposite (opposite dir) = dir.
Proof.
  intros H. assert (dir = 0 ∨ dir = 1 ∨ dir = 2 ∨ dir = 3) as Hd by lia.
  destruct Hd as [-> | [-> | [-> | ->]]]; reflexivity.
Qed.

Lemma neighbor_back (p : pos) (dir : Z) :
  0 ≤ dir ≤ 3 → neighbor (neighbor p dir) (opposite dir) = p.
Proof.
  intros Hd. destruct p as [r c]. unfold neighbor, pos_add.
  destruct (move_of_cases dir Hd) as [(-> & -> & ->) | [(-> & -> & ->) |
    [(-> & -> & ->) | (-> & -> & ->)]]]; simpl; f_equal; lia.
Qed.

(** On a well-formed board adjacency is symmetric. *)
Lemma adjacent_sym (n : Z) (b : ndarray) (p q : pos) :
  wf_board n b → adjacent n b p q → adjacent n b q p.
Proof.
  intros Hwf (Hp & Hq & dir & Hd & Hopen & ->).
  pose proof Hwf as (Hn & _).
  rewrite arr_get_in in Hopen by (destruct Hp; rewrite ?Hn; lia).
  injection Hopen as Hopen.
  destruct (open_edge_inside n b p dir Hwf Hp Hd Hopen) as [_ Hback].
  split; [exact Hq|]. split; [exact Hp|].
  exists (opposite dir). pose proof (opposite_range dir).
  split; [lia|]. split.
  - rewrite arr_get_in by (destruct Hq; rewrite ?Hn; lia). by rewrite Hback.
  - by rewrite neighbor_back.
Qed.

(** ** The fallback move *)

Lemma randint_ok (lo hi : Z) (g : Rng) :
  lo < hi →
  ∃ v g', randint lo hi g = (Ok v, g') ∧ lo ≤ v < hi ∧
          v = lo + rand_src g (rand_ix g) `mod` (hi - lo).
Proof.
  intros H. unfold randint. destruct (hi <=? lo) eqn:E; [lia|].
  eexists _, _. split; [reflexivity|].
  pose proof (Z.mod_pos_bound (rand_src g (rand_ix g)) (hi - lo)). lia.
Qed.

Lemma list_index_ok {A} (l : list A) (i : Z) :
  0 ≤ i < Z.of_nat (length l) → ∃ x, list_index l i = Ok x ∧ x ∈ l.
Proof.
  intros H. unfold list_index. rewrite norm_index_in by lia. simpl.
  destruct (l !! Z.to_nat i) as [x|] eqn:E.
  - exists x. split; [reflexivity|]. by eapply list_elem_of_lookup_2.
  - apply lookup_ge_None in E. lia.
Qed.

Lemma rand_choice_ok {A} (l : list A) (g : Rng) :
  l ≠ [] → ∃ x g', rand_choice l g = (Ok x, g') ∧ x ∈ l.
Proof.
  intros Hl. unfold rand_choice. st_unfold.
  destruct (randint_ok 0 (Z.of_nat (length l)) g) as (v & g' & -> & Hv & _).
  { destruct l; [done | simpl; lia]. }
  destruct (list_index_ok l v) as (x & -> & Hx); [lia|].
  eauto.
Qed.

Lemma allowed_dirs_spec (b : ndarray) (adv : pos) (r c : Z) (ds : list Z) :
  0 ≤ r < arr_n b → 0 ≤ c < arr_n b → (∀ d, d ∈ ds → 0 ≤ d ≤ 3) →
  ∃ l, allowed_dirs b adv r c ds = Ok l ∧
       ∀ d, d ∈ l ↔
            d ∈ ds ∧ arr_bits b r c d = false ∧ adv ≠ neighbor (r, c) d.
Proof.
  intros Hr Hc. induction ds as [|d ds IH]; intros Hds.
  - exists []. split; [reflexivity|]. intros d. rewrite !elem_of_nil. tauto.
  - destruct IH as (l & El & Hl); [intros d' Hd'; apply Hds; by right|].
    assert (0 ≤ d ≤ 3) as Hd by (apply Hds; by left).
    simpl. st_unfold. rewrite arr_get_in by lia. rewrite El.
    destruct (arr_bits b r c d) eqn:Ebit.
    + exists l. split; [reflexivity|]. intros d'. rewrite Hl, elem_of_cons.
      split; [tauto|]. intros [[-> | H] [H1 H2]]; [congruence | tauto].
    + rewrite moves_in by lia.
      change (r + (move_of d).1, c + (move_of d).2) with (neighbor (r, c) d).
      destruct (bool_decide (adv = neighbor (r, c) d)) eqn:Eadv; simpl.
      * apply bool_decide_eq_true in Eadv.
        exists l. split; [reflexivity|]. intros d'. rewrite Hl, elem_of_cons.
        split; [tauto|]. intros [[-> | H] [H1 H2]]; [congruence | tauto].
      * apply bool_decide_eq_false in Eadv.
        exists (d :: l). split; [reflexivity|]. intros d'.
        rewrite !elem_of_cons, Hl. split.
        -- intros [-> | H]; tauto.
        -- tauto.
Qed.

Lemma allowed_barriers_spec (b : ndarray) (r c : Z) (ds : list Z) :
  0 ≤ r < arr_n b → 0 ≤ c < arr_n b → (∀ d, d ∈ ds → 0 ≤ d ≤ 3) →
  ∃ l, allowed_barriers b r c ds = Ok l ∧
       ∀ d, d ∈ l ↔ d ∈ ds ∧ arr_bits b r c d = false.
Proof.
  intros Hr Hc. induction ds as [|d ds IH]; intros Hds.
  - exists []. split; [reflexivity|]. intros d. rewrite !elem_of_nil. tauto.
  - destruct IH as (l & El & Hl); [intros d' Hd'; apply Hds; by right|].
    assert (0 ≤ d ≤ 3) as Hd by (apply Hds; by left).
    simpl. st_unfold. rewrite arr_get_in by lia. rewrite El.
    destruct (arr_bits b r c d) eqn:Ebit.
    + exists l. split; [reflexivity|]. intros d'. rewrite Hl, elem_of_cons.
      split; [tauto|]. intros [[-> | H] H1]; [congruence | tauto].
    + exists (d :: l). split; [reflexivity|]. intros d'.
      rewrite !elem_of_cons, Hl. split.
      * intros [-> | H]; tauto.
      * tauto.
Qed.

Lemma elem_of_dirs (d : Z) : d ∈ seqZ 0 4 ↔ 0 ≤ d ≤ 3.
Proof. rewrite elem_of_seqZ. lia. Qed.

(** The walk makes at most [steps] legal steps; where it stops is on the
    board and, unless it never moved, has the edge it came through open. *)
Lemma walk_loop_spec (n : Z) (b : ndarray) (adv : pos) (steps : nat) :
  wf_board n b →
  ∀ (p : pos) (g : Rng), in_bounds n p →
  ∃ q g', walk_loop steps b adv p g = (Ok q, g') ∧
          reachable_within n b adv steps p q ∧
          in_bounds n q ∧
          (q = p ∨ ∃ d, 0 ≤ d ≤ 3 ∧ arr_bits b q.1 q.2 d = false).
Proof.
  intros Hwf. pose proof Hwf as (Hn & _).
  induction steps as [|k IH]; intros [r c] g Hp.
  - exists (r, c), g. split; [reflexivity|].
    split; [apply bsteps_refl|]. auto.
  - pose proof Hp as [Hr Hc]. simpl in Hr, Hc.
    destruct (allowed_dirs_spec b adv r c (seqZ 0 4)) as (l & El & Hl);
      [lia | lia | intros d; apply elem_of_dirs |].
    cbn [walk_loop]. st_unfold. rewrite El.
    destruct (bool_decide (length l = 0%nat)) eqn:Elen.
    + exists (r, c), g. split; [reflexivity|].
      split; [apply bsteps_refl|]. auto.
    + apply bool_decide_eq_false in Elen.
      destruct (rand_choice_ok l g) as (d & g1 & -> & Hd).
      { intros ->. by apply Elen. }
      apply Hl in Hd as (Hd & Hopen & Hadv). apply elem_of_dirs in Hd.
      rewrite moves_in by lia.
      change (r + (move_of d).1, c + (move_of d).2) with (neighbor (r, c) d).
      destruct (open_edge_inside n b (r, c) d Hwf Hp Hd Hopen) as [Hq Hback].
      destruct (IH (neighbor (r, c) d) g1 Hq) as (q & g' & -> & Hreach & Hq' & Hfree).
      exists q, g'. split; [reflexivity|]. split; [|split; [exact Hq'|]].
      * eapply bsteps_l; [|exact Hreach].
        split; [|congruence].
        split; [exact Hp|]. split; [exact Hq|].
        exists d. split; [exact Hd|]. split; [|reflexivity].
        simpl. rewrite arr_get_in by lia. by rewrite Hopen.
      * right. destruct Hfree as [-> | Hfree]; [|exact Hfree].
        exists (opposite d). split; [apply opposite_range | exact Hback].
Qed.

Lemma walk_loop_enclosed (b : ndarray) (adv p : pos) (steps : nat) (g : Rng) :
  0 ≤ p.1 < arr_n b → 0 ≤ p.2 < arr_n b →
  (∀ d, 0 ≤ d ≤ 3 → arr_bits b p.1 p.2 d = true) →
  walk_loop steps b adv p g = (Ok p, g).
Proof.
  intros Hr Hc Hwalled. destruct p as [r c]. simpl in *.
  destruct steps as [|k]; [reflexivity|].
  destruct (allowed_dirs_spec b adv r c (seqZ 0 4)) as (l & El & Hl);
    [lia | lia | intros d; apply elem_of_dirs |].
  cbn [walk_loop]. st_unfold. rewrite El.
  destruct l as [|d l]; [reflexivity|].
  destruct (Hl d) as [(Hd & Hopen & _) _]; [by left|].
  apply elem_of_dirs in Hd. rewrite Hwalled in Hopen by lia. discriminate.
Qed.

(** The walk of [random_walk] makes every step it was asked for, unless it
    is boxed in. *)
Lemma walk_loop_walk_of (n : Z) (b : ndarray) (adv : pos) (steps : nat) :
  wf_board n b →
  ∀ (p : pos) (g : Rng) (q : pos) (g' : Rng), in_bounds n p →
  walk_loop steps b adv p g = (Ok q, g') →
  walk_of n b adv steps p q.
Proof.
  intros Hwf. pose proof Hwf as (Hn & _).
  induction steps as [|k IH]; intros [r c] g q g' Hp.
  - intros [= <- _]. apply walk_of_done.
  - pose proof Hp as [Hr Hc]. simpl in Hr, Hc.
    destruct (allowed_dirs_spec b adv r c (seqZ 0 4)) as (l & El & Hl);
      [lia | lia | intros d; apply elem_of_dirs |].
    cbn [walk_loop]. st_unfold. rewrite El.
    destruct (bool_decide (length l = 0%nat)) eqn:Elen.
    + intros [= <- _]. apply walk_of_boxed.
      apply bool_decide_eq_true in Elen. destruct l; [|discriminate].
      intros q' [(_ & _ & d & Hd & Hopen & ->) Hadv].
      simpl in Hopen. rewrite arr_get_in in Hopen by lia.
      injection Hopen as Hopen.
      assert (d ∈ @nil Z) as Hin; [|by apply elem_of_nil in Hin].
      apply Hl. split; [by apply elem_of_dirs|]. split; [done | congruence].
    + apply bool_decide_eq_false in Elen.
      destruct (rand_choice_ok l g) as (d & g1 & -> & Hd).
      { intros ->. by apply Elen. }
      apply Hl in Hd as (Hd & Hopen & Hadv). apply elem_of_dirs in Hd.
      rewrite moves_in by lia.
      change (r + (move_of d).1, c + (move_of d).2) with (neighbor (r, c) d).
      destruct (open_edge_inside n b (r, c) d Hwf Hp Hd Hopen) as [Hq Hback].
      intros E. apply IH in E; [|exact Hq].
      eapply walk_of_step; [|exact E].
      split; [|congruence].
      split; [exact Hp|]. split; [exact Hq|].
      exists d. split; [exact Hd|]. split; [|reflexivity].
      simpl. rewrite arr_get_in by lia. by rewrite Hopen.
Qed.

(** Among [block] consecutive integers that end a multiple-of-[M] block,
    the residue [k] occurs once when it lies in the block. *)
Lemma residue_in_block (M k q : Z) (block : nat) :
  0 ≤ k < M → Z.of_nat block ≤ M →
  length (filter (λ v, v `mod` M = k)
            (seqZ (q * M + (M - Z.of_nat block)) (Z.of_nat block)))
  = if bool_decide (M - Z.of_nat block ≤ k) then 1%nat else 0%nat.
Proof.
  intros Hk. induction block as [|j IH]; intros Hj.
  - rewrite seqZ_nil by lia. rewrite bool_decide_eq_false_2 by lia. done.
  - rewrite seqZ_cons by lia.
    replace (Z.pred (Z.of_nat (S j))) with (Z.of_nat j) by lia.
    replace (Z.succ (q * M + (M - Z.of_nat (S j))))
      with (q * M + (M - Z.of_nat j)) by lia.
    assert ((q * M + (M - Z.of_nat (S j))) `mod` M = M - Z.of_nat (S j))
      as Hmod.
    { rewrite Z.add_comm, Z_mod_plus_full. apply Z.mod_small. lia. }
    rewrite filter_cons, Hmod.
    destruct (decide (M - Z.of_nat (S j) = k)) as [Heq | Hne]; simpl;
      rewrite IH by lia.
    + rewrite bool_decide_eq_false_2 by lia.
      rewrite bool_decide_eq_true_2 by lia. done.
    + destruct (bool_decide (M - Z.of_nat j ≤ k)) eqn:E.
      * apply bool_decide_eq_true in E.
        rewrite bool_decide_eq_true_2 by lia. done.
      * apply bool_decide_eq_false in E.
        rewrite bool_decide_eq_false_2 by lia. done.
Qed.

(** Of [m * M] consecutive values of the source, each residue modulo [M]
    takes [m]: the counts drawn by [randint 0 M] get equal shares. *)
Lemma residue_shares (M k : Z) (m : nat) :
  0 ≤ k < M →
  length (filter (λ v, v `mod` M = k) (seqZ 0 (Z.of_nat m * M))) = m.
Proof.
  intros Hk. induction m as [|m IH]; [by rewrite seqZ_nil by lia|].
  replace (Z.of_nat (S m) * M) with (Z.of_nat m * M + M) by lia.
  rewrite seqZ_app by nia. rewrite filter_app, length_app, IH.
  assert (0 ≤ M) as HM by lia.
  pose proof (residue_in_block M k (Z.of_nat m) (Z.to_nat M) Hk) as H.
  rewrite (Z2Nat.id M HM) in H.
  replace (Z.of_nat m * M + (M - M)) with (0 + Z.of_nat m * M) in H by lia.
  rewrite H by lia. rewrite bool_decide_eq_true_2 by lia. lia.
Qed.

(** C8: on a well-formed board, from a cell of the board with a side
    that has no wall, [random_walk] returns.  The step count it walks with
    is the next element of the random source modulo [max_step + 1], a
    number of [0, max_step]; the walk makes exactly that many legal steps
    (no wall crossed, the opponent's cell not entered) unless it stops
    earlier in a cell that no legal step leaves, so the destination is
    within [max_step] legal steps of the start; and the direction returned
    has no wall at the destination.  From a cell walled on all four sides
    it raises [AssertionError].  The count is uniform over [0, max_step]
    in the sense the random source allows: it is [k] exactly when the next
    element of the source is [k] modulo [max_step + 1], and of any
    [m * (max_step + 1)] consecutive values of that element each count [k]
    of the range takes exactly [m]. *)
Theorem random_walk_returns_legal_move (w : World) (my_pos adv_pos : pos) :
  wf_boardb (board_size w) (chess_board w) = true →
  in_bounds (board_size w) my_pos →
  0 ≤ max_step w →
  ((∃ d, 0 ≤ d ≤ 3 ∧ arr_bits (chess_board w) my_pos.1 my_pos.2 d = false) →
   ∃ steps dest dir w',
     random_walk my_pos adv_pos w = (Ok (dest, dir), w') ∧
     steps = rand_src (rng w) (rand_ix (rng w)) `mod` (max_step w + 1) ∧
     (randint 0 (max_step w + 1) (rng w)).1 = Ok steps ∧
     0 ≤ steps ≤ max_step w ∧
     walk_of (board_size w) (chess_board w) adv_pos
       (Z.to_nat steps) my_pos dest ∧
     reachable_within (board_size w) (chess_board w) adv_pos
       (Z.to_nat steps) my_pos dest ∧
     reachable_within (board_size w) (chess_board w) adv_pos
       (Z.to_nat (max_step w)) my_pos dest ∧
     in_bounds (board_size w) dest ∧
     0 ≤ dir ≤ 3 ∧
     arr_get (chess_board w) dest.1 dest.2 dir = Ok false ∧
     chess_board w' = chess_board w) ∧
  ((∀ d, 0 ≤ d ≤ 3 → arr_bits (chess_board w) my_pos.1 my_pos.2 d = true) →
   (random_walk my_pos adv_pos w).1 = Raise AssertionError) ∧
  (∀ k g, 0 ≤ k ≤ max_step w →
     (randint 0 (max_step w + 1) g).1 = Ok k ↔
     rand_src g (rand_ix g) `mod` (max_step w + 1) = k) ∧
  (∀ k (m : nat), 0 ≤ k ≤ max_step w →
     length (filter (λ v, v `mod` (max_step w + 1) = k)
               (seqZ 0 (Z.of_nat m * (max_step w + 1)))) = m).
Proof.
  intros Hwfb Hp Hmax. apply wf_boardb_spec in Hwfb as Hwf.
  pose proof Hwf as (Hn & _).
  split; [|split; [|split]].
  - intros Hfree.
    unfold random_walk, on_rng, random_walk_on. st_unfold.
    destruct (randint_ok 0 (max_step w + 1) (rng w))
      as (steps & g1 & E1 & Hsteps & Hsrc); [lia|].
    rewrite E1. rewrite Z.sub_0_r, Z.add_0_l in Hsrc.
    destruct (walk_loop_spec (board_size w) (chess_board w) adv_pos
                (Z.to_nat steps) Hwf my_pos g1 Hp)
      as (q & g2 & E2 & Hreach & Hq & Hq_free).
    pose proof (walk_loop_walk_of _ _ _ _ Hwf my_pos g1 q g2 Hp E2) as Hwalk.
    rewrite E2. destruct q as [r c]. pose proof Hq as [Hr Hc]. simpl in Hr, Hc.
    destruct (allowed_barriers_spec (chess_board w) r c (seqZ 0 4))
      as (l & El & Hl); [lia | lia | intros d; apply elem_of_dirs |].
    rewrite El.
    assert (∃ d, 0 ≤ d ≤ 3 ∧ arr_bits (chess_board w) r c d = false)
      as (d0 & Hd0 & Hopen0).
    { destruct Hq_free as [<- | H]; [exact Hfree | exact H]. }
    assert (d0 ∈ l) as Hin by (apply Hl; split; [by apply elem_of_dirs | done]).
    destruct (bool_decide (1 ≤ length l)%nat) eqn:Elen.
    2:{ apply bool_decide_eq_false in Elen. destruct l; [|simpl in Elen; lia].
        by apply elem_of_nil in Hin. }
    destruct (rand_choice_ok l g2) as (dir & g3 & -> & Hdir).
    { intros ->. by apply elem_of_nil in Hin. }
    apply Hl in Hdir as [Hdir Hopen]. apply elem_of_dirs in Hdir.
    exists steps, (r, c), dir. eexists. split; [reflexivity|].
    split; [exact Hsrc|].
    split; [reflexivity|]. split; [lia|]. split; [exact Hwalk|].
    split; [exact Hreach|].
    split; [eapply bsteps_weaken; [|exact Hreach]; lia|].
    split; [exact Hq|]. split; [exact Hdir|]. split; [|reflexivity].
    simpl. rewrite arr_get_in by lia. by rewrite Hopen.
  - intros Hwalled. destruct my_pos as [r c]. destruct Hp as [Hr Hc].
    simpl in Hr, Hc, Hwalled.
    unfold random_walk, on_rng, random_walk_on. st_unfold.
    destruct (randint_ok 0 (max_step w + 1) (rng w)) as (steps & g1 & E1 & _);
      [lia|].
    rewrite E1.
    rewrite walk_loop_enclosed by (simpl; rewrite ?Hn; auto).
    cbv beta iota.
    destruct (allowed_barriers_spec (chess_board w) r c (seqZ 0 4))
      as (l & El & Hl); [lia | lia | intros d; apply elem_of_dirs |].
    rewrite El. destruct l as [|d l]; [reflexivity|].
    destruct (Hl d) as [[Hd Hopen] _]; [by left|].
    apply elem_of_dirs in Hd. rewrite Hwalled in Hopen by lia. discriminate.
  - intros k g Hk.
    destruct (randint_ok 0 (max_step w + 1) g) as (v & g' & E & _ & Hv); [lia|].
    rewrite E. simpl. rewrite Z.sub_0_r in Hv. split.
    + intros [= <-]. lia.
    + intros <-. f_equal. lia.
  - intros k m Hk. apply residue_shares. lia.
Qed.

Lemma random_walk_returns_legal_move_witness :
  ∃ dest dir,
    (random_walk (0, 0) (4, 4) example_wide).1 = Ok (dest, dir) ∧
    walk_of 5 (empty_board 5) (4, 4) 3 (0, 0) dest ∧
    dest ≠ (0, 0) ∧
    arr_get (empty_board 5) dest.1 dest.2 dir = Ok false.
Proof.
  destruct (random_walk_returns_legal_move example_wide (0, 0) (4, 4))
    as [H _].
  - reflexivity.
  - unfold in_bounds; simpl; lia.
  - apply Z.leb_le; reflexivity.
  - destruct H as (steps & dest & dir & w' & E & Hsteps & _ & _ & Hwalk & _ &
                   _ & _ & _ & Hopen & _).
    + exists 1. split; [lia | reflexivity].
    + vm_compute in Hsteps. subst steps.
      exists dest, dir. split; [exact (f_equal fst E)|].
      split; [exact Hwalk|]. split; [|exact Hopen].
      vm_compute in E. injection E as <- _ _. discriminate.
Defined.

(** ** The start positions *)

Lemma roll_start_spec fuel n board g a b e g' :
  roll_start fuel n board g = (Ok (a, b, e), g') →
  b = (n - 1 - a.1, n - 1 - a.2) ∧
  ∃ sa sb, check_endgame_on fuel n board a b = Ok (e, sa, sb).
Proof.
  unfold roll_start. st_unfold. intros H.
  destruct (randint 0 n g) as [[r|] g1]; [|discriminate].
  destruct (randint 0 n g1) as [[c|] g2]; [|discriminate].
  destruct (check_endgame_on fuel n board (r, c) (n - 1 - r, n - 1 - c))
    as [[[e' sa] sb]|] eqn:E; [|discriminate].
  injection H as <- <- <- <-. simpl. rewrite E. eauto.
Qed.

Lemma draw_start_spec rolls fuel n board g a b e g' :
  draw_start rolls fuel n board g = (Ok (a, b, e), g') →
  b = (n - 1 - a.1, n - 1 - a.2) ∧ a ≠ b ∧ e = false ∧
  ∃ sa sb, check_endgame_on fuel n board a b = Ok (false, sa, sb).
Proof.
  revert g. induction rolls as [|k IH]; intros g; [discriminate|].
  cbn [draw_start]. st_unfold.
  destruct (roll_start fuel n board g) as [[[[a1 b1] e1]|] g1] eqn:E;
    [|discriminate].
  apply roll_start_spec in E as (Hb & sa & sb & Hend).
  destruct (bool_decide (a1 = b1)) eqn:Eeq; simpl; [apply IH|].
  destruct e1; [apply IH|].
  intros [= <- <- <- <-]. apply bool_decide_eq_false in Eeq. eauto 10.
Qed.

(** C10: when the constructor returns, player 1 stands at the point
    mirror of player 0, (N - 1, N - 1) minus player 0's position; the two
    positions differ; and [check_endgame] on the returned world reports
    that the game has not ended.  Every roll of the positions, the first
    and each one of the loop, is symmetric in the same way. *)
Theorem World_init_start_symmetric :
  (∀ registry min_size max_size player_1 player_2 size want_autoplay fuel
     g w g',
     World_init registry min_size max_size player_1 player_2 size
       want_autoplay fuel g = (Ok w, g') →
     p1_pos w = (board_size w - 1 - (p0_pos w).1,
                 board_size w - 1 - (p0_pos w).2) ∧
     p0_pos w ≠ p1_pos w ∧
     ∃ score_a score_b, check_endgame fuel w = Ok (false, score_a, score_b)) ∧
  (∀ fuel n board g a b e g',
     roll_start fuel n board g = (Ok (a, b, e), g') →
     b = (n - 1 - a.1, n - 1 - a.2)).
Proof.
  split.
  - intros * H. unfold World_init in H. st_unfold.
    destruct (registry player_1) as [a0|]; [|discriminate].
    destruct (registry player_2) as [a1|]; [|discriminate].
    destruct (want_autoplay && _); [discriminate|].
    destruct (match size with Some n => _ | None => _ end) as [[n|] g1];
      [|discriminate].
    destruct (exec set_borders (zeros n)) as [board0|]; [|discriminate].
    destruct (place_barriers _ _ _ _ _) as [[board|] g2]; [|discriminate].
    destruct (draw_start fuel fuel n board g2) as [[[[a b] e]|] g3] eqn:E;
      [|discriminate].
    apply draw_start_spec in E as (Hb & Hne & -> & sa & sb & Hend).
    injection H as <- <-. simpl. unfold check_endgame. simpl. eauto.
  - intros * H. by apply roll_start_spec in H as [? _].
Qed.

Lemma World_init_start_symmetric_witness :
  ∃ w, (World_init example_registry 6 12 "a" "b" (Some 4) false 100
          example_rng).1 = Ok w ∧
       p0_pos w = (0, 3) ∧ p1_pos w = (3, 0) ∧
       p0_pos w ≠ p1_pos w.
Proof.
  destruct (World_init example_registry 6 12 "a" "b" (Some 4) false 100
              example_rng) as [[w|e] g'] eqn:E.
  - exists w. split; [reflexivity|].
    destruct World_init_start_symmetric as [H _].
    destruct (H _ _ _ _ _ _ _ _ _ _ _ E) as (_ & Hne & _).
    vm_compute in E. injection E as <- _.
    split; [reflexivity|]. split; [reflexivity|]. exact Hne.
  - vm_compute in E. discriminate E.
Defined.

(** ** Loops *)

Lemma for_each_app {S A} (l1 l2 : list A) (body : A → St S unit) (s : S) :
  for_each (l1 ++ l2) body s =
  match for_each l1 body s with
  | (Ok _, s') => for_each l2 body s'
  | (Raise e, s') => (Raise e, s')
  end.
Proof.
  revert s. induction l1 as [|x l1 IH]; intros s; [reflexivity|].
  simpl. st_unfold. destruct (body x s) as [[[]|e] s']; [apply IH | reflexivity].
Qed.

Lemma for_each_bind {S A B} (l : list A) (g : A → list B)
    (body : B → St S unit) (s : S) :
  for_each (l ≫= g) body s = for_each l (λ x, for_each (g x) body) s.
Proof.
  revert s. induction l as [|x l IH]; intros s; [reflexivity|].
  change ((x :: l) ≫= g) with (g x ++ (l ≫= g)).
  rewrite for_each_app. simpl. st_unfold.
  destruct (for_each (g x) body s) as [[[]|e] s']; [apply IH | reflexivity].
Qed.

Lemma for_each_ext {S A} (l : list A) (body body' : A → St S unit) (s : S) :
  (∀ x s, body x s = body' x s) → for_each l body s = for_each l body' s.
Proof.
  intros H. revert s. induction l as [|x l IH]; intros s; [reflexivity|].
  simpl. st_unfold. rewrite H.
  destruct (body' x s) as [[[]|e] s']; [apply IH | reflexivity].
Qed.

(** A loop whose body keeps an invariant indexed by the items done runs
    to its end and establishes the invariant for the whole list. *)
Lemma for_each_inv {S A} (I : list A → S → Prop) (l : list A)
    (body : A → St S unit) (s : S) :
  I [] s →
  (∀ done x rest s, l = done ++ x :: rest → I done s →
     ∃ s', body x s = (Ok tt, s') ∧ I (done ++ [x]) s') →
  ∃ s', for_each l body s = (Ok tt, s') ∧ I l s'.
Proof.
  intros H0 Hstep.
  assert (∀ rest done s, l = done ++ rest → I done s →
            ∃ s', for_each rest body s = (Ok tt, s') ∧ I l s') as Hgen.
  { induction rest as [|x rest IH]; intros done s0 Hl Hd.
    - exists s0. split; [reflexivity|]. by rewrite Hl, app_nil_r.
    - destruct (Hstep done x rest s0 Hl Hd) as (s1 & E1 & H1).
      destruct (IH (done ++ [x]) s1) as (s2 & E2 & H2); [|exact H1|].
      { by rewrite <- app_assoc. }
      exists s2. split; [|exact H2]. simpl. st_unfold. by rewrite E1. }
  by apply (Hgen l []).
Qed.

(** ** Roots *)

Lemma root_at_det (f : gmap pos pos) k k' x r r' :
  root_at f k x r → root_at f k' x r' → r = r' ∧ k = k'.
Proof.
  intros H. revert k' r'. induction H as [x Hx | k x y r Hx Hne H IH];
    intros k' r' H'; inversion H'; simplify_eq; try done.
  destruct (IH _ _ ltac:(eassumption)) as [-> ->]. done.
Qed.

Lemma root_at_is_root (f : gmap pos pos) k x r :
  root_at f k x r → f !! r = Some r.
Proof. induction 1; auto. Qed.

Lemma root_at_of_root (f : gmap pos pos) k r r' :
  f !! r = Some r → root_at f k r r' → r' = r ∧ k = 0%nat.
Proof.
  intros Hr H. destruct (root_at_det f k 0 r r' r H (root_at_O f r Hr)); auto.
Qed.

Lemma compressed_refl (f : gmap pos pos) : compressed f f.
Proof. intros y. by left. Qed.

(** Compression keeps every root and shortens no path. *)
Lemma compressed_root_at (f f' : gmap pos pos) k y r :
  compressed f f' → root_at f k y r →
  ∃ k', (k' ≤ k)%nat ∧ root_at f' k' y r.
Proof.
  intros Hc H. induction H as [x Hx | k x y r Hx Hne H IH].
  - exists 0%nat. split; [lia|]. apply root_at_O.
    destruct (Hc x) as [-> | (k & r & Hr & ->)]; [done|].
    by destruct (root_at_of_root f k x r Hx Hr) as [-> _].
  - destruct IH as (k' & Hk' & IH).
    destruct (Hc x) as [E | (k1 & r1 & Hr1 & E)].
    + exists (S k'). split; [lia|]. eapply root_at_S; [by rewrite E | done | done].
    + destruct (root_at_det f _ _ _ _ _ Hr1 (root_at_S f k x y r Hx Hne H))
        as [-> ->].
      assert (f' !! r = Some r) as Hroot.
      { pose proof (root_at_is_root _ _ _ _ IH). done. }
      exists 1%nat. split; [lia|].
      eapply root_at_S; [exact E | | by apply root_at_O].
      intros ->. pose proof (root_at_is_root _ _ _ _ H). congruence.
Qed.

Lemma compressed_trans (f1 f2 f3 : gmap pos pos) :
  (∀ y, is_Some (f1 !! y) → ∃ k r, root_at f1 k y r) →
  compressed f1 f2 → compressed f2 f3 → compressed f1 f3.
Proof.
  intros Htot H12 H23 y.
  destruct (H23 y) as [E | (k & r & Hr & E)].
  - rewrite E. apply H12.
  - right. destruct (H12 y) as [E2 | (k2 & r2 & Hr2 & E2)].
    + assert (is_Some (f1 !! y)) as Hy.
      { rewrite <- E2. inversion Hr; eauto. }
      destruct (Htot y Hy) as (k1 & r1 & Hr1).
      destruct (compressed_root_at f1 f2 _ _ _ H12 Hr1) as (k' & _ & Hr').
      destruct (root_at_det _ _ _ _ _ _ Hr Hr') as [-> _]. eauto.
    + destruct (compressed_root_at f1 f2 _ _ _ H12 Hr2) as (k' & _ & Hr').
      destruct (root_at_det _ _ _ _ _ _ Hr Hr') as [-> _]. eauto.
Qed.

Lemma find_unfold (fuel : nat) (p : pos) (f : gmap pos pos) :
  find (S fuel) p f =
  match f !! p with
  | None => (Raise KeyError, f)
  | Some q =>
      if bool_decide (q ≠ p) then
        match find fuel q f with
        | (Ok r, f') => (Ok r, <[p := r]> f')
        | (Raise e, f') => (Raise e, f')
        end
      else (Ok q, f)
  end.
Proof.
  cbn [find]. unfold father_get. st_unfold.
  destruct (f !! p) as [q|] eqn:E; [|reflexivity].
  destruct (bool_decide (q ≠ p)).
  - destruct (find fuel q f) as [[r|e] f']; [|reflexivity].
    by rewrite lookup_insert_eq.
  - by rewrite E.
Qed.

(** [find] returns the root, and leaves a compressed dictionary in which
    the cell points at its root. *)
Lemma find_spec (f : gmap pos pos) k x r (fuel : nat) :
  root_at f k x r → (k < fuel)%nat →
  ∃ f', find fuel x f = (Ok r, f') ∧ compressed f f' ∧
        f' !! x = Some r ∧ (∀ y, is_Some (f' !! y) ↔ is_Some (f !! y)).
Proof.
  intros H. revert fuel. induction H as [x Hx | k x y r Hx Hne H IH];
    intros fuel Hfuel; (destruct fuel as [|fuel]; [lia|]); rewrite find_unfold, Hx.
  - rewrite bool_decide_eq_false_2 by (intros ?; done).
    exists f. split; [done|]. split; [apply compressed_refl|]. done.
  - rewrite bool_decide_eq_true_2 by done.
    destruct (IH fuel ltac:(lia)) as (f' & -> & Hc & Hy & Hdom).
    exists (<[x := r]> f'). split; [done|]. split; [|split].
    + intros z. destruct (decide (z = x)) as [-> | Hz].
      * right. exists (S k), r. split; [by eapply root_at_S|].
        by rewrite lookup_insert_eq.
      * rewrite lookup_insert_ne by done. apply Hc.
    + by rewrite lookup_insert_eq.
    + intros z. destruct (decide (z = x)) as [-> | Hz].
      * rewrite lookup_insert_eq, Hx. split; eauto.
      * rewrite lookup_insert_ne by done. apply Hdom.
Qed.

Lemma for_each_singleton {S A} (x : A) (body : A → St S unit) (s : S) :
  for_each [x] body s = body x s.
Proof.
  simpl. st_unfold. by destruct (body x s) as [[[]|e] s'].
Qed.

(** The three pairs of nested loops, as single loops over the cells (and
    directions) in the order the nesting visits them. *)
Lemma for_each_cells {S} (n : Z) (body : pos → St S unit) (s : S) :
  for_each (range n) (λ r, for_each (range n) (λ c, body (r, c))) s =
  for_each (cells n) body s.
Proof.
  unfold cells. rewrite for_each_bind. apply for_each_ext. intros r s'.
  rewrite for_each_bind. apply for_each_ext. intros c s''.
  by rewrite for_each_singleton.
Qed.

Lemma init_father_flat (n : Z) (f : gmap pos pos) :
  init_father n f = for_each (cells n) (λ p, modify (<[p := p]>)) f.
Proof.
  unfold init_father.
  by rewrite <- (for_each_cells n (λ p, modify (<[p := p]>))).
Qed.

Lemma join_all_flat (fuel : nat) (n : Z) (board : ndarray) (f : gmap pos pos) :
  join_all fuel n board f =
  for_each (join_order n) (λ t, join_step fuel board t.1.1 t.1.2 t.2) f.
Proof.
  unfold join_all, join_order.
  rewrite for_each_bind. apply for_each_ext. intros r s'.
  rewrite for_each_bind. apply for_each_ext. intros c s''.
  rewrite for_each_bind. apply for_each_ext. intros dm s3.
  by rewrite for_each_singleton.
Qed.

Lemma compress_all_flat (fuel : nat) (n : Z) (f : gmap pos pos) :
  compress_all fuel n f =
  for_each (cells n) (λ p, find fuel p ;; ret tt) f.
Proof.
  unfold compress_all.
  by rewrite <- (for_each_cells n (λ p, find fuel p ;; ret tt)).
Qed.

(** After the first loops every cell is its own father and nothing else
    is a key. *)
Lemma init_father_spec (n : Z) :
  ∃ f, init_father n ∅ = (Ok tt, f) ∧
       (∀ x, in_bounds n x → f !! x = Some x) ∧
       (∀ x, is_Some (f !! x) → in_bounds n x).
Proof.
  destruct (for_each_inv
              (λ done (f : gmap pos pos),
                 (∀ x, x ∈ done → f !! x = Some x) ∧
                 (∀ x, is_Some (f !! x) → x ∈ done))
              (cells n) (λ p, modify (<[p := p]>)) ∅)
    as (f & E & H1 & H2).
  - split; [intros x Hx; by apply elem_of_nil in Hx|].
    intros x [y Hy]. by rewrite lookup_empty in Hy.
  - intros done p rest f _ [H1 H2]. eexists. split; [reflexivity|]. split.
    + intros x Hx. apply elem_of_app in Hx as [Hx | Hx].
      * destruct (decide (p = x)) as [-> | Hne];
          [by rewrite lookup_insert_eq | rewrite lookup_insert_ne by done; auto].
      * apply list_elem_of_singleton in Hx as ->. by rewrite lookup_insert_eq.
    + intros x Hx. apply elem_of_app.
      destruct (decide (p = x)) as [-> | Hne];
        [right; by apply list_elem_of_singleton|].
      rewrite lookup_insert_ne in Hx by done. left; auto.
  - exists f. rewrite init_father_flat. split; [exact E|]. split.
    + intros x Hx. apply H1. by apply elem_of_cells.
    + intros x Hx. apply elem_of_cells. auto.
Qed.

(** ** The invariant of the joining loop *)

Lemma rtsc_subrel {A} (R R' : relation A) (x y : A) :
  (∀ x y, R x y → rtsc R' x y) → rtsc R x y → rtsc R' x y.
Proof.
  intros Hsub H. unfold rtsc in H.
  induction H as [x | x y z Hxy _ IH]; [reflexivity|].
  etrans; [|exact IH].
  destruct Hxy as [Hxy | Hyx]; [by apply Hsub|].
  symmetry. by apply Hsub.
Qed.

Lemma uf_inv_initial (n : Z) (f : gmap pos pos) :
  (∀ x, in_bounds n x → f !! x = Some x) →
  (∀ x, is_Some (f !! x) → in_bounds n x) →
  uf_inv n (λ _ _, False) 0 f.
Proof.
  intros H1 H2. split; [|split; [exact H2|]].
  - intros x Hx. exists 0%nat, x. split; [apply root_at_O; auto|]. auto.
  - intros x y kx ky rx ry Hx Hy Rx Ry.
    destruct (root_at_of_root f kx x rx (H1 x Hx) Rx) as [-> _].
    destruct (root_at_of_root f ky y ry (H1 y Hy) Ry) as [-> _].
    split; [intros ->; reflexivity|].
    intros H. unfold rtsc in H. destruct H as [|x y z [[]|[]] _]. reflexivity.
Qed.

Lemma uf_inv_mono (n : Z) (E E' : relation pos) (bound bound' : nat)
    (f : gmap pos pos) :
  uf_inv n E bound f → (bound ≤ bound')%nat →
  (∀ x y, rtsc E x y ↔ rtsc E' x y) →
  uf_inv n E' bound' f.
Proof.
  intros (H1 & H2 & H3) Hb HE. split; [|split; [exact H2|]].
  - intros x Hx. destruct (H1 x Hx) as (k & r & Hr & Hk & Hin).
    exists k, r. split; [done|]. split; [lia | done].
  - intros x y kx ky rx ry Hx Hy Rx Ry. rewrite <- HE. eauto.
Qed.

Lemma uf_inv_compressed (n : Z) (E : relation pos) (bound : nat)
    (f f' : gmap pos pos) :
  uf_inv n E bound f → compressed f f' →
  (∀ y, is_Some (f' !! y) ↔ is_Some (f !! y)) →
  uf_inv n E bound f'.
Proof.
  intros (H1 & H2 & H3) Hc Hdom.
  assert (∀ x, in_bounds n x →
            ∃ k r, root_at f' k x r ∧ (k ≤ bound)%nat ∧ in_bounds n r ∧
                   ∃ k0, root_at f k0 x r) as H1'.
  { intros x Hx. destruct (H1 x Hx) as (k & r & Hr & Hk & Hin).
    destruct (compressed_root_at f f' k x r Hc Hr) as (k' & Hk' & Hr').
    exists k', r. split; [done|]. split; [lia|]. eauto. }
  split; [|split].
  - intros x Hx. destruct (H1' x Hx) as (k & r & Hr & Hk & Hin & _). eauto.
  - intros x Hx. apply H2, Hdom, Hx.
  - intros x y kx ky rx ry Hx Hy Rx Ry.
    destruct (H1' x Hx) as (kx' & rx' & Rx' & _ & _ & kx0 & Rx0).
    destruct (H1' y Hy) as (ky' & ry' & Ry' & _ & _ & ky0 & Ry0).
    destruct (root_at_det _ _ _ _ _ _ Rx Rx') as [-> _].
    destruct (root_at_det _ _ _ _ _ _ Ry Ry') as [-> _].
    eauto.
Qed.

(** Pointing the root [a] at the root [b] sends the cells under [a] to
    [b], one link further away, and leaves all others alone. *)
Lemma root_at_union (f : gmap pos pos) (a b : pos) k x r :
  f !! a = Some a → f !! b = Some b → a ≠ b →
  root_at f k x r →
  ∃ k', (k' ≤ S k)%nat ∧
        root_at (<[a := b]> f) k' x (if decide (r = a) then b else r).
Proof.
  intros Ha Hb Hab H. induction H as [x Hx | k x y r Hx Hne H IH].
  - destruct (decide (x = a)) as [-> | Hxa].
    + exists 1%nat. split; [lia|].
      eapply root_at_S; [apply lookup_insert_eq | done |].
      apply root_at_O. by rewrite lookup_insert_ne.
    + exists 0%nat. split; [lia|].
      apply root_at_O. by rewrite lookup_insert_ne.
  - destruct IH as (k' & Hk' & IH).
    exists (S k'). split; [lia|].
    eapply root_at_S; [|exact Hne | exact IH].
    rewrite lookup_insert_ne; [done|]. intros <-. congruence.
Qed.

Lemma uf_inv_union (n : Z) (E E' : relation pos) (bound : nat)
    (f : gmap pos pos) (u v a b : pos) ku kv :
  uf_inv n E bound f →
  in_bounds n u → in_bounds n v →
  root_at f ku u a → root_at f kv v b → a ≠ b →
  (∀ x y, E' x y ↔ E x y ∨ (x = u ∧ y = v)) →
  (∀ x y, E x y → in_bounds n x ∧ in_bounds n y) →
  uf_inv n E' (S bound) (<[a := b]> f).
Proof.
  intros (H1 & H2 & H3) Hu Hv Ru Rv Hab HE' Hends.
  pose proof (root_at_is_root _ _ _ _ Ru) as Ha.
  pose proof (root_at_is_root _ _ _ _ Rv) as Hb.
  assert (in_bounds n b) as Hbin by (apply H2; eauto).
  (* the root of every cell after the union *)
  assert (∀ x, in_bounds n x →
            ∃ k0 r0 k', root_at f k0 x r0 ∧ (k' ≤ S bound)%nat ∧
              root_at (<[a := b]> f) k' x (if decide (r0 = a) then b else r0) ∧
              in_bounds n (if decide (r0 = a) then b else r0)) as Hnew.
  { intros x Hx. destruct (H1 x Hx) as (k0 & r0 & R0 & Hk0 & Hin0).
    destruct (root_at_union f a b k0 x r0 Ha Hb Hab R0) as (k' & Hk' & R').
    exists k0, r0, k'. split; [done|]. split; [lia|]. split; [done|].
    by destruct (decide (r0 = a)). }
  assert (∀ x y, E x y → rtsc E' x y) as Hsub.
  { intros x y Hxy. apply rtsc_lr, HE'. by left. }
  split; [|split].
  - intros x Hx. destruct (Hnew x Hx) as (k0 & r0 & k' & _ & Hk' & R' & Hin).
    eauto.
  - intros x [y Hy]. destruct (decide (a = x)) as [<- | Hne].
    + apply H2. eauto.
    + rewrite lookup_insert_ne in Hy by done. apply H2. eauto.
  - intros x y kx ky rx ry Hx Hy Rx Ry.
    destruct (Hnew x Hx) as (kx0 & rx0 & kx' & Rx0 & _ & Rx' & _).
    destruct (Hnew y Hy) as (ky0 & ry0 & ky' & Ry0 & _ & Ry' & _).
    destruct (root_at_det _ _ _ _ _ _ Rx Rx') as [-> _].
    destruct (root_at_det _ _ _ _ _ _ Ry Ry') as [-> _].
    clear Rx Ry Rx' Ry' kx ky kx' ky'.
    split.
    + intros Heq.
      assert (rtsc E' u v) as Huv by (apply rtsc_lr, HE'; by right).
      destruct (decide (rx0 = a)) as [-> | Hxa];
        destruct (decide (ry0 = a)) as [-> | Hya].
      * apply (rtsc_subrel E E'); [exact Hsub|].
        by apply (H3 x y kx0 ky0 a a).
      * subst ry0.
        etrans; [apply (rtsc_subrel E E'); [exact Hsub|];
                 by apply (H3 x u kx0 ku a a)|].
        etrans; [exact Huv|].
        apply (rtsc_subrel E E'); [exact Hsub|].
        by apply (H3 v y kv ky0 b b).
      * subst rx0.
        etrans; [apply (rtsc_subrel E E'); [exact Hsub|];
                 by apply (H3 x v kx0 kv b b)|].
        etrans; [symmetry; exact Huv|].
        apply (rtsc_subrel E E'); [exact Hsub|].
        by apply (H3 u y ku ky0 a a).
      * apply (rtsc_subrel E E'); [exact Hsub|].
        by apply (H3 x y kx0 ky0 rx0 ry0).
    + intros Hconn. revert kx0 rx0 Rx0 Hx ky0 ry0 Ry0 Hy. unfold rtsc in Hconn.
      induction Hconn as [x | x z y Hxz _ IH];
        intros kx0 rx0 Rx0 Hx ky0 ry0 Ry0 Hy.
      * by destruct (root_at_det _ _ _ _ _ _ Rx0 Ry0) as [-> _].
      * assert (in_bounds n z ∧
                ∀ kz rz, root_at f kz z rz →
                  (if decide (rx0 = a) then b else rx0) =
                  (if decide (rz = a) then b else rz)) as [Hz Hstep].
        { destruct Hxz as [Hxz | Hzx].
          - apply HE' in Hxz as [Hxz | [-> ->]].
            + destruct (Hends _ _ Hxz) as [_ Hz]. split; [done|].
              intros kz rz Rz.
              assert (rx0 = rz) as ->; [|done].
              apply (H3 x z kx0 kz); auto. by apply rtsc_lr.
            + split; [done|]. intros kz rz Rz.
              destruct (root_at_det _ _ _ _ _ _ Rx0 Ru) as [-> _].
              destruct (root_at_det _ _ _ _ _ _ Rz Rv) as [-> _].
              rewrite decide_True by done. by rewrite decide_False.
          - apply HE' in Hzx as [Hzx | [-> ->]].
            + destruct (Hends _ _ Hzx) as [Hz _]. split; [done|].
              intros kz rz Rz.
              assert (rx0 = rz) as ->; [|done].
              apply (H3 x z kx0 kz); auto. by apply rtsc_rl.
            + split; [done|]. intros kz rz Rz.
              destruct (root_at_det _ _ _ _ _ _ Rx0 Rv) as [-> _].
              destruct (root_at_det _ _ _ _ _ _ Rz Ru) as [-> _].
              destruct (decide (b = a)); destruct (decide (a = a)); congruence. }
        destruct (H1 z Hz) as (kz & rz & Rz & _ & _).
        rewrite (Hstep kz rz Rz). by apply (IH kz rz Rz Hz ky0 ry0).
Qed.

Lemma elem_of_join_order (n : Z) (t : Z * Z * (Z * pos)) :
  t ∈ join_order n ↔
  in_bounds n (t.1.1, t.1.2) ∧ (t.2 = (0, (0, 1)) ∨ t.2 = (1, (1, 0))).
Proof.
  unfold join_order. rewrite list_elem_of_bind. split.
  - intros (r & Ht & Hr). apply list_elem_of_bind in Ht as (c & Ht & Hc).
    apply list_elem_of_bind in Ht as (dm & Ht & Hdm).
    apply list_elem_of_singleton in Ht as ->.
    apply elem_of_range in Hr, Hc. split; [split; simpl; lia|].
    simpl. change (enumerate (take 2 (drop 1 moves_tuple)))
      with [(0, (0, 1)); (1, (1, 0))] in Hdm.
    apply elem_of_cons in Hdm as [-> | Hdm]; [by left|].
    apply list_elem_of_singleton in Hdm as ->. by right.
  - destruct t as [[r c] dm]. simpl. intros [[Hr Hc] Hdm]. simpl in Hr, Hc.
    exists r. split; [|by apply elem_of_range].
    apply list_elem_of_bind. exists c. split; [|by apply elem_of_range].
    change ((r, c, dm) ∈ [(r, c, (0, (0, 1))); (r, c, (1, (1, 0)))]).
    destruct Hdm as [-> | ->]; [by left | right; by left].
Qed.

Lemma edges_snoc (n : Z) (b : ndarray) (D : list (Z * Z * Z)) t x y :
  edges n b (D ++ [t]) x y ↔ edges n b D x y ∨ edge_of n b t x y.
Proof.
  unfold edges. split.
  - intros (t' & Ht' & He). apply elem_of_app in Ht' as [Ht' | Ht'].
    + left. eauto.
    + apply list_elem_of_singleton in Ht' as ->. by right.
  - intros [(t' & Ht' & He) | He].
    + exists t'. split; [apply elem_of_app; by left | done].
    + exists t. split; [apply elem_of_app; right; by apply list_elem_of_singleton | done].
Qed.

Lemma edges_in_bounds (n : Z) (b : ndarray) (D : list (Z * Z * Z)) x y :
  edges n b D x y → in_bounds n x ∧ in_bounds n y.
Proof. intros (t & _ & _ & _ & Hx & Hy & _). done. Qed.

(** One pass of the innermost loop body keeps the invariant, with the
    edge it examined added. *)
Lemma join_step_inv (fuel : nat) (n : Z) (b : ndarray)
    (D : list (Z * Z * Z)) (bound : nat) (f : gmap pos pos)
    (t : Z * Z * (Z * pos)) :
  wf_board n b → (bound < fuel)%nat →
  t ∈ join_order n →
  uf_inv n (edges n b D) bound f →
  ∃ f', join_step fuel b t.1.1 t.1.2 t.2 f = (Ok tt, f') ∧
        uf_inv n (edges n b (D ++ [triple_of t])) (S bound) f'.
Proof.
  intros Hwf Hfuel Ht Hinv. pose proof Hwf as (Hn & _).
  apply elem_of_join_order in Ht as [Hu Hdm].
  destruct t as [[r c] [d move]]. simpl in Hu, Hdm.
  unfold triple_of. simpl.
  assert (0 ≤ d + 1 ≤ 3 ∧ move = move_of (d + 1)) as [Hd ->].
  { destruct Hdm as [[= -> ->] | [= -> ->]]; split; (lia || reflexivity). }
  pose proof Hu as [Hr Hc]. simpl in Hr, Hc.
  unfold join_step. st_unfold. rewrite arr_get_in by lia.
  destruct (arr_bits b r c (d + 1)) eqn:Ebit.
  - (* a wall: nothing to join *)
    exists f. split; [reflexivity|].
    eapply uf_inv_mono; [exact Hinv | lia |].
    intros x y. split; apply rtsc_subrel; intros x' y' H; apply rtsc_lr.
    + apply edges_snoc. by left.
    + apply edges_snoc in H as [H | (-> & _ & _ & _ & H)]; [done|].
      simpl in H. congruence.
  - change (r + (move_of (d + 1)).1, c + (move_of (d + 1)).2)
      with (neighbor (r, c) (d + 1)).
    destruct (open_edge_inside n b (r, c) (d + 1) Hwf Hu Hd Ebit) as [Hv _].
    set (u := (r, c)) in *. set (v := neighbor u (d + 1)) in *.
    destruct Hinv as (H1 & H2 & H3).
    destruct (H1 u Hu) as (ku & a & Ru & Hku & Ha).
    destruct (find_spec f ku u a fuel Ru ltac:(lia)) as (f1 & -> & Hc1 & _ & Hdom1).
    pose proof (uf_inv_compressed n _ bound f f1 (conj H1 (conj H2 H3)) Hc1 Hdom1)
      as Hinv1.
    destruct Hinv1 as (H1' & H2' & H3').
    destruct (H1' v Hv) as (kv & b0 & Rv & Hkv & Hb0).
    destruct (find_spec f1 kv v b0 fuel Rv ltac:(lia)) as (f2 & -> & Hc2 & _ & Hdom2).
    pose proof (uf_inv_compressed n _ bound f1 f2 (conj H1' (conj H2' H3')) Hc2 Hdom2)
      as Hinv2.
    destruct (compressed_root_at f f1 ku u a Hc1 Ru) as (ku1 & _ & Ru1).
    destruct (compressed_root_at f1 f2 ku1 u a Hc2 Ru1) as (ku2 & _ & Ru2).
    destruct (compressed_root_at f1 f2 kv v b0 Hc2 Rv) as (kv2 & _ & Rv2).
    assert (∀ x y, edges n b (D ++ [(r, c, d + 1)]) x y ↔
                   edges n b D x y ∨ (x = u ∧ y = v)) as HE'.
    { intros x y. rewrite edges_snoc. unfold edge_of. simpl. fold u.
      split; intros [H | H]; auto.
      - right. destruct H as (-> & -> & _). done.
      - right. destruct H as [-> ->]. done. }
    destruct (bool_decide (a ≠ b0)) eqn:Eab.
    + apply bool_decide_eq_true in Eab.
      exists (<[a := b0]> f2). split; [reflexivity|].
      eapply (uf_inv_union n (edges n b D) _ bound f2 u v a b0);
        eauto using edges_in_bounds.
    + apply bool_decide_eq_false in Eab.
      assert (a = b0) as <- by (destruct (decide (a = b0)); [done | by exfalso; apply Eab]).
      exists f2. split; [reflexivity|].
      eapply uf_inv_mono; [exact Hinv2 | lia |].
      destruct Hinv2 as (_ & _ & H3'').
      assert (rtsc (edges n b D) u v) as Huv by (by apply (H3'' u v ku2 kv2 a a)).
      intros x y. split; apply rtsc_subrel; intros x' y' H.
      * apply rtsc_lr, HE'. by left.
      * apply HE' in H as [H | [-> ->]]; [by apply rtsc_lr | done].
Qed.

Lemma length_bind_const {A B} (l : list A) (g : A → list B) (k : nat) :
  (∀ x, length (g x) = k) → length (l ≫= g) = (length l * k)%nat.
Proof.
  intros Hg. induction l as [|x l IH]; [reflexivity|].
  change ((x :: l) ≫= g) with (g x ++ (l ≫= g)).
  rewrite length_app, Hg, IH. simpl. lia.
Qed.

Lemma length_join_order (n : Z) :
  0 ≤ n → Z.of_nat (length (join_order n)) = 2 * n * n.
Proof.
  intros Hn. unfold join_order.
  rewrite (length_bind_const _ _ (Z.to_nat n * 2)).
  - unfold range. rewrite length_seqZ. lia.
  - intros r. rewrite (length_bind_const _ _ 2).
    + unfold range. by rewrite length_seqZ.
    + intros c. reflexivity.
Qed.

Lemma join_all_spec (fuel : nat) (n : Z) (b : ndarray) (f0 : gmap pos pos) :
  wf_board n b → (length (join_order n) < fuel)%nat →
  uf_inv n (λ _ _, False) 0 f0 →
  ∃ f, join_all fuel n b f0 = (Ok tt, f) ∧
       uf_inv n (edges n b (triple_of <$> join_order n))
         (length (join_order n)) f.
Proof.
  intros Hwf Hfuel H0.
  destruct (for_each_inv
              (λ done f, uf_inv n (edges n b (triple_of <$> done)) (length done) f)
              (join_order n)
              (λ t, join_step fuel b t.1.1 t.1.2 t.2) f0) as (f & E & Hf).
  - eapply uf_inv_mono; [exact H0 | done |].
    intros x y. split; apply rtsc_subrel; intros x' y' H; [done|].
    destruct H as (t & Ht & _). by apply elem_of_nil in Ht.
  - intros done t rest f Hl Hinv.
    assert (t ∈ join_order n) as Ht.
    { rewrite Hl. apply elem_of_app. right. by left. }
    assert (length done < fuel)%nat as Hlen.
    { rewrite Hl, length_app in Hfuel. simpl in Hfuel. lia. }
    destruct (join_step_inv fuel n b _ _ f t Hwf Hlen Ht Hinv) as (f' & E' & H').
    exists f'. split; [exact E'|].
    rewrite fmap_app, length_app. simpl.
    replace (length done + 1)%nat with (S (length done)) by lia. exact H'.
  - exists f. by rewrite join_all_flat.
Qed.

(** The edges the loop examines, right and down from every cell, connect
    the same cells as all open adjacencies do. *)
Lemma edges_connected (n : Z) (b : ndarray) (x y : pos) :
  wf_board n b →
  rtsc (edges n b (triple_of <$> join_order n)) x y ↔ connected n b x y.
Proof.
  intros Hwf. pose proof Hwf as (Hn & _). unfold connected.
  split; apply rtsc_subrel; clear x y; intros x y H.
  - destruct H as (t & Ht & -> & -> & Hx & Hy & Hopen).
    apply list_elem_of_fmap in Ht as (t0 & -> & Ht0).
    apply elem_of_join_order in Ht0 as [_ Hdm].
    unfold triple_of in *. simpl in *.
    apply rtsc_lr. split; [done|]. split; [done|].
    exists (t0.2.1 + 1). split; [destruct Hdm as [-> | ->]; simpl; lia|].
    split; [|done]. simpl. destruct Hx as [Hr Hc]. simpl in Hr, Hc.
    rewrite arr_get_in; [by rewrite Hopen | lia | lia |].
    destruct Hdm as [-> | ->]; simpl; lia.
  - destruct H as (Hx & Hy & dir & Hd & Hopen & ->).
    pose proof Hx as [Hr Hc].
    rewrite arr_get_in in Hopen by lia. injection Hopen as Hopen.
    assert (∀ p d, in_bounds n p → in_bounds n (neighbor p d) →
              (d = 1 ∨ d = 2) → arr_bits b p.1 p.2 d = false →
              edges n b (triple_of <$> join_order n) p (neighbor p d)) as Hedge.
    { intros p d Hp Hq Hd' Hop.
      exists (p.1, p.2, d). split.
      - apply list_elem_of_fmap. exists (p.1, p.2, (d - 1, move_of d)). split.
        + unfold triple_of. simpl. f_equal. lia.
        + apply elem_of_join_order. simpl. split; [done|].
          destruct Hd' as [-> | ->]; [by left | by right].
      - split; [by destruct p|]. done. }
    assert (dir = 0 ∨ dir = 1 ∨ dir = 2 ∨ dir = 3) as Hcases by lia.
    destruct (open_edge_inside n b x dir Hwf Hx Hd Hopen) as [_ Hback].
    destruct Hcases as [-> | [-> | [-> | ->]]].
    + apply rtsc_rl. rewrite <- (neighbor_back x 0) at 2 by lia.
      apply Hedge; [done | by rewrite neighbor_back | by right | done].
    + apply rtsc_lr. apply Hedge; auto.
    + apply rtsc_lr. apply Hedge; auto.
    + apply rtsc_rl. rewrite <- (neighbor_back x 3) at 2 by lia.
      apply Hedge; [done | by rewrite neighbor_back | by left | done].
Qed.

Lemma flat_at_compressed (f f' : gmap pos pos) (x : pos) :
  compressed f f' → flat_at f x → flat_at f' x.
Proof.
  intros Hc (r & Hx & Hr).
  assert (∃ k, (k ≤ 1)%nat ∧ root_at f k x r) as (k & Hk & R).
  { destruct (decide (r = x)) as [-> | Hne].
    - exists 0%nat. split; [lia|]. by apply root_at_O.
    - exists 1%nat. split; [lia|]. eapply root_at_S; [done | done |].
      by apply root_at_O. }
  destruct (compressed_root_at f f' k x r Hc R) as (k' & Hk' & R').
  exists r. inversion R' as [? Hx' | k0 ? y ? Hx' Hne R0]; subst.
  - done.
  - assert (k0 = 0%nat) as -> by lia. inversion R0; subst. done.
Qed.

Lemma compress_all_spec (fuel : nat) (n : Z) (E : relation pos)
    (bound : nat) (f : gmap pos pos) :
  (bound < fuel)%nat → uf_inv n E bound f →
  ∃ f', compress_all fuel n f = (Ok tt, f') ∧
        uf_inv n E bound f' ∧ ∀ x, in_bounds n x → flat_at f' x.
Proof.
  intros Hfuel Hinv.
  destruct (for_each_inv
              (λ done f, uf_inv n E bound f ∧ ∀ x, x ∈ done → flat_at f x)
              (cells n) (λ p, find fuel p ;; ret tt) f) as (f' & E' & Hf & Hflat).
  - split; [done|]. intros x Hx. by apply elem_of_nil in Hx.
  - intros done p rest f0 Hl [Hinv0 Hflat0].
    assert (in_bounds n p) as Hp.
    { apply elem_of_cells. rewrite Hl. apply elem_of_app. right. by left. }
    pose proof Hinv0 as (H1 & _).
    destruct (H1 p Hp) as (k & r & R & Hk & _).
    destruct (find_spec f0 k p r fuel R ltac:(lia)) as (f1 & Ef & Hc & Hpr & Hdom).
    exists f1. st_unfold. rewrite Ef. split; [reflexivity|]. split.
    + by eapply uf_inv_compressed.
    + intros x Hx. apply elem_of_app in Hx as [Hx | Hx].
      * eapply flat_at_compressed; eauto.
      * apply list_elem_of_singleton in Hx as ->. exists r. split; [done|].
        destruct (compressed_root_at f0 f1 0 r r Hc) as (k' & Hk' & R').
        { apply root_at_O. by eapply root_at_is_root. }
        by eapply root_at_is_root.
  - exists f'. rewrite compress_all_flat. split; [done|]. split; [done|].
    intros x Hx. by apply Hflat, elem_of_cells.
Qed.

(** ** Scores *)

Lemma count_fmap_snd (r : pos) (l : list (pos * pos)) :
  length (filter (λ y, y = r) (l.*2)) =
  length (filter (λ kv : pos * pos, kv.2 = r) l).
Proof.
  induction l as [|[k v] l IH]; [reflexivity|].
  rewrite fmap_cons, !filter_cons. simpl.
  destruct (decide (v = r)); simpl; by rewrite IH.
Qed.

(** [values.count(r)] is the number of keys whose value is [r]. *)
Lemma count_values (f : gmap pos pos) (r : pos) :
  count r (map_to_list f).*2 =
  Z.of_nat (size (dom (filter (λ kv : pos * pos, kv.2 = r) f))).
Proof.
  unfold count. f_equal. rewrite count_fmap_snd, size_dom, <- length_map_to_list.
  apply Permutation_length. apply NoDup_Permutation.
  - apply NoDup_filter, NoDup_map_to_list.
  - apply NoDup_map_to_list.
  - intros [i x]. rewrite list_elem_of_filter, !elem_of_map_to_list.
    rewrite map_lookup_filter_Some. tauto.
Qed.

(** What [check_endgame] computes on a well-formed board, given fuel for
    the recursion of [find]. *)
Lemma check_endgame_on_spec (fuel : nat) (n : Z) (b : ndarray) (a0 a1 : pos) :
  wf_board n b → in_bounds n a0 → in_bounds n a1 →
  2 * n * n < Z.of_nat fuel →
  ∃ (ended : bool) (s0 s1 : gset pos),
    check_endgame_on fuel n b a0 a1 =
      Ok (ended, Z.of_nat (size s0), Z.of_nat (size s1)) ∧
    (ended = true ↔ ¬ connected n b a0 a1) ∧
    (ended = false ↔ connected n b a0 a1) ∧
    is_partition_of n b a0 s0 ∧ is_partition_of n b a1 s1.
Proof.
  intros Hwf Ha0 Ha1 Hfuel. pose proof Hwf as (Hn & Hpos & _).
  assert (length (join_order n) < fuel)%nat as Hfuel'.
  { pose proof (length_join_order n ltac:(lia)). lia. }
  unfold check_endgame_on, check_endgame_st. st_unfold.
  destruct (init_father_spec n) as (f0 & -> & Hf0 & Hf0').
  destruct (join_all_spec fuel n b f0 Hwf Hfuel' (uf_inv_initial n f0 Hf0 Hf0'))
    as (f1 & -> & Hinv1).
  destruct (compress_all_spec fuel n _ _ f1 Hfuel' Hinv1) as (f2 & -> & Hinv2 & Hflat2).
  pose proof Hinv2 as (H1 & _).
  destruct (H1 a0 Ha0) as (k0 & r0 & R0 & Hk0 & _).
  destruct (find_spec f2 k0 a0 r0 fuel R0 ltac:(lia)) as (f3 & -> & Hc3 & _ & Hdom3).
  pose proof (uf_inv_compressed n _ _ f2 f3 Hinv2 Hc3 Hdom3) as Hinv3.
  pose proof Hinv3 as (H1' & _).
  destruct (H1' a1 Ha1) as (k1 & r1 & R1 & Hk1 & _).
  destruct (find_spec f3 k1 a1 r1 fuel R1 ltac:(lia)) as (f4 & -> & Hc4 & _ & Hdom4).
  pose proof (uf_inv_compressed n _ _ f3 f4 Hinv3 Hc4 Hdom4) as (G1 & G2 & G3).
  destruct (compressed_root_at f2 f3 k0 a0 r0 Hc3 R0) as (k0' & _ & R0').
  destruct (compressed_root_at f3 f4 k0' a0 r0 Hc4 R0') as (k0'' & _ & R0'').
  destruct (compressed_root_at f3 f4 k1 a1 r1 Hc4 R1) as (k1' & _ & R1').
  assert (∀ x, in_bounds n x → flat_at f4 x) as Hflat4.
  { intros x Hx. eapply flat_at_compressed; [exact Hc4|].
    eapply flat_at_compressed; [exact Hc3|]. by apply Hflat2. }
  (* the keys whose value is the root of [a] are the partition of [a] *)
  assert (∀ a k r, in_bounds n a → root_at f4 k a r →
            is_partition_of n b a
              (dom (filter (λ kv : pos * pos, kv.2 = r) f4))) as Hpart.
  { intros a k r Ha Ra x. rewrite elem_of_dom.
    unfold is_Some. setoid_rewrite map_lookup_filter_Some. simpl. split.
    - intros (v & Hv & ->).
      assert (in_bounds n x) as Hx by (apply G2; eauto).
      split; [done|]. apply edges_connected; [done|].
      destruct (Hflat4 x Hx) as (rx & Hxr & Hrr).
      assert (rx = r) as -> by congruence.
      assert (∃ kx, root_at f4 kx x r) as [kx Rx].
      { destruct (decide (r = x)) as [-> | Hne].
        - exists 0%nat. by apply root_at_O.
        - exists 1%nat. eapply root_at_S; [done | done | by apply root_at_O]. }
      by apply (G3 a x k kx r r).
    - intros [Hx Hconn]. apply edges_connected in Hconn; [|done].
      destruct (Hflat4 x Hx) as (rx & Hxr & Hrr).
      assert (∃ kx, root_at f4 kx x rx) as [kx Rx].
      { destruct (decide (rx = x)) as [-> | Hne].
        - exists 0%nat. by apply root_at_O.
        - exists 1%nat. eapply root_at_S; [done | done | by apply root_at_O]. }
      exists rx. split; [done|]. symmetry. by apply (G3 a x k kx r rx). }
  assert (r0 = r1 ↔ connected n b a0 a1) as Hiff.
  { rewrite <- edges_connected by done. by apply (G3 a0 a1 k0'' k1'). }
  exists (negb (bool_decide (r0 = r1))),
         (dom (filter (λ kv : pos * pos, kv.2 = r0) f4)),
         (dom (filter (λ kv : pos * pos, kv.2 = r1) f4)).
  split; [|split; [|split; [|split; [by eapply Hpart | by eapply Hpart]]]].
  - rewrite !count_values. by destruct (bool_decide (r0 = r1)).
  - rewrite negb_true_iff, bool_decide_eq_false. by rewrite Hiff.
  - rewrite negb_false_iff, bool_decide_eq_true. exact Hiff.
Qed.

Lemma NoDup_cells (n : Z) : NoDup (cells n).
Proof.
  unfold cells. apply NoDup_bind.
  - intros r1 r2 p _ _ H1 H2.
    apply list_elem_of_bind in H1 as (c1 & H1 & _).
    apply list_elem_of_bind in H2 as (c2 & H2 & _).
    apply list_elem_of_singleton in H1, H2. congruence.
  - intros r _. apply NoDup_bind.
    + intros c1 c2 p _ _ H1 H2.
      apply list_elem_of_singleton in H1, H2. congruence.
    + intros c _. apply NoDup_singleton.
    + apply NoDup_seqZ.
  - apply NoDup_seqZ.
Qed.

Lemma length_cells (n : Z) : 0 ≤ n → Z.of_nat (length (cells n)) = n * n.
Proof.
  intros Hn. unfold cells. rewrite (length_bind_const _ _ (Z.to_nat n)).
  - unfold range. rewrite length_seqZ. lia.
  - intros r. rewrite (length_bind_const _ _ 1); [|done].
    unfold range. rewrite length_seqZ. lia.
Qed.

(** C3: on a well-formed board with both players on it, and fuel for
    the recursion of [find], [check_endgame] returns; [ended] is true
    exactly when no chain of open edges joins the two players' cells; each
    score is the number of cells of the partition of the player's cell,
    whether the game has ended or not; and when it has not ended the two
    partitions, hence the two scores, are the same. *)
Theorem check_endgame_decides_connectivity (fuel : nat) (w : World) :
  wf_boardb (board_size w) (chess_board w) = true →
  in_bounds (board_size w) (p0_pos w) →
  in_bounds (board_size w) (p1_pos w) →
  2 * board_size w * board_size w < Z.of_nat fuel →
  ∃ (ended : bool) (score_a score_b : Z) (s0 s1 : gset pos),
    check_endgame fuel w = Ok (ended, score_a, score_b) ∧
    (ended = true ↔
     ¬ connected (board_size w) (chess_board w) (p0_pos w) (p1_pos w)) ∧
    is_partition_of (board_size w) (chess_board w) (p0_pos w) s0 ∧
    is_partition_of (board_size w) (chess_board w) (p1_pos w) s1 ∧
    score_a = Z.of_nat (size s0) ∧
    score_b = Z.of_nat (size s1) ∧
    (ended = false → s0 = s1 ∧ score_a = score_b).
Proof.
  intros Hwfb H0 H1 Hfuel. apply wf_boardb_spec in Hwfb as Hwf.
  destruct (check_endgame_on_spec fuel _ _ _ _ Hwf H0 H1 Hfuel)
    as (ended & s0 & s1 & E & Hended & Hnot & Hs0 & Hs1).
  exists ended, (Z.of_nat (size s0)), (Z.of_nat (size s1)), s0, s1.
  split; [exact E|]. split; [exact Hended|]. split; [exact Hs0|].
  split; [exact Hs1|]. split; [reflexivity|]. split; [reflexivity|].
  intros Hfalse. apply Hnot in Hfalse.
  assert (s0 = s1) as ->; [|done].
  apply set_eq. intros x. rewrite (Hs0 x), (Hs1 x).
  unfold connected in *. split; intros [Hx Hc]; (split; [done|]).
  - etrans; [symmetry; exact Hfalse | exact Hc].
  - etrans; [exact Hfalse | exact Hc].
Qed.

Lemma check_endgame_decides_connectivity_witness :
  ∃ (ended : bool) (score_a score_b : Z),
    check_endgame 100
      (example_world 3 (board_with 3 [(0, 0, 1); (0, 0, 2)]) (0, 0) (2, 2) 0)
      = Ok (ended, score_a, score_b) ∧
    (ended = true ↔
     ¬ connected 3 (board_with 3 [(0, 0, 1); (0, 0, 2)]) (0, 0) (2, 2)).
Proof.
  destruct (check_endgame_decides_connectivity 100
              (example_world 3 (board_with 3 [(0, 0, 1); (0, 0, 2)])
                 (0, 0) (2, 2) 0))
    as (ended & score_a & score_b & s0 & s1 & E & H & _).
  - reflexivity.
  - unfold in_bounds; simpl; lia.
  - unfold in_bounds; simpl; lia.
  - simpl; lia.
  - exists ended, score_a, score_b. split; [exact E | exact H].
Defined.

(** C6, as the code has it: when [check_endgame] reports the end of the
    game, each score is the number of cells of the player's partition, the
    two partitions are disjoint, and the scores sum to at most N², with
    equality exactly when every cell of the board lies in one of the two
    players' partitions. *)
Theorem check_endgame_scores_when_ended (fuel : nat) (w : World) :
  wf_boardb (board_size w) (chess_board w) = true →
  in_bounds (board_size w) (p0_pos w) →
  in_bounds (board_size w) (p1_pos w) →
  2 * board_size w * board_size w < Z.of_nat fuel →
  ∃ (ended : bool) (score_a score_b : Z) (s0 s1 : gset pos),
    check_endgame fuel w = Ok (ended, score_a, score_b) ∧
    is_partition_of (board_size w) (chess_board w) (p0_pos w) s0 ∧
    is_partition_of (board_size w) (chess_board w) (p1_pos w) s1 ∧
    score_a = Z.of_nat (size s0) ∧
    score_b = Z.of_nat (size s1) ∧
    (ended = true →
     s0 ## s1 ∧
     score_a + score_b ≤ board_size w * board_size w ∧
     (score_a + score_b = board_size w * board_size w ↔
      ∀ x, in_bounds (board_size w) x → x ∈ s0 ∨ x ∈ s1)).
Proof.
  intros Hwfb H0 H1 Hfuel. apply wf_boardb_spec in Hwfb as Hwf.
  pose proof Hwf as (_ & Hpos & _).
  destruct (check_endgame_on_spec fuel _ _ _ _ Hwf H0 H1 Hfuel)
    as (ended & s0 & s1 & E & Hended & _ & Hs0 & Hs1).
  exists ended, (Z.of_nat (size s0)), (Z.of_nat (size s1)), s0, s1.
  split; [exact E|]. split; [exact Hs0|]. split; [exact Hs1|].
  split; [reflexivity|]. split; [reflexivity|].
  intros Htrue. apply Hended in Htrue.
  set (n := board_size w) in *. set (b := chess_board w) in *.
  assert (s0 ## s1) as Hdisj.
  { apply elem_of_disjoint. intros x Hx0 Hx1.
    apply Hs0 in Hx0 as [_ Hc0]. apply Hs1 in Hx1 as [_ Hc1].
    apply Htrue. unfold connected in *. etrans; [exact Hc0 | by symmetry]. }
  set (all := list_to_set (cells n) : gset pos).
  assert (s0 ∪ s1 ⊆ all) as Hsub.
  { intros x Hx. apply elem_of_list_to_set, elem_of_cells.
    apply elem_of_union in Hx as [Hx | Hx];
      [apply Hs0 in Hx | apply Hs1 in Hx]; tauto. }
  assert (Z.of_nat (size all) = n * n) as Hall.
  { unfold all. rewrite size_list_to_set by apply NoDup_cells.
    apply length_cells. lia. }
  pose proof (size_union s0 s1 Hdisj) as Hunion.
  pose proof (subseteq_size _ _ Hsub) as Hle.
  split; [exact Hdisj|]. split; [lia|]. split.
  - intros Hsum x Hx.
    assert (s0 ∪ s1 = all) as Heq by (apply set_subseteq_size_eq; [done | lia]).
    apply elem_of_union. rewrite Heq.
    by apply elem_of_list_to_set, elem_of_cells.
  - intros Hcover.
    assert (all ⊆ s0 ∪ s1) as Hsup.
    { intros x Hx. apply elem_of_list_to_set, elem_of_cells in Hx.
      apply elem_of_union. auto. }
    pose proof (subseteq_size _ _ Hsup). lia.
Qed.

Lemma check_endgame_scores_when_ended_witness :
  ∃ (ended : bool) (score_a score_b : Z),
    check_endgame 100
      (example_world 3 (board_with 3 [(0, 0, 1); (0, 0, 2)]) (0, 0) (2, 2) 0)
      = Ok (ended, score_a, score_b) ∧
    (ended = true → score_a + score_b ≤ 3 * 3).
Proof.
  destruct (check_endgame_scores_when_ended 100
              (example_world 3 (board_with 3 [(0, 0, 1); (0, 0, 2)])
                 (0, 0) (2, 2) 0))
    as (ended & score_a & score_b & s0 & s1 & E & _ & _ & _ & _ & H).
  - reflexivity.
  - unfold in_bounds; simpl; lia.
  - unfold in_bounds; simpl; lia.
  - simpl; lia.
  - exists ended, score_a, score_b. split; [exact E|].
    intros Ht. destruct (H Ht) as (_ & Hle & _). exact Hle.
Defined.

(** C6 as stated fails when a third partition exists.  On the 3 by 3
    board, from the corners: player 0 moves to (0, 1) and walls its left,
    player 1 walls the top of (2, 2), player 0 moves to (1, 0) and walls
    its top, which closes the empty corner (0, 0), and player 1 walls the
    left of (2, 2), which encloses it.  The game ends with scores 7 and 1,
    and 7 + 1 is not 9. *)
Lemma scores_do_not_sum_to_board :
  ∃ score_a score_b,
    (play 100
       [AgentReturns (RetMove (0, 1) 3) 1; AgentReturns (RetMove (2, 2) 0) 1;
        AgentReturns (RetMove (1, 0) 0) 1; AgentReturns (RetMove (2, 2) 3) 1]
       (false, 0, 0)
       (example_world 3 (empty_board 3) (0, 0) (2, 2) 0)).1
      = Ok (true, score_a, score_b) ∧
    score_a + score_b ≠ 3 * 3.
Proof.
  exists 7, 1. split; [vm_compute; reflexivity | lia].
Qed.

(** ** The search of [check_valid_step] *)

Lemma enumerate_moves_tuple :
  enumerate moves_tuple =
  [(0, move_of 0); (1, move_of 1); (2, move_of 2); (3, move_of 3)].
Proof. reflexivity. Qed.

(** One pass over the directions of a dequeued cell: either the
    destination is a legal step away, or the new legal neighbours are
    appended to the queue and marked, and afterwards every legal neighbour
    is marked and none is the destination. *)
Lemma scan_moves_spec (b : ndarray) (adv end_pos cur : pos) (cs : Z)
    (ms : list (Z * pos)) :
  0 ≤ cur.1 < arr_n b → 0 ≤ cur.2 < arr_n b →
  (∀ dm, dm ∈ ms → 0 ≤ dm.1 ≤ 3 ∧ dm.2 = move_of dm.1) →
  ∀ (q : list (pos * Z)) (vis : gset pos),
  end_pos ∉ vis →
  ∃ reached q' vis',
    scan_moves b adv end_pos cur cs ms q vis = Ok (reached, q', vis') ∧
    if (reached : bool) then
      ∃ dir, (dir, move_of dir) ∈ ms ∧ arr_bits b cur.1 cur.2 dir = false ∧
             neighbor cur dir = end_pos ∧ end_pos ≠ adv
    else
      ∃ new : list pos,
        q' = q ++ ((λ p, (p, cs + 1)) <$> new) ∧
        vis' = list_to_set new ∪ vis ∧
        NoDup new ∧
        (∀ p, p ∈ new →
           (p ∉ vis) ∧ p ≠ end_pos ∧ p ≠ adv ∧
           ∃ dir, (dir, move_of dir) ∈ ms ∧
                  arr_bits b cur.1 cur.2 dir = false ∧ p = neighbor cur dir) ∧
        (∀ dir, (dir, move_of dir) ∈ ms →
           arr_bits b cur.1 cur.2 dir = false → neighbor cur dir ≠ adv →
           neighbor cur dir ≠ end_pos ∧ neighbor cur dir ∈ vis').
Proof.
  intros Hr Hc. induction ms as [|[dir move] ms IH]; intros Hms q vis Hend.
  - exists false, q, vis. split; [reflexivity|]. exists [].
    split; [by rewrite app_nil_r|].
    split; [by rewrite list_to_set_nil, union_empty_l_L|].
    split; [constructor|]. split.
    + intros p Hp. by apply elem_of_nil in Hp.
    + intros d Hd. by apply elem_of_nil in Hd.
  - destruct (Hms (dir, move)) as [Hd Hmove]; [by left|]. simpl in Hd, Hmove.
    subst move.
    assert (∀ dm, dm ∈ ms → 0 ≤ dm.1 ≤ 3 ∧ dm.2 = move_of dm.1) as Hms'.
    { intros dm Hdm. apply Hms. by right. }
    (* a direction that adds nothing: wall, adversary or marked cell *)
    assert ((arr_bits b cur.1 cur.2 dir = false → neighbor cur dir ≠ adv →
             neighbor cur dir ∈ vis) →
            ∃ reached q' vis',
              scan_moves b adv end_pos cur cs ms q vis = Ok (reached, q', vis') ∧
              if (reached : bool) then
                ∃ dir0, (dir0, move_of dir0) ∈ (dir, move_of dir) :: ms ∧
                        arr_bits b cur.1 cur.2 dir0 = false ∧
                        neighbor cur dir0 = end_pos ∧ end_pos ≠ adv
              else
                ∃ new : list pos,
                  q' = q ++ ((λ p, (p, cs + 1)) <$> new) ∧
                  vis' = list_to_set new ∪ vis ∧
                  NoDup new ∧
                  (∀ p, p ∈ new →
                     (p ∉ vis) ∧ p ≠ end_pos ∧ p ≠ adv ∧
                     ∃ dir0, (dir0, move_of dir0) ∈ (dir, move_of dir) :: ms ∧
                             arr_bits b cur.1 cur.2 dir0 = false ∧
                             p = neighbor cur dir0) ∧
                  (∀ dir0, (dir0, move_of dir0) ∈ (dir, move_of dir) :: ms →
                     arr_bits b cur.1 cur.2 dir0 = false →
                     neighbor cur dir0 ≠ adv →
                     neighbor cur dir0 ≠ end_pos ∧ neighbor cur dir0 ∈ vis'))
      as Hskip.
    { intros Hsettled.
      destruct (IH Hms' q vis Hend) as (reached & q' & vis' & -> & Hres).
      exists reached, q', vis'. split; [reflexivity|].
      destruct reached.
      - destruct Hres as (d & Hd' & H). exists d. split; [by right | done].
      - destruct Hres as (new & -> & -> & Hnd & Hnew & Hall).
        exists new. split; [done|]. split; [done|]. split; [done|]. split.
        + intros p Hp. destruct (Hnew p Hp) as (? & ? & ? & d & ? & ?).
          repeat (split; [done|]). exists d. split; [by right | done].
        + intros d Hd' Hopen Hadv.
          apply elem_of_cons in Hd' as [[= ->] | Hd']; [|by apply Hall].
          specialize (Hsettled Hopen Hadv).
          split; [intros Heq; apply Hend; by rewrite <- Heq|].
          apply elem_of_union. by right. }
    cbn [scan_moves]. cbv [mbind res_mbind res_bind].
    rewrite arr_get_in by lia.
    change (pos_add cur (move_of dir)) with (neighbor cur dir).
    destruct (arr_bits b cur.1 cur.2 dir) eqn:Ebit.
    { apply Hskip. intros [=]. }
    destruct (bool_decide (neighbor cur dir = adv)) eqn:Eadv; simpl.
    { apply bool_decide_eq_true in Eadv. apply Hskip. by intros _ ?. }
    apply bool_decide_eq_false in Eadv.
    destruct (bool_decide (neighbor cur dir ∈ vis)) eqn:Evis; simpl.
    { apply bool_decide_eq_true in Evis. apply Hskip. by intros _ _. }
    apply bool_decide_eq_false in Evis.
    destruct (bool_decide (neighbor cur dir = end_pos)) eqn:Eend.
    { apply bool_decide_eq_true in Eend.
      exists true, q, vis. split; [reflexivity|].
      exists dir. split; [by left|]. split; [done|]. split; [done|].
      by rewrite <- Eend. }
    apply bool_decide_eq_false in Eend.
    destruct (IH Hms' (q ++ [(neighbor cur dir, cs + 1)])
                ({[neighbor cur dir]} ∪ vis))
      as (reached & q' & vis' & -> & Hres).
    { intros H. apply elem_of_union in H as [H | H]; [|by apply Hend].
      apply elem_of_singleton in H. by apply Eend. }
    exists reached, q', vis'. split; [reflexivity|].
    destruct reached.
    + destruct Hres as (d & Hd' & H). exists d. split; [by right | done].
    + destruct Hres as (new & -> & -> & Hnd & Hnew & Hall).
      exists (neighbor cur dir :: new).
      split; [by rewrite fmap_cons, <- app_assoc|].
      split; [apply set_eq; intros y; rewrite list_to_set_cons, !elem_of_union; tauto|].
      split; [|split].
      * constructor; [|done]. intros Hin.
        destruct (Hnew _ Hin) as (Hnot & _).
        apply Hnot, elem_of_union. left. by apply elem_of_singleton.
      * intros p Hp. apply elem_of_cons in Hp as [-> | Hp].
        -- repeat (split; [done|]). exists dir. split; [by left | done].
        -- destruct (Hnew p Hp) as (Hnot & ? & ? & d & ? & ?).
           split; [intros ?; apply Hnot, elem_of_union; by right|].
           repeat (split; [done|]).
           exists d. split; [by right | done].
      * intros d Hd' Hopen Hadv.
        apply elem_of_cons in Hd' as [[= ->] | Hd']; [|by apply Hall].
        split; [done|]. apply elem_of_union. right.
        apply elem_of_union. left. by apply elem_of_singleton.
Qed.

Lemma elem_of_enumerate_moves (dir : Z) :
  0 ≤ dir ≤ 3 → (dir, move_of dir) ∈ enumerate moves_tuple.
Proof.
  intros H. rewrite enumerate_moves_tuple.
  assert (dir = 0 ∨ dir = 1 ∨ dir = 2 ∨ dir = 3) as Hd by lia.
  destruct Hd as [-> | [-> | [-> | ->]]];
    [by left | right; by left | do 2 right; by left | do 3 right; by left].
Qed.

Lemma enumerate_moves_elem (dm : Z * pos) :
  dm ∈ enumerate moves_tuple → 0 ≤ dm.1 ≤ 3 ∧ dm.2 = move_of dm.1.
Proof.
  rewrite enumerate_moves_tuple. intros H.
  repeat (apply elem_of_cons in H as [-> | H]; [simpl; split; [lia | reflexivity]|]).
  by apply elem_of_nil in H.
Qed.

Lemma StronglySorted_const (d : Z) (l : list pos) :
  StronglySorted Z.le (((λ p, (p, d)) <$> l).*2).
Proof.
  induction l as [|p l IH]; [constructor|].
  simpl. constructor; [exact IH|].
  apply Forall_forall. intros x Hx.
  apply list_elem_of_fmap in Hx as ([p' d'] & -> & Hx).
  apply list_elem_of_fmap in Hx as (p'' & [= -> ->] & _). simpl. lia.
Qed.

Section bfs_correct.
Context (n : Z) (b : ndarray) (adv start_pos end_pos : pos) (max_step : Z).
Hypothesis Hwf : wf_board n b.
Hypothesis Hmax : 0 ≤ max_step.
Hypothesis Hstart : in_bounds n start_pos.
Hypothesis Hne : start_pos ≠ end_pos.

Local Abbreviation inv := (bfs_inv n b adv start_pos end_pos max_step).
Local Abbreviation reach := (reachable_within n b adv).

Lemma bfs_inv_initial :
  inv [(start_pos, 0)] {[start_pos]}
      (λ p, if decide (p = start_pos) then Some 0 else None).
Proof.
  unfold bfs_inv. split; [|split; [|split; [|split; [|split; [|split]]]]].
  - intros p. rewrite elem_of_singleton.
    destruct (decide (p = start_pos)) as [-> | Hp].
    + split; [eauto | done].
    + split; [done | intros [? [=]]].
  - by rewrite decide_True.
  - intros p d Hp. apply list_elem_of_singleton in Hp as [= -> ->].
    by rewrite decide_True.
  - intros p d Hp. destruct (decide (p = start_pos)) as [-> | ?]; [|done].
    injection Hp as <-. split; [lia|]. split; [done|]. split; [done|].
    apply bsteps_refl.
  - simpl. repeat constructor.
  - intros p d p0 d0 rest [= <- <- <-] Hp.
    destruct (decide (p = start_pos)); [|done]. injection Hp as <-. lia.
  - intros p d Hp Hnot. destruct (decide (p = start_pos)) as [-> | ?]; [|done].
    exfalso. apply Hnot. simpl. by left.
Qed.

(** When the loop stops without reaching the destination, every cell
    within [max_step] legal steps of the start has been marked, and the
    destination never is. *)
Lemma bfs_inv_complete q vis depth :
  inv q vis depth →
  q = [] ∨ (∃ cur rest, q = (cur, max_step) :: rest) →
  ¬ reach (Z.to_nat max_step) start_pos end_pos.
Proof.
  intros (I1 & I7 & I2 & I3 & S1 & S2 & I5) Hstop Hreach.
  assert (∀ p, p ∈ q.*1 → ∀ d, depth p = Some d → max_step ≤ d) as Hqueue.
  { intros p Hp d Hd. destruct Hstop as [-> | (cur & rest & ->)].
    - by apply elem_of_nil in Hp.
    - apply list_elem_of_fmap in Hp as ([p' d'] & -> & Hp). simpl in Hd.
      pose proof (I2 _ _ Hp) as Hd'. rewrite Hd in Hd'. injection Hd' as ->.
      simpl in S1. apply StronglySorted_cons in S1 as [Hall _].
      apply elem_of_cons in Hp as [[= _ ->] | Hp]; [lia|].
      rewrite Forall_forall in Hall. apply Hall.
      apply list_elem_of_fmap. by exists (p', d'). }
  assert (∀ k p, nsteps (legal_step n b adv) k start_pos p →
            (k ≤ Z.to_nat max_step)%nat →
            ∃ d, depth p = Some d ∧ d ≤ Z.of_nat k) as Hmarked.
  { induction k as [|k IH]; intros p Hp Hk.
    - inversion Hp; subst. exists 0. split; [done | lia].
    - apply nsteps_inv_r in Hp as (y & Hy & Hstep).
      destruct (IH y Hy ltac:(lia)) as (d & Hd & Hdk).
      assert (y ∉ q.*1) as Hnot.
      { intros Hin. pose proof (Hqueue y Hin d Hd). lia. }
      destruct (I5 y d Hd Hnot p Hstep) as (_ & d' & Hd' & Hle).
      exists d'. split; [done | lia]. }
  unfold reachable_within in Hreach.
  apply bsteps_nsteps in Hreach as (k & Hk & Hsteps).
  destruct (Hmarked k end_pos Hsteps Hk) as (d & Hd & _).
  destruct (I3 _ _ Hd) as (_ & _ & Habs & _). done.
Qed.

(** A legal neighbour found by the scan is a legal step away. *)
Lemma scan_legal_step (cur p : pos) (dir : Z) :
  in_bounds n cur → 0 ≤ dir ≤ 3 →
  arr_bits b cur.1 cur.2 dir = false → p = neighbor cur dir → p ≠ adv →
  legal_step n b adv cur p ∧ in_bounds n p.
Proof.
  intros Hcur Hd Hopen -> Hadv. pose proof Hwf as (Hn & _).
  destruct (open_edge_inside n b cur dir Hwf Hcur Hd Hopen) as [Hin _].
  split; [|done]. split; [|done]. split; [done|]. split; [done|].
  exists dir. split; [done|]. split; [|done].
  destruct Hcur. rewrite arr_get_in by lia. by rewrite Hopen.
Qed.

(** One turn of the loop that does not reach the destination keeps the
    invariant. *)
Lemma bfs_inv_step cur cs rest vis depth (new : list pos) :
  inv ((cur, cs) :: rest) vis depth →
  cs ≠ max_step →
  (∀ p, p ∈ new →
     (p ∉ vis) ∧ p ≠ end_pos ∧ p ≠ adv ∧
     ∃ dir, (dir, move_of dir) ∈ enumerate moves_tuple ∧
            arr_bits b cur.1 cur.2 dir = false ∧ p = neighbor cur dir) →
  (∀ dir, (dir, move_of dir) ∈ enumerate moves_tuple →
     arr_bits b cur.1 cur.2 dir = false → neighbor cur dir ≠ adv →
     neighbor cur dir ≠ end_pos ∧ neighbor cur dir ∈ list_to_set new ∪ vis) →
  inv (rest ++ ((λ p, (p, cs + 1)) <$> new)) (list_to_set new ∪ vis)
      (λ p, if decide (p ∈ new) then Some (cs + 1) else depth p).
Proof.
  intros (I1 & I7 & I2 & I3 & S1 & S2 & I5) Hcs Hnew Hall.
  assert (depth cur = Some cs) as Hcur by (apply I2; by left).
  destruct (I3 _ _ Hcur) as (Hcs_range & Hcur_in & _ & Hcur_reach).
  assert (∀ p d, depth p = Some d → p ∉ new) as Hold.
  { intros p d Hd Hin. destruct (Hnew p Hin) as (Hnot & _).
    apply Hnot, I1. eauto. }
  assert (∀ p d, depth p = Some d → d ≤ cs + 1) as Hbound.
  { intros p d Hd. by eapply S2. }
  assert (∀ p, p ∈ new → legal_step n b adv cur p ∧ in_bounds n p) as Hlegal.
  { intros p Hp. destruct (Hnew p Hp) as (_ & _ & Hadv & dir & Hdir & Hopen & Heq).
    apply enumerate_moves_elem in Hdir as [Hdir _]. simpl in Hdir.
    by eapply scan_legal_step. }
  simpl in S1. apply StronglySorted_cons in S1 as [Hhead Hsorted].
  rewrite Forall_forall in Hhead.
  unfold bfs_inv. split; [|split; [|split; [|split; [|split; [|split]]]]].
  - intros p. rewrite elem_of_union, elem_of_list_to_set, I1.
    destruct (decide (p ∈ new)); split; eauto. intros [? | ?]; done.
  - rewrite decide_False; [done|]. by eapply Hold.
  - intros p d Hp. apply elem_of_app in Hp as [Hp | Hp].
    + assert (depth p = Some d) as Hd by (apply I2; by right).
      rewrite decide_False; [done|]. by eapply Hold.
    + apply list_elem_of_fmap in Hp as (p' & [= -> ->] & Hp').
      by rewrite decide_True.
  - intros p d Hd. destruct (decide (p ∈ new)) as [Hin | Hnot]; [|by apply I3].
    injection Hd as <-. destruct (Hlegal p Hin) as [Hstep Hp_in].
    destruct (Hnew p Hin) as (_ & Hend & _).
    split; [lia|]. split; [done|]. split; [done|].
    unfold reachable_within in *.
    replace (Z.to_nat (cs + 1)) with (S (Z.to_nat cs)) by lia.
    by eapply bsteps_r.
  - rewrite fmap_app. apply StronglySorted_app. split; [|split].
    + intros d1 d2 H1 H2.
      apply list_elem_of_fmap in H1 as ([p1 d1'] & -> & H1).
      apply list_elem_of_fmap in H2 as ([p2 d2'] & -> & H2).
      apply list_elem_of_fmap in H2 as (p2' & [= -> ->] & _). simpl.
      apply (Hbound p1). apply I2. by right.
    + done.
    + apply StronglySorted_const.
  - intros p d p0 d0 rest' Hq Hd.
    assert (d ≤ cs + 1) as Hle.
    { destruct (decide (p ∈ new)); [injection Hd as <-; lia | by eapply Hbound]. }
    assert (cs ≤ d0); [|lia].
    assert ((p0, d0) ∈ rest ++ ((λ p, (p, cs + 1)) <$> new)) as Hin
      by (rewrite Hq; by left).
    apply elem_of_app in Hin as [Hin | Hin].
    + apply Hhead. apply list_elem_of_fmap. by exists (p0, d0).
    + apply list_elem_of_fmap in Hin as (p' & [= -> ->] & _). lia.
  - intros p d Hd Hnot p' Hstep.
    assert (p ∉ new) as Hpnew.
    { intros Hin. apply Hnot. rewrite fmap_app. apply elem_of_app. right.
      rewrite <- list_fmap_compose. apply list_elem_of_fmap. by exists p. }
    rewrite decide_False in Hd by done.
    assert (∀ d', depth p' = Some d' →
              (if decide (p' ∈ new) then Some (cs + 1) else depth p') = Some d')
      as Hkeep.
    { intros d' Hd'. rewrite decide_False; [done|]. by eapply Hold. }
    destruct (decide (p = cur)) as [-> | Hpcur].
    + rewrite Hcur in Hd. injection Hd as <-.
      destruct Hstep as [(_ & _ & dir & Hdir & Hopen & ->) Hadv].
      pose proof Hwf as (Hn & _).
      rewrite arr_get_in in Hopen by (destruct Hcur_in; lia).
      injection Hopen as Hopen.
      destruct (Hall dir (elem_of_enumerate_moves dir Hdir) Hopen Hadv)
        as [Hend Hvis].
      split; [done|].
      apply elem_of_union in Hvis as [Hvis | Hvis].
      * apply elem_of_list_to_set in Hvis.
        exists (cs + 1). rewrite decide_True by done. split; [done | lia].
      * apply I1 in Hvis as [d' Hd']. exists d'.
        split; [by apply Hkeep|]. pose proof (Hbound _ _ Hd'). lia.
    + assert (p ∉ ((cur, cs) :: rest).*1) as Hnot'.
      { simpl. intros Hin. apply elem_of_cons in Hin as [-> | Hin]; [done|].
        apply Hnot. rewrite fmap_app. apply elem_of_app. by left. }
      destruct (I5 p d Hd Hnot' p' Hstep) as (Hend & d' & Hd' & Hle).
      split; [done|]. exists d'. split; [by apply Hkeep | done].
Qed.

(** The loop returns with enough fuel, and returns true exactly when the
    destination is within [max_step] legal steps of the start. *)
Lemma bfs_spec (fuel : nat) :
  ∀ q vis depth,
  inv q vis depth →
  (length q + size (list_to_set (cells n) ∖ vis) < fuel)%nat →
  ∃ r : bool,
    bfs fuel b max_step adv end_pos q vis = Ok r ∧
    (r = true ↔ reach (Z.to_nat max_step) start_pos end_pos).
Proof.
  pose proof Hwf as (Hn & _).
  induction fuel as [|fuel IH]; intros q vis depth Hinv Hfuel; [lia|].
  destruct q as [|[cur cs] rest].
  - exists false. split; [reflexivity|]. split; [done|].
    intros Hreach. exfalso. eapply bfs_inv_complete; eauto.
  - cbn [bfs]. destruct (cs =? max_step) eqn:Ecs.
    + apply Z.eqb_eq in Ecs as ->.
      exists false. split; [reflexivity|]. split; [done|].
      intros Hreach. exfalso. eapply bfs_inv_complete; eauto.
    + apply Z.eqb_neq in Ecs.
      pose proof Hinv as (I1 & I7 & I2 & I3 & S1 & S2 & I5).
      assert (depth cur = Some cs) as Hcur by (apply I2; by left).
      destruct (I3 _ _ Hcur) as (Hcs_range & Hcur_in & _ & Hcur_reach).
      assert (end_pos ∉ vis) as Hend.
      { intros Hin. apply I1 in Hin as [d Hd].
        by destruct (I3 _ _ Hd) as (_ & _ & ? & _). }
      destruct (scan_moves_spec b adv end_pos cur cs (enumerate moves_tuple))
        with (q := rest) (vis := vis)
        as (reached & q' & vis' & E & Hres);
        [destruct Hcur_in; lia | destruct Hcur_in; lia
        | apply enumerate_moves_elem | exact Hend |].
      cbv [mbind res_mbind res_bind]. rewrite E.
      destruct reached.
      * destruct Hres as (dir & Hdir & Hopen & Heq & Hadv).
        apply enumerate_moves_elem in Hdir as [Hdir _]. simpl in Hdir.
        exists true. split; [reflexivity|]. split; [|done]. intros _.
        destruct (scan_legal_step cur end_pos dir) as [Hstep _]; auto.
        unfold reachable_within in *.
        eapply (bsteps_weaken (S (Z.to_nat cs))); [lia|].
        by eapply bsteps_r.
      * destruct Hres as (new & -> & -> & Hnd & Hnew & Hall).
        pose proof (bfs_inv_step cur cs rest vis depth new Hinv Ecs Hnew Hall)
          as Hinv'.
        eapply IH; [exact Hinv'|].
        rewrite length_app, length_fmap.
        assert (list_to_set new ⊆ list_to_set (cells n) ∖ vis) as Hsub.
        { intros p Hp. apply elem_of_list_to_set in Hp.
          destruct (Hnew p Hp) as (Hnot & _ & Hadv & dir & Hdir & Hopen & Heq).
          apply enumerate_moves_elem in Hdir as [Hdir _]. simpl in Hdir.
          destruct (scan_legal_step cur p dir) as [_ Hin]; auto.
          apply elem_of_difference. split; [|done].
          by apply elem_of_list_to_set, elem_of_cells. }
        assert (list_to_set (cells n) ∖ (list_to_set new ∪ vis) =
                (list_to_set (cells n) ∖ vis) ∖ list_to_set new :> gset pos)
          as ->.
        { apply set_eq. intros y.
          rewrite !elem_of_difference, elem_of_union. tauto. }
        rewrite size_difference by exact Hsub.
        rewrite (size_list_to_set new) by exact Hnd.
        pose proof (subseteq_size _ _ Hsub) as Hle.
        rewrite (size_list_to_set new) in Hle by exact Hnd.
        simpl in Hfuel. lia.
Qed.

End bfs_correct.

Lemma in_boundsb_spec (n : Z) (p : pos) : in_boundsb n p = true ↔ in_bounds n p.
Proof.
  unfold in_boundsb, in_bounds. rewrite !andb_true_iff.
  rewrite !Z.leb_le, !Z.ltb_lt. tauto.
Qed.

Lemma wall_freeb_spec (n : Z) (b : ndarray) (p : pos) (dir : Z) :
  wall_freeb n b = true →
  in_bounds n p → 0 ≤ dir ≤ 3 → in_bounds n (neighbor p dir) →
  arr_bits b p.1 p.2 dir = false.
Proof.
  unfold wall_freeb. rewrite forallb_forall. intros H Hp Hd Hq.
  specialize (H p). rewrite <- list_elem_of_In, elem_of_cells in H.
  specialize (H Hp). rewrite forallb_forall in H.
  specialize (H dir). rewrite <- list_elem_of_In, elem_of_dirs in H.
  specialize (H Hd). apply in_boundsb_spec in Hq. rewrite Hq in H.
  simpl in H. by apply negb_true_iff in H.
Qed.

(** ** Grid distance on a board without walls *)

Lemma legal_step_manhattan (n : Z) (b : ndarray) (adv p q e : pos) :
  legal_step n b adv p q → manhattan p e ≤ manhattan q e + 1.
Proof.
  intros [(_ & _ & dir & Hd & _ & ->) _].
  destruct p as [r c], e as [er ec]. unfold manhattan, neighbor, pos_add.
  destruct (move_of_cases dir Hd) as [(-> & -> & _) | [(-> & -> & _) |
    [(-> & -> & _) | (-> & -> & _)]]]; simpl; lia.
Qed.

Lemma reach_manhattan (n : Z) (b : ndarray) (adv p e : pos) (k : nat) :
  reachable_within n b adv k p e → manhattan p e ≤ Z.of_nat k.
Proof.
  unfold reachable_within. induction 1 as [k p | k p q e Hstep _ IH].
  - unfold manhattan. lia.
  - pose proof (legal_step_manhattan n b adv p q e Hstep). lia.
Qed.

Lemma manhattan_reach (n : Z) (b : ndarray) (adv e : pos) :
  wf_board n b → wall_freeb n b = true → in_bounds n e →
  ∀ (k : nat) (p : pos),
    in_bounds n p → ¬ in_rect p e adv → manhattan p e = Z.of_nat k →
    reachable_within n b adv k p e.
Proof.
  intros Hwf Hfree He. pose proof Hwf as (Hn & _). unfold reachable_within.
  induction k as [|k IH]; intros p Hp Hadv Hdist.
  - assert (p = e) as ->; [|apply bsteps_refl].
    destruct p, e. unfold manhattan in Hdist. simpl in Hdist. f_equal; lia.
  - assert (∃ dir, 0 ≤ dir ≤ 3 ∧ in_bounds n (neighbor p dir) ∧
                   in_rect p e (neighbor p dir) ∧
                   (∀ x, in_rect (neighbor p dir) e x → in_rect p e x) ∧
                   manhattan (neighbor p dir) e = Z.of_nat k)
      as (dir & Hd & Hq & Hq_rect & Hsub & Hq_dist).
    { destruct p as [r c], e as [er ec]. destruct Hp as [Hr Hc], He as [Her Hec].
      unfold manhattan, neighbor, pos_add, in_rect, in_bounds in *. simpl in *.
      destruct (Z.lt_trichotomy r er) as [Hlt | [-> | Hgt]].
      - exists 2. simpl. repeat split; try lia.
        all: intros [? ?] [? ?]; simpl in *; lia.
      - destruct (Z.lt_trichotomy c ec) as [Hlt | [-> | Hgt]].
        + exists 1. simpl. repeat split; try lia.
          all: intros [? ?] [? ?]; simpl in *; lia.
        + lia.
        + exists 3. simpl. repeat split; try lia.
          all: intros [? ?] [? ?]; simpl in *; lia.
      - exists 0. simpl. repeat split; try lia.
        all: intros [? ?] [? ?]; simpl in *; lia. }
    eapply bsteps_l; [|apply IH; [done | by intros H; apply Hadv, Hsub | done]].
    split; [|by intros Heq; apply Hadv; rewrite <- Heq].
    split; [done|]. split; [done|]. exists dir. split; [done|]. split; [|done].
    destruct Hp. rewrite arr_get_in by lia.
    by rewrite (wall_freeb_spec n b p dir).
Qed.

(** ** The validity of a move *)

(** [check_valid_step] past its two shortcuts. *)
Lemma check_valid_step_on_spec (fuel : nat) (n : Z) (b : ndarray)
    (max_step : Z) (adv start_pos end_pos : pos) (barrier_dir : Z) :
  wf_board n b → 0 ≤ max_step →
  in_bounds n start_pos → in_bounds n end_pos → 0 ≤ barrier_dir ≤ 3 →
  end_pos ≠ start_pos →
  arr_bits b end_pos.1 end_pos.2 barrier_dir = false →
  n * n < Z.of_nat fuel →
  ∃ r : bool,
    check_valid_step_on fuel b max_step adv start_pos end_pos barrier_dir
      = Ok r ∧
    (r = true ↔
     reachable_within n b adv (Z.to_nat max_step) start_pos end_pos).
Proof.
  intros Hwf Hmax Hstart Hend Hdir Hne Hopen Hfuel.
  pose proof Hwf as (Hn & Hpos & _).
  unfold check_valid_step_on. cbv [mbind res_mbind res_bind].
  destruct Hend as [Her Hec]. rewrite arr_get_in by lia. rewrite Hopen.
  rewrite bool_decide_eq_false_2 by done.
  assert (start_pos ≠ end_pos) as Hne' by (intros Heq; by apply Hne).
  eapply (bfs_spec n b adv start_pos end_pos max_step Hwf Hstart Hne');
    [by apply bfs_inv_initial|].
  assert ({[start_pos]} ⊆ (list_to_set (cells n) : gset pos)) as Hsub.
  { intros p Hp. apply elem_of_singleton in Hp as ->.
    by apply elem_of_list_to_set, elem_of_cells. }
  rewrite size_difference by exact Hsub.
  rewrite size_singleton, size_list_to_set by apply NoDup_cells.
  pose proof (length_cells n ltac:(lia)). simpl. lia.
Qed.

(** C4: on a well-formed board, for a destination on the board other
    than the start and with no wall in the requested direction,
    [check_valid_step] returns, and returns true exactly when some path
    of at most [max_step] grid steps leads from the start to the
    destination without crossing a wall or entering the opponent's cell.
    On a board with no walls between its cells, with the opponent outside
    the rectangle spanned by start and destination, that is exactly when
    their grid distance is at most [max_step]. *)
Theorem check_valid_step_iff_reachable (fuel : nat) (w : World)
    (start_pos end_pos : pos) (barrier_dir : Z) :
  wf_boardb (board_size w) (chess_board w) = true →
  0 ≤ max_step w →
  in_bounds (board_size w) start_pos →
  in_bounds (board_size w) end_pos →
  0 ≤ barrier_dir ≤ 3 →
  end_pos ≠ start_pos →
  arr_bits (chess_board w) end_pos.1 end_pos.2 barrier_dir = false →
  board_size w * board_size w < Z.of_nat fuel →
  ∃ r : bool,
    check_valid_step fuel w start_pos end_pos barrier_dir = Ok r ∧
    (r = true ↔
     reachable_within (board_size w) (chess_board w)
       (if turn w =? 0 then p1_pos w else p0_pos w)
       (Z.to_nat (max_step w)) start_pos end_pos) ∧
    (wall_freeb (board_size w) (chess_board w) = true →
     ¬ in_rect start_pos end_pos (if turn w =? 0 then p1_pos w else p0_pos w) →
     (r = true ↔ manhattan start_pos end_pos ≤ max_step w)).
Proof.
  intros Hwfb Hmax Hstart Hend Hdir Hne Hopen Hfuel.
  apply wf_boardb_spec in Hwfb as Hwf.
  set (adv := if turn w =? 0 then p1_pos w else p0_pos w).
  destruct (check_valid_step_on_spec fuel (board_size w) (chess_board w)
              (max_step w) adv start_pos end_pos barrier_dir)
    as (r & E & Hr); auto.
  exists r. split; [exact E|]. split; [exact Hr|].
  intros Hfree Hadv. rewrite Hr. split.
  - intros Hreach. apply reach_manhattan in Hreach. lia.
  - intros Hdist.
    assert (0 ≤ manhattan start_pos end_pos) as Hnonneg
      by (unfold manhattan; lia).
    unfold reachable_within.
    eapply (bsteps_weaken (Z.to_nat (manhattan start_pos end_pos))); [lia|].
    apply manhattan_reach; auto. lia.
Qed.

Lemma check_valid_step_iff_reachable_witness :
  check_valid_step 100 (example_world 4 (empty_board 4) (0, 0) (3, 3) 0)
    (0, 0) (1, 1) 1 = Ok true ∧
  reachable_within 4 (empty_board 4) (3, 3) 2 (0, 0) (1, 1).
Proof.
  destruct (check_valid_step_iff_reachable 100
              (example_world 4 (empty_board 4) (0, 0) (3, 3) 0)
              (0, 0) (1, 1) 1)
    as (r & E & Hr & _).
  - reflexivity.
  - apply Z.leb_le; reflexivity.
  - unfold in_bounds; simpl; lia.
  - unfold in_bounds; simpl; lia.
  - lia.
  - discriminate.
  - reflexivity.
  - simpl; lia.
  - assert (r = true) as ->.
    { vm_compute in E. by injection E. }
    split; [exact E|]. by apply Hr.
Defined.

(** ** Well-formedness is kept by construction and by every turn *)

Ltac eqb_cases :=
  repeat match goal with
         | |- context [?x =? ?y] => destruct (Z.eqb_spec x y)
         end.

(** A wall placed on an edge between two cells of the board keeps the
    board well-formed. *)
Lemma set_barrier_arr_wf (n : Z) (b : ndarray) (r c dir : Z) :
  wf_board n b → in_bounds n (r, c) → 0 ≤ dir ≤ 3 →
  in_bounds n (neighbor (r, c) dir) →
  ∃ b', set_barrier_arr r c dir b = (Ok tt, b') ∧ wf_board n b'.
Proof.
  intros (Hn & Hpos & Hborder & Hmirror) [Hr Hc] Hd Hnb. simpl in Hr, Hc.
  rewrite set_barrier_arr_in by (rewrite ?Hn; auto).
  eexists. split; [reflexivity|].
  split; [exact Hn|]. split; [exact Hpos|]. simpl. split.
  - intros i Hi. destruct (Hborder i Hi) as (H1 & H2 & H3 & H4).
    repeat split; by do 2 apply bits_set_true.
  - intros r0 c0 Hr0 Hc0. destruct (Hmirror r0 c0 Hr0 Hc0) as [Hv Hh].
    destruct Hnb as [Hn1 Hn2]. unfold neighbor, pos_add in *. simpl in *.
    unfold bits_set.
    destruct (move_of_cases dir Hd) as [(-> & -> & ->) | [(-> & -> & ->) |
      [(-> & -> & ->) | (-> & -> & ->)]]]; simpl in *;
      (split; intros Hlt; eqb_cases; simpl; try lia; auto).
Qed.

Lemma set_borders_wf (n : Z) (b : ndarray) :
  exec set_borders (zeros n) = Ok b → wf_board n b.
Proof.
  unfold exec, set_borders, arr_set_row, arr_set_col. st_unfold. simpl.
  destruct (Z_lt_le_dec 0 n) as [Hpos | Hneg].
  - repeat (first [ rewrite (norm_index_in n 0) by lia
                  | rewrite (norm_index_neg n (-1)) by lia ]; simpl).
    intros [= <-]. split; [reflexivity|]. split; [exact Hpos|].
    cbn [arr_bits]. split.
    + intros i Hi. repeat split; eqb_cases; simpl; try lia; auto.
    + intros r c Hr Hc. split; intros Hlt; eqb_cases; simpl; try lia; auto.
  - assert (norm_index n 0 = Raise IndexError) as ->; [|discriminate].
    unfold norm_index.
    destruct (0 <? n) eqn:E1; [lia|]. simpl.
    destruct (- n <=? 0); reflexivity.
Qed.

Lemma anti_neighbor_in_bounds (n r c dir : Z) :
  0 ≤ dir ≤ 3 → in_bounds n (r, c) → in_bounds n (neighbor (r, c) dir) →
  in_bounds n (n - 1 - r, n - 1 - c) ∧
  in_bounds n (neighbor (n - 1 - r, n - 1 - c) (opposite dir)).
Proof.
  intros Hd [Hr Hc] [Hn1 Hn2]. unfold neighbor, pos_add, in_bounds in *.
  assert (dir = 0 ∨ dir = 1 ∨ dir = 2 ∨ dir = 3) as Hcases by lia.
  destruct Hcases as [-> | [-> | [-> | ->]]]; simpl in *; lia.
Qed.

Lemma randint_range (lo hi : Z) (g : Rng) (v : Z) (g' : Rng) :
  randint lo hi g = (Ok v, g') → lo ≤ v < hi.
Proof.
  unfold randint. destruct (hi <=? lo) eqn:E; [discriminate|].
  intros [= <- _].
  pose proof (Z.mod_pos_bound (rand_src g (rand_ix g)) (hi - lo)). lia.
Qed.

Lemma draw_free_slot_spec (fuel : nat) (n : Z) (b : ndarray) (g g' : Rng)
    (r c dir : Z) :
  arr_n b = n →
  draw_free_slot fuel n b g = (Ok (r, c, dir), g') →
  in_bounds n (r, c) ∧ 0 ≤ dir ≤ 3 ∧ arr_bits b r c dir = false.
Proof.
  intros Hn. revert g. induction fuel as [|fuel IH]; intros g; [discriminate|].
  cbn [draw_free_slot]. st_unfold.
  destruct (randint 0 n g) as [[r0|] g1] eqn:E1; [|discriminate].
  destruct (randint 0 n g1) as [[c0|] g2] eqn:E2; [|discriminate].
  destruct (randint 0 4 g2) as [[d0|] g3] eqn:E3; [|discriminate].
  apply randint_range in E1, E2, E3.
  rewrite arr_get_in by lia.
  destruct (arr_bits b r0 c0 d0) eqn:Ebit; [apply IH|].
  intros [= <- <- <- <-]. split; [split; simpl; lia|]. split; [lia | done].
Qed.

Lemma place_barriers_wf (fuel k : nat) (n : Z) :
  ∀ (b : ndarray) (g : Rng) (b' : ndarray) (g' : Rng),
  wf_board n b →
  place_barriers fuel k n b g = (Ok b', g') → wf_board n b'.
Proof.
  induction k as [|k IH]; intros b g b' g' Hwf.
  - by intros [= <- <-].
  - cbn [place_barriers]. st_unfold.
    destruct (draw_free_slot fuel n b g) as [[[[r c] dir]|] g1] eqn:E;
      [|discriminate].
    pose proof Hwf as (Hn & _).
    apply draw_free_slot_spec in E as (Hrc & Hd & Hopen); [|done].
    destruct (open_edge_inside n b (r, c) dir Hwf Hrc Hd Hopen) as [Hnb _].
    rewrite opposites_in by done.
    destruct (set_barrier_arr_wf n b r c dir Hwf Hrc Hd Hnb) as (b1 & E1 & Hwf1).
    unfold exec at 1. rewrite E1.
    destruct (anti_neighbor_in_bounds n r c dir Hd Hrc Hnb) as [Ha Hanb].
    destruct (set_barrier_arr_wf n b1 (n - 1 - r) (n - 1 - c) (opposite dir)
                Hwf1 Ha (opposite_range dir) Hanb) as (b2 & E2 & Hwf2).
    unfold exec. rewrite E2. by apply IH.
Qed.

Lemma roll_start_in_bounds fuel n board g a b e g' :
  roll_start fuel n board g = (Ok (a, b, e), g') →
  in_bounds n a ∧ in_bounds n b.
Proof.
  unfold roll_start. st_unfold. intros H.
  destruct (randint 0 n g) as [[r|] g1] eqn:E1; [|discriminate].
  destruct (randint 0 n g1) as [[c|] g2] eqn:E2; [|discriminate].
  apply randint_range in E1, E2.
  destruct (check_endgame_on fuel n board (r, c) (n - 1 - r, n - 1 - c))
    as [[[e' sa] sb]|]; [|discriminate].
  injection H as <- <- <- <-. unfold in_bounds. simpl. lia.
Qed.

Lemma draw_start_in_bounds rolls fuel n board g a b e g' :
  draw_start rolls fuel n board g = (Ok (a, b, e), g') →
  in_bounds n a ∧ in_bounds n b.
Proof.
  revert g. induction rolls as [|k IH]; intros g; [discriminate|].
  cbn [draw_start]. st_unfold.
  destruct (roll_start fuel n board g) as [[[[a1 b1] e1]|] g1] eqn:E;
    [|discriminate].
  apply roll_start_in_bounds in E.
  destruct (bool_decide (a1 = b1) || e1); [apply IH|].
  by intros [= <- <- <- <-].
Qed.

(** The constructor returns a well-formed world. *)
Lemma World_init_wf registry min_size max_size player_1 player_2 size
    want_autoplay fuel g w g' :
  World_init registry min_size max_size player_1 player_2 size want_autoplay
    fuel g = (Ok w, g') →
  wf_world w.
Proof.
  unfold World_init. st_unfold. intros H.
  destruct (registry player_1) as [a0|]; [|discriminate].
  destruct (registry player_2) as [a1|]; [|discriminate].
  destruct (want_autoplay && _); [discriminate|].
  destruct (match size with Some n => _ | None => _ end) as [[n|] g1];
    [|discriminate].
  destruct (exec set_borders (zeros n)) as [board0|] eqn:E0; [|discriminate].
  apply set_borders_wf in E0.
  destruct (place_barriers _ _ _ _ _) as [[board|] g2] eqn:E1; [|discriminate].
  apply place_barriers_wf in E1; [|done].
  destruct (draw_start fuel fuel n board g2) as [[[[a b] e]|] g3] eqn:E2;
    [|discriminate].
  apply draw_start_in_bounds in E2 as [Ha Hb].
  destruct e; [discriminate|]. injection H as <- <-.
  unfold wf_world. simpl.
  split; [done|]. split; [done|]. split; [done|]. split; [reflexivity | by left].
Qed.

Lemma check_valid_step_on_true fuel b max_step adv start_pos end_pos dir :
  check_valid_step_on fuel b max_step adv start_pos end_pos dir = Ok true →
  arr_get b end_pos.1 end_pos.2 dir = Ok false.
Proof.
  unfold check_valid_step_on. cbv [mbind res_mbind res_bind].
  destruct (arr_get b end_pos.1 end_pos.2 dir) as [[|]|]; try discriminate.
  reflexivity.
Qed.

Lemma rand_choice_elem {A} (l : list A) (g g' : Rng) (x : A) :
  rand_choice l g = (Ok x, g') → x ∈ l.
Proof.
  unfold rand_choice, list_index. st_unfold.
  destruct (randint 0 (Z.of_nat (length l)) g) as [[i|] g1]; [|discriminate].
  destruct (norm_index (Z.of_nat (length l)) i) as [j|]; [|discriminate].
  simpl. destruct (l !! Z.to_nat j) as [y|] eqn:E; [|discriminate].
  intros [= <- _]. by eapply list_elem_of_lookup_2.
Qed.

(** Whatever [random_walk] returns is a cell of the board and a side of
    it that has no wall yet. *)
Lemma random_walk_on_ok (n : Z) (b : ndarray) (max_step : Z)
    (my_pos adv_pos : pos) (g g' : Rng) (dest : pos) (dir : Z) :
  wf_board n b → in_bounds n my_pos →
  random_walk_on b max_step my_pos adv_pos g = (Ok (dest, dir), g') →
  in_bounds n dest ∧ 0 ≤ dir ≤ 3 ∧ arr_bits b dest.1 dest.2 dir = false.
Proof.
  intros Hwf Hp. pose proof Hwf as (Hn & _).
  unfold random_walk_on. st_unfold.
  destruct (randint 0 (max_step + 1) g) as [[steps|] g1]; [|discriminate].
  destruct (walk_loop_spec n b adv_pos (Z.to_nat steps) Hwf my_pos g1 Hp)
    as (q & g2 & -> & _ & Hq & _).
  destruct q as [r c]. pose proof Hq as [Hr Hc]. simpl in Hr, Hc.
  destruct (allowed_barriers_spec b r c (seqZ 0 4))
    as (l & -> & Hl); [lia | lia | intros d; apply elem_of_dirs |].
  destruct (bool_decide (1 ≤ length l)%nat); [|discriminate].
  destruct (rand_choice l g2) as [[d|] g3] eqn:E; [|discriminate].
  apply rand_choice_elem in E. apply Hl in E as [Hd Hopen].
  apply elem_of_dirs in Hd. intros [= <- <- _]. auto.
Qed.

(** With an open side at the start, [random_walk] returns. *)
Lemma random_walk_on_total (n : Z) (b : ndarray) (max_step : Z)
    (my_pos adv_pos : pos) (g : Rng) :
  wf_board n b → in_bounds n my_pos → 0 ≤ max_step →
  (∃ d, 0 ≤ d ≤ 3 ∧ arr_bits b my_pos.1 my_pos.2 d = false) →
  ∃ mv g', random_walk_on b max_step my_pos adv_pos g = (Ok mv, g').
Proof.
  intros Hwf Hp Hmax Hfree. pose proof Hwf as (Hn & _).
  unfold random_walk_on. st_unfold.
  destruct (randint_ok 0 (max_step + 1) g) as (steps & g1 & -> & _); [lia|].
  destruct (walk_loop_spec n b adv_pos (Z.to_nat steps) Hwf my_pos g1 Hp)
    as (q & g2 & -> & _ & Hq & Hq_free).
  destruct q as [r c]. pose proof Hq as [Hr Hc]. simpl in Hr, Hc.
  destruct (allowed_barriers_spec b r c (seqZ 0 4))
    as (l & -> & Hl); [lia | lia | intros d; apply elem_of_dirs |].
  assert (∃ d, 0 ≤ d ≤ 3 ∧ arr_bits b r c d = false) as (d0 & Hd0 & Hopen0).
  { destruct Hq_free as [<- | H]; [exact Hfree | exact H]. }
  assert (d0 ∈ l) as Hin by (apply Hl; split; [by apply elem_of_dirs | done]).
  destruct l as [|d l]; [by apply elem_of_nil in Hin|].
  rewrite bool_decide_eq_true_2 by (simpl; lia).
  destruct (rand_choice_ok (d :: l) g2) as (dir & g3 & -> & _); [done|].
  eauto.
Qed.

(** The statements after the [try], for a move onto the board with a
    free wall slot: the world they build, and [check_endgame] on it. *)
Lemma step_apply_unfold fuel next_pos dir t w :
  wf_world w → in_bounds (board_size w) next_pos → 0 ≤ dir ≤ 3 →
  arr_bits (chess_board w) next_pos.1 next_pos.2 dir = false →
  is_ok (log_move w dir t) = true →
  ∃ w3, wf_world w3 ∧
        step_apply fuel next_pos dir t w =
          match check_endgame fuel w3 with
          | Ok results => (Ok results, set_results_cache (Some results) w3)
          | Raise e => (Raise e, w3)
          end.
Proof.
  intros (Hwf & H0 & H1 & Hms & Hturn) Hnext Hd Hopen Hlog.
  destruct (open_edge_inside _ _ next_pos dir Hwf Hnext Hd Hopen) as [Hnb _].
  destruct next_pos as [r c].
  destruct (set_barrier_arr_wf _ _ r c dir Hwf Hnext Hd Hnb) as (b' & Eb & Hwf').
  unfold step_apply. st_unfold.
  destruct (log_move w dir t); [|discriminate].
  unfold set_barrier, on_board.
  destruct (turn w =? 0) eqn:Et; simpl; rewrite Eb; simpl.
  - eexists. split; [|reflexivity]. unfold wf_world. simpl.
    split; [done|]. split; [done|]. split; [done|]. split; [done|].
    apply Z.eqb_eq in Et. rewrite Et. by right.
  - eexists. split; [|reflexivity]. unfold wf_world. simpl.
    split; [done|]. split; [done|]. split; [done|]. split; [done|].
    apply Z.eqb_neq in Et. destruct Hturn as [? | ->]; [done | by left].
Qed.

Lemma step_apply_wf fuel next_pos dir t w x w' :
  wf_world w → in_bounds (board_size w) next_pos → 0 ≤ dir ≤ 3 →
  arr_bits (chess_board w) next_pos.1 next_pos.2 dir = false →
  step_apply fuel next_pos dir t w = (Ok x, w') →
  wf_world w'.
Proof.
  intros Hw Hnext Hd Hopen H.
  destruct (log_move w dir t) as [[]|e] eqn:Elog.
  - destruct (step_apply_unfold fuel next_pos dir t w Hw Hnext Hd Hopen)
      as (w3 & Hw3 & E); [by rewrite Elog|].
    rewrite E in H. destruct (check_endgame fuel w3); [|discriminate].
    injection H as _ <-. exact Hw3.
  - unfold step_apply in H. st_unfold. rewrite Elog in H. discriminate.
Qed.

Lemma wf_world_update_player_time t w :
  wf_world w → wf_world (update_player_time t w).
Proof.
  unfold wf_world, update_player_time. destruct (turn w =? 0); simpl; auto.
Qed.

(** The players' positions, as [get_current_player] hands them out. *)
Lemma get_current_player_in_bounds w cur_player cur_pos adv_pos :
  wf_world w → get_current_player w = (cur_player, cur_pos, adv_pos) →
  in_bounds (board_size w) cur_pos ∧ in_bounds (board_size w) adv_pos.
Proof.
  intros (_ & H0 & H1 & _). unfold get_current_player.
  destruct (turn w =? 0); intros [= <- <- <-]; auto.
Qed.

(** A turn that returns leaves a well-formed world. *)
Lemma step_wf fuel call w x w' :
  wf_world w → step fuel call w = (Ok x, w') → wf_world w'.
Proof.
  intros Hw. unfold step.
  destruct (get_current_player w) as [[cur_player cur_pos] adv_pos] eqn:Ecur.
  destruct (get_current_player_in_bounds w _ _ _ Hw Ecur) as [Hcur Hadv].
  destruct (step_try fuel call cur_pos w) as [[attempt t] w1] eqn:Etry.
  assert (wf_world w1 ∧ board_size w1 = board_size w ∧
          match attempt with
          | Ok (next_pos, dir) =>
              in_bounds (board_size w1) next_pos ∧ 0 ≤ dir ≤ 3 ∧
              arr_bits (chess_board w1) next_pos.1 next_pos.2 dir = false
          | Raise _ => True
          end) as (Hw1 & Hsize & Hattempt).
  { unfold step_try in Etry.
    destruct call as [e | [next_pos dir | | e] elapsed]; simplify_eq; auto.
    - pose proof (wf_world_update_player_time elapsed w Hw) as Hw1.
      destruct (update_player_time_params elapsed w) as (_ & Hsz & _).
      split; [done|]. split; [done|].
      destruct (negb (check_boundary _ next_pos)) eqn:Ebound; [done|].
      destruct (negb ((0 <=? dir) && (dir <=? 3))) eqn:Edir; [done|].
      cbv [mbind res_mbind res_bind].
      destruct (check_valid_step _ _ _ _ _) as [[|]|] eqn:Evalid; try done.
      apply check_valid_step_on_true in Evalid.
      apply negb_false_iff in Ebound, Edir.
      unfold check_boundary in Ebound. destruct next_pos as [r c].
      assert (in_bounds (board_size (update_player_time elapsed w)) (r, c))
        as Hin by (unfold in_bounds; simpl; lia).
      split; [done|]. split; [lia|].
      destruct Hw1 as ((Hn & _) & _). destruct Hin.
      rewrite arr_get_in in Evalid by lia. by injection Evalid.
    - split; [by apply wf_world_update_player_time|].
      by destruct (update_player_time_params elapsed w) as (_ & Hsz & _). }
  destruct attempt as [[next_pos dir] | e].
  - destruct Hattempt as (Hnext & Hd & Hopen). by apply step_apply_wf.
  - destruct (step_except _ _ _ _ _) as [[[next_pos dir]|e'] w2] eqn:Eexc;
      [|discriminate].
    unfold step_except in Eexc. destruct e as [name|]; [|discriminate].
    destruct (_ || _); [discriminate|].
    unfold random_walk, on_rng in Eexc.
    destruct (random_walk_on _ _ _ _ _) as [[mv|] g'] eqn:Ewalk; [|discriminate].
    injection Eexc as -> <-.
    destruct Hw1 as (Hwf1 & H0 & H1 & Hms & Hturn).
    apply (random_walk_on_ok (board_size w1)) in Ewalk
      as (Hnext & Hd & Hopen); [|done | by rewrite Hsize].
    by apply step_apply_wf.
Qed.

(** The part of the fallback protocol that the code does carry out: when
    the collaborator's call has returned, so that [time_taken] is bound,
    and the move fails a check with an exception that is not a request to
    exit, the turn completes with the move drawn by [random_walk]. *)
Lemma step_falls_back_after_return fuel call w cur_player cur_pos adv_pos
    name t w1 :
  wf_world w →
  2 * board_size w * board_size w < Z.of_nat fuel →
  get_current_player w = (cur_player, cur_pos, adv_pos) →
  (∃ d, 0 ≤ d ≤ 3 ∧ arr_bits (chess_board w) cur_pos.1 cur_pos.2 d = false) →
  step_try fuel call cur_pos w = (Raise (PyExn name), Some t, w1) →
  (name_in "SystemExit" name && is_human cur_player)
    || name_in "KeyboardInterrupt" name = false →
  ∃ mv w2 results w',
    random_walk cur_pos adv_pos w1 = (Ok mv, w2) ∧
    step fuel call w = (Ok results, w') ∧
    wf_world w'.
Proof.
  intros Hw Hfuel Ecur Hfree Etry Hname.
  destruct (get_current_player_in_bounds w _ _ _ Hw Ecur) as [Hcur Hadv].
  assert (wf_world w1 ∧ board_size w1 = board_size w ∧
          chess_board w1 = chess_board w) as (Hw1 & Hsize & Hboard).
  { apply step_try_params in Etry as Hparams.
    destruct Hparams as (_ & Hsz & Hb & _). split; [|done].
    unfold step_try in Etry.
    destruct call as [e | [next_pos dir | | e] elapsed]; simplify_eq;
      by apply wf_world_update_player_time. }
  pose proof Hw1 as (Hwf1 & H0 & H1 & Hms & Hturn).
  pose proof Hwf1 as (Hn & Hpos & _).
  assert (0 ≤ max_step w1) as Hmax.
  { rewrite Hms. apply Z.div_pos; lia. }
  destruct (random_walk_on_total (board_size w1) (chess_board w1) (max_step w1)
              cur_pos adv_pos (rng w1))
    as ([dest dir] & g' & Ewalk); [done | by rewrite Hsize | done
                                   | by rewrite Hboard |].
  pose proof Ewalk as Hmv.
  apply (random_walk_on_ok (board_size w1)) in Hmv
    as (Hdest & Hd & Hopen); [|done | by rewrite Hsize].
  set (w2 := set_rng g' w1).
  assert (random_walk cur_pos adv_pos w1 = (Ok (dest, dir), w2)) as Erw.
  { unfold random_walk, on_rng. by rewrite Ewalk. }
  assert (wf_world w2) as Hw2 by done.
  destruct (step_apply_unfold fuel dest dir (Some t) w2 Hw2 Hdest Hd Hopen)
    as (w3 & Hw3 & Eapply).
  { unfold log_move. simpl.
    destruct Hturn as [-> | ->]; simpl;
      (destruct ((0 <=? dir) && (dir <=? 3)) eqn:E; [done | lia]). }
  assert (board_size w3 = board_size w) as Hsize3.
  { unfold step_apply in Eapply.
    assert (∀ x w', step_apply fuel dest dir (Some t) w2 = (x, w') →
              board_size w' = board_size w2) as Hkeep
      by (intros x w' H; by apply step_apply_params in H as [_ ?]).
    destruct (check_endgame fuel w3) as [results|e] eqn:Eend.
    - apply Hkeep in Eapply. simpl in Eapply. by rewrite Eapply.
    - apply Hkeep in Eapply. by rewrite Eapply. }
  destruct Hw3 as (Hwf3 & H03 & H13 & Hms3 & Hturn3).
  destruct (check_endgame_on_spec fuel (board_size w3) (chess_board w3)
              (p0_pos w3) (p1_pos w3) Hwf3 H03 H13)
    as (ended & s0 & s1 & Eend & _); [by rewrite Hsize3|].
  unfold check_endgame in Eapply. rewrite Eend in Eapply.
  exists (dest, dir), w2. eexists _, _. split; [exact Erw|]. split.
  - unfold step. rewrite Ecur, Etry. unfold step_except. rewrite Hname, Erw.
    exact Eapply.
  - unfold wf_world. simpl. auto.
Qed.

(** The boolean test of well-formedness accepts every well-formed
    board, so the two forms of the hypothesis are interchangeable. *)
Lemma wf_board_wf_boardb (n : Z) (b : ndarray) :
  wf_board n b → wf_boardb n b = true.
Proof.
  intros (Hn & Hpos & Hborder & Hmirror). unfold wf_boardb.
  rewrite !andb_true_iff, !forallb_forall.
  split; [split; [split; [lia | lia]|]|].
  - intros i Hi. apply list_elem_of_In, elem_of_range in Hi.
    destruct (Hborder i Hi) as (-> & -> & -> & ->). reflexivity.
  - intros [r c] Hp. apply list_elem_of_In, elem_of_cells in Hp as [Hr Hc].
    simpl in *. destruct (Hmirror r c Hr Hc) as [Hv Hh].
    apply andb_true_iff. split.
    + destruct (r + 1 <? n) eqn:E; [|reflexivity]. simpl.
      apply bool_decide_eq_true, Hv. lia.
    + destruct (c + 1 <? n) eqn:E; [|reflexivity]. simpl.
      apply bool_decide_eq_true, Hh. lia.
Qed.

Example name_in_examples :
  name_in "SystemExit" "SystemExit" = true ∧
  name_in "KeyboardInterrupt" "ValueError" = false ∧
  name_in "KeyboardInterrupt" "MyKeyboardInterruptError" = true.
Proof. repeat split. Qed.

(** * Further properties of the engine *)

Lemma wf_worldb_spec (w : World) : wf_worldb w = true ↔ wf_world w.
Proof.
  unfold wf_worldb, wf_world. rewrite !andb_true_iff, orb_true_iff.
  rewrite !in_boundsb_spec, !Z.eqb_eq. split.
  - intros ((((Hb & H0) & H1) & Hm) & Ht).
    split; [by apply wf_boardb_spec|]. auto.
  - intros (Hb & H0 & H1 & Hm & Ht).
    split; [|done]. split; [|done]. split; [|done]. split; [|done].
    by apply wf_board_wf_boardb.
Qed.

Lemma get_current_player_eq (w : World) :
  get_current_player w = (mover_agent w, mover_pos w, waiting_pos w).
Proof.
  unfold get_current_player, mover_agent, mover_pos, waiting_pos.
  by destruct (turn w =? 0).
Qed.

(** The statements after the [try], written out, when the log line and
    the wall placement go through. *)
Lemma step_apply_explicit fuel next_pos dir t w b' :
  is_ok (log_move w dir t) = true →
  set_barrier_arr next_pos.1 next_pos.2 dir (chess_board w) = (Ok tt, b') →
  step_apply fuel next_pos dir t w =
    let w3 :=
      set_turn (1 - turn w)
        (set_chess_board b'
           ((if turn w =? 0 then set_p0_pos next_pos else set_p1_pos next_pos) w))
    in
    match check_endgame fuel w3 with
    | Ok results => (Ok results, set_results_cache (Some results) w3)
    | Raise e => (Raise e, w3)
    end.
Proof.
  intros Hlog Eb. destruct next_pos as [r c]. simpl in Eb.
  unfold step_apply. st_unfold.
  destruct (log_move w dir t); [|discriminate].
  unfold set_barrier, on_board.
  destruct (turn w =? 0); simpl; rewrite Eb; reflexivity.
Qed.

(** What a turn that returns has done. *)
Lemma step_ok_inv fuel call w x w' :
  wf_world w → step fuel call w = (Ok x, w') →
  ∃ v elapsed next_pos dir b',
    call = AgentReturns v elapsed ∧
    in_bounds (board_size w) next_pos ∧ 0 ≤ dir ≤ 3 ∧
    arr_bits (chess_board w) next_pos.1 next_pos.2 dir = false ∧
    ((v = RetMove next_pos dir ∧
      check_valid_step fuel (update_player_time elapsed w)
        (mover_pos w) next_pos dir = Ok true) ∨
     (∃ g', random_walk_on (chess_board w) (max_step w)
              (mover_pos w) (waiting_pos w) (rng w) = (Ok (next_pos, dir), g'))) ∧
    set_barrier_arr next_pos.1 next_pos.2 dir (chess_board w) = (Ok tt, b') ∧
    wf_board (board_size w) b' ∧
    chess_board w' = b' ∧
    board_size w' = board_size w ∧
    turn w' = 1 - turn w ∧
    waiting_pos w' = next_pos ∧
    mover_pos w' = waiting_pos w ∧
    waiting_time w' = mover_time w ++ [elapsed] ∧
    mover_time w' = waiting_time w ∧
    results_cache w' = Some x ∧
    check_endgame fuel w' = Ok x.
Proof.
  intros Hw. pose proof Hw as (Hwf & H0 & H1 & Hms & Hturn).
  unfold step. rewrite get_current_player_eq.
  destruct (step_try fuel call (mover_pos w) w) as [[attempt t] w1] eqn:Etry.
  (* the world and the local after the [try] *)
  assert ((∃ v elapsed,
             call = AgentReturns v elapsed ∧ t = Some elapsed ∧
             w1 = update_player_time elapsed w ∧
             match attempt with
             | Ok mv => v = RetMove mv.1 mv.2 ∧
                        check_valid_step fuel w1 (mover_pos w) mv.1 mv.2 = Ok true ∧
                        check_boundary w1 mv.1 = true ∧ 0 ≤ mv.2 ≤ 3
             | Raise _ => True
             end) ∨ t = None) as Htry.
  { unfold step_try in Etry.
    destruct call as [e | [next_pos dir | | e] elapsed]; simplify_eq;
      [by right | | by right | left; by eexists _, _].
    left. exists (RetMove next_pos dir), elapsed.
    split; [done|]. split; [done|]. split; [done|].
    destruct (negb (check_boundary _ next_pos)) eqn:Ebound; [done|].
    destruct (negb ((0 <=? dir) && (dir <=? 3))) eqn:Edir; [done|].
    cbv [mbind res_mbind res_bind].
    destruct (check_valid_step _ _ _ _ _) as [[|]|] eqn:Evalid; try done.
    simpl. apply negb_false_iff in Ebound, Edir. split; [done|].
    split; [done|]. split; [done|]. lia. }
  destruct Htry as [(v & elapsed & -> & -> & -> & Hattempt) | ->].
  2:{ (* [time_taken] unbound: the turn cannot return *)
      intros H. exfalso.
      assert (is_ok (Ok (A := bool * Z * Z) x) = false); [|done].
      destruct attempt as [[next_pos dir] | e].
      - pose proof (step_apply_unbound fuel next_pos dir w1) as Hu.
        by rewrite H in Hu.
      - destruct (step_except _ _ _ _ _) as [[[next_pos dir]|e'] w2].
        + pose proof (step_apply_unbound fuel next_pos dir w2) as Hu.
          by rewrite H in Hu.
        + discriminate. }
  set (w1 := update_player_time elapsed w) in *.
  pose proof (wf_world_update_player_time elapsed w Hw) as Hw1.
  destruct (update_player_time_params elapsed w)
    as (Hms1 & Hsz1 & Hb1 & Hp01 & Hp11 & Ht1).
  fold w1 in Hms1, Hsz1, Hb1, Hp01, Hp11, Ht1.
  (* the move that is applied, in the world [w2] it is applied to *)
  assert (∀ w2 next_pos dir,
            wf_world w2 → chess_board w2 = chess_board w →
            board_size w2 = board_size w → turn w2 = turn w →
            p0_pos w2 = p0_pos w → p1_pos w2 = p1_pos w →
            p0_time w2 = p0_time w1 → p1_time w2 = p1_time w1 →
            in_bounds (board_size w) next_pos → 0 ≤ dir ≤ 3 →
            arr_bits (chess_board w) next_pos.1 next_pos.2 dir = false →
            step_apply fuel next_pos dir (Some elapsed) w2 = (Ok x, w') →
            ∃ b',
              set_barrier_arr next_pos.1 next_pos.2 dir (chess_board w)
                = (Ok tt, b') ∧
              wf_board (board_size w) b' ∧
              chess_board w' = b' ∧
              board_size w' = board_size w ∧
              turn w' = 1 - turn w ∧
              waiting_pos w' = next_pos ∧
              mover_pos w' = waiting_pos w ∧
              waiting_time w' = mover_time w ++ [elapsed] ∧
              mover_time w' = waiting_time w ∧
              results_cache w' = Some x ∧
              check_endgame fuel w' = Ok x) as Happly.
  { intros w2 next_pos dir Hw2 Eb Esz Et Ep0 Ep1 Et0 Et1 Hnext Hd Hopen H.
    destruct (open_edge_inside _ _ next_pos dir Hwf Hnext Hd Hopen) as [Hnb _].
    destruct next_pos as [r c].
    destruct (set_barrier_arr_wf _ _ r c dir Hwf Hnext Hd Hnb)
      as (b' & Eset & Hwf').
    exists b'. split; [exact Eset|]. split; [exact Hwf'|].
    rewrite (step_apply_explicit fuel (r, c) dir (Some elapsed) w2 b') in H.
    2:{ unfold log_move. rewrite Et.
        destruct Hturn as [-> | ->]; simpl;
          (destruct ((0 <=? dir) && (dir <=? 3)) eqn:E; [done | lia]). }
    2:{ by rewrite Eb. }
    cbv zeta in H.
    destruct (check_endgame fuel _) as [results|e] eqn:Eend; [|discriminate].
    injection H as <- <-.
    unfold waiting_pos, mover_pos, waiting_time, mover_time, w1,
      update_player_time in *.
    unfold check_endgame in *. simpl in *. rewrite Et in *.
    destruct Hturn as [Ht | Ht]; rewrite Ht in *; simpl in *;
      rewrite ?Et0, ?Et1, ?Ep0, ?Ep1, ?Esz in Eend |- *; repeat split; done. }
  destruct attempt as [[next_pos dir] | e].
  - destruct Hattempt as (-> & Hvalid & Hbound & Hd). simpl in *.
    intros H.
    assert (in_bounds (board_size w) next_pos) as Hnext.
    { unfold check_boundary in Hbound. destruct next_pos as [r c].
      rewrite Hsz1 in Hbound. unfold in_bounds. simpl. lia. }
    assert (arr_bits (chess_board w) next_pos.1 next_pos.2 dir = false) as Hopen.
    { pose proof Hvalid as Hv. unfold check_valid_step in Hv.
      apply check_valid_step_on_true in Hv. rewrite Hb1 in Hv.
      destruct Hwf as (Hn & _). destruct Hnext.
      rewrite arr_get_in in Hv by lia. by injection Hv. }
    destruct (Happly w1 next_pos dir) as (b' & Hrest); auto.
    exists (RetMove next_pos dir), elapsed, next_pos, dir, b'.
    split; [done|]. split; [done|]. split; [done|]. split; [done|].
    split; [left; done|]. exact Hrest.
  - destruct (step_except _ _ _ _ _) as [[[next_pos dir]|e'] w2] eqn:Eexc;
      [|discriminate].
    intros H.
    unfold step_except in Eexc. destruct e as [name|]; [|discriminate].
    destruct (_ || _); [discriminate|].
    unfold random_walk, on_rng in Eexc.
    destruct (random_walk_on _ _ _ _ _) as [[mv|] g'] eqn:Ewalk; [|discriminate].
    injection Eexc as -> <-.
    rewrite Hb1, Hms1 in Ewalk.
    assert (rng w1 = rng w) as Hrng.
    { unfold w1, update_player_time. by destruct (turn w =? 0). }
    rewrite Hrng in Ewalk.
    pose proof Ewalk as Hmv.
    apply (random_walk_on_ok (board_size w)) in Hmv
      as (Hnext & Hd & Hopen); [|done |].
    2:{ unfold mover_pos. by destruct (turn w =? 0). }
    destruct (Happly (set_rng g' w1) next_pos dir) as (b' & Hrest); auto.
    exists v, elapsed, next_pos, dir, b'.
    split; [done|]. split; [done|]. split; [done|]. split; [done|].
    split; [right; eauto|]. exact Hrest.
Qed.

Lemma pair_of_fst {A B} (p : A * B) (a : A) : p.1 = a → p = (a, p.2).
Proof. destruct p. simpl. by intros ->. Qed.

(** ** The constructor *)

(** X1: a world returned by the constructor is well-formed (the array
    has the board's shape, the outer edges are walled, wall bits are
    mirrored, both players stand on the board, the budget is
    (N + 1) // 2), it is player 0's turn, no time has been recorded and no
    result is cached. *)
Theorem World_init_returns_wf_world registry min_size max_size player_1
    player_2 size want_autoplay fuel g w :
  (World_init registry min_size max_size player_1 player_2 size want_autoplay
     fuel g).1 = Ok w →
  wf_worldb w = true ∧ turn w = 0 ∧
  p0_time w = [] ∧ p1_time w = [] ∧ results_cache w = None ∧
  initial_end w = false.
Proof.
  intros H. apply pair_of_fst in H.
  split; [by eapply wf_worldb_spec, World_init_wf|].
  unfold World_init in H. st_unfold.
  repeat case_match; simplify_eq; auto.
Qed.

Lemma World_init_returns_wf_world_witness :
  ∃ w, (World_init example_registry 6 12 "a" "b" (Some 4) false 100
          example_rng).1 = Ok w ∧
       wf_worldb w = true.
Proof.
  eexists. split; [vm_compute; reflexivity|].
  eapply (World_init_returns_wf_world example_registry 6 12 "a" "b" (Some 4)
            false 100 example_rng).
  vm_compute. reflexivity.
Defined.

(** X2: with an unregistered player name, or with autoplay requested
    from an agent that does not support it, the constructor raises
    [ValueError] before it draws anything from the random source. *)
Theorem World_init_rejects_agents registry min_size max_size player_1
    player_2 size want_autoplay fuel g :
  registry player_1 = None ∨ registry player_2 = None ∨
  (∃ a0 a1, registry player_1 = Some a0 ∧ registry player_2 = Some a1 ∧
            want_autoplay = true ∧
            (autoplay a0 = false ∨ autoplay a1 = false)) →
  World_init registry min_size max_size player_1 player_2 size want_autoplay
    fuel g = (Raise ValueError, g).
Proof.
  unfold World_init. intros [-> | [H | (a0 & a1 & -> & -> & -> & Hauto)]].
  - reflexivity.
  - rewrite H. by destruct (registry player_1).
  - destruct Hauto as [-> | ->]; [reflexivity|].
    by destruct (autoplay a0).
Qed.

Lemma World_init_rejects_agents_witness :
  World_init (λ _, None) 6 12 "a" "b" (Some 4) false 100 example_rng
    = (Raise ValueError, example_rng).
Proof. apply World_init_rejects_agents. by left. Defined.

(** X3: when no board size is given, the size is drawn from the
    half-open range: it is at least [min_size] and strictly less than
    [max_size], and it is positive. *)
Theorem World_init_random_size registry min_size max_size player_1 player_2
    want_autoplay fuel g w :
  (World_init registry min_size max_size player_1 player_2 None want_autoplay
     fuel g).1 = Ok w →
  min_size ≤ board_size w < max_size ∧ 0 < board_size w.
Proof.
  intros H. apply pair_of_fst in H.
  pose proof (World_init_wf _ _ _ _ _ _ _ _ _ _ _ H) as ((_ & Hpos & _) & _).
  split; [|done]. clear Hpos.
  unfold World_init in H. st_unfold.
  destruct (registry player_1) as [a0|]; [|discriminate].
  destruct (registry player_2) as [a1|]; [|discriminate].
  destruct (want_autoplay && _); [discriminate|].
  destruct (randint min_size max_size g) as [[n|] g1] eqn:E; [|discriminate].
  apply randint_range in E.
  repeat case_match; simplify_eq; simpl; lia.
Qed.

Lemma World_init_random_size_witness :
  ∃ w, (World_init example_registry 6 12 "a" "b" None false 100
          example_rng).1 = Ok w ∧
       6 ≤ board_size w < 12.
Proof.
  eexists. split; [vm_compute; reflexivity|].
  eapply (World_init_random_size example_registry 6 12 "a" "b" false 100
            example_rng).
  vm_compute. reflexivity.
Defined.

(** ** Wall placement, again *)

(** X4: a wall placed on an edge between two cells of a well-formed
    board leaves the board well-formed: the outer walls stay and the two
    sides of every interior edge still agree. *)
Theorem set_barrier_keeps_board_wf (w : World) (r c dir : Z) :
  wf_boardb (board_size w) (chess_board w) = true →
  in_boundsb (board_size w) (r, c) = true →
  (0 <=? dir) && (dir <=? 3) = true →
  in_boundsb (board_size w) (neighbor (r, c) dir) = true →
  (set_barrier r c dir w).1 = Ok tt ∧
  wf_boardb (board_size w) (chess_board (set_barrier r c dir w).2) = true.
Proof.
  intros Hwf Hrc Hd Hnb. apply wf_boardb_spec in Hwf.
  apply in_boundsb_spec in Hrc, Hnb. apply andb_true_iff in Hd as [Hd1 Hd2].
  destruct (set_barrier_arr_wf _ _ r c dir Hwf Hrc ltac:(lia) Hnb)
    as (b' & E & Hwf').
  unfold set_barrier, on_board. rewrite E. simpl.
  split; [done | by apply wf_board_wf_boardb].
Qed.

Lemma set_barrier_keeps_board_wf_witness :
  wf_boardb 4 (chess_board (set_barrier 1 1 2 example_start).2) = true.
Proof.
  apply (set_barrier_keeps_board_wf example_start 1 1 2); reflexivity.
Defined.

Ltac rewrite_matches :=
  repeat (cbn -[norm_index moves opposites bits_set];
          match goal with
          | H : ?t = _ |- context [match ?t with _ => _ end] => rewrite H
          end);
  cbn -[norm_index moves opposites bits_set].

(** X5: placing the same wall a second time changes nothing: the second
    call has the outcome of the first and leaves every bit and the shape
    of the array as the first call left them.  This holds for every
    argument, also where the call raises. *)
Theorem set_barrier_idempotent (w : World) (r c dir : Z) :
  let first := set_barrier r c dir w in
  let second := set_barrier r c dir first.2 in
  second.1 = first.1 ∧
  arr_n (chess_board second.2) = arr_n (chess_board first.2) ∧
  ∀ r' c' d',
    arr_bits (chess_board second.2) r' c' d' =
    arr_bits (chess_board first.2) r' c' d'.
Proof.
  assert (∀ (f : Z → Z → Z → bool) r1 c1 d1 r2 c2 d2 r' c' d',
            bits_set (bits_set (bits_set (bits_set f r1 c1 d1 true)
                                  r2 c2 d2 true) r1 c1 d1 true)
              r2 c2 d2 true r' c' d' =
            bits_set (bits_set f r1 c1 d1 true) r2 c2 d2 true r' c' d')
    as Htwice.
  { intros. unfold bits_set.
    destruct ((r' =? r2) && (c' =? c2) && (d' =? d2)); [done|].
    by destruct ((r' =? r1) && (c' =? c1) && (d' =? d1)). }
  assert (∀ (f : Z → Z → Z → bool) r1 c1 d1 r' c' d',
            bits_set (bits_set f r1 c1 d1 true) r1 c1 d1 true r' c' d' =
            bits_set f r1 c1 d1 true r' c' d') as Honce.
  { intros. unfold bits_set.
    by destruct ((r' =? r1) && (c' =? c1) && (d' =? d1)). }
  unfold set_barrier, on_board, set_barrier_arr, arr_set. st_unfold.
  destruct (norm_index (arr_n (chess_board w)) r) as [r1|] eqn:E1;
    rewrite_matches; [|done].
  destruct (norm_index (arr_n (chess_board w)) c) as [c1|] eqn:E2;
    rewrite_matches; [|done].
  destruct (norm_index 4 dir) as [d1|] eqn:E3; rewrite_matches; [|done].
  destruct (moves dir) as [m|] eqn:E4; rewrite_matches;
    [|split; [done|]; split; [done|]; intros; apply Honce].
  destruct (opposites dir) as [o|] eqn:E5; rewrite_matches;
    [|split; [done|]; split; [done|]; intros; apply Honce].
  destruct (norm_index (arr_n (chess_board w)) (r + m.1)) as [r2|] eqn:E6;
    rewrite_matches;
    [|split; [done|]; split; [done|]; intros; apply Honce].
  destruct (norm_index (arr_n (chess_board w)) (c + m.2)) as [c2|] eqn:E7;
    rewrite_matches;
    [|split; [done|]; split; [done|]; intros; apply Honce].
  destruct (norm_index 4 o) as [d2|] eqn:E8; rewrite_matches;
    [|split; [done|]; split; [done|]; intros; apply Honce].
  split; [done|]. split; [done|]. intros. apply Htwice.
Qed.

(** ** What a completed turn does *)

Lemma set_barrier_arr_bits (n : Z) (b b' : ndarray) (r c dir : Z) :
  arr_n b = n → in_bounds n (r, c) → 0 ≤ dir ≤ 3 →
  in_bounds n (neighbor (r, c) dir) →
  set_barrier_arr r c dir b = (Ok tt, b') →
  arr_bits b' r c dir = true ∧
  arr_bits b' (neighbor (r, c) dir).1 (neighbor (r, c) dir).2 (opposite dir)
    = true ∧
  ∀ r' c' d',
    (r', c', d') ≠ (r, c, dir) →
    (r', c', d') ≠
      ((neighbor (r, c) dir).1, (neighbor (r, c) dir).2, opposite dir) →
    arr_bits b' r' c' d' = arr_bits b r' c' d'.
Proof.
  intros Hn [Hr Hc] Hd Hnb. simpl in Hr, Hc.
  rewrite set_barrier_arr_in by (rewrite ?Hn; auto).
  intros [= <-]. simpl. split; [|split].
  - apply bits_set_true, bits_set_eq.
  - apply bits_set_eq.
  - intros r' c' d' H1 H2. rewrite bits_set_ne by done. by apply bits_set_ne.
Qed.



(** X7: a turn that returns leaves a well-formed world, so that the
    next turn starts from one. *)
Theorem step_keeps_wf_world (fuel : nat) (call : outcome) (w : World)
    (x : bool * Z * Z) :
  wf_worldb w = true →
  (step fuel call w).1 = Ok x →
  wf_worldb (step fuel call w).2 = true.
Proof.
  intros Hw H. apply wf_worldb_spec in Hw. apply pair_of_fst in H.
  apply wf_worldb_spec. by eapply step_wf.
Qed.

Lemma step_keeps_wf_world_witness :
  wf_worldb (step 100 example_move example_start).2 = true.
Proof.
  apply (step_keeps_wf_world 100 example_move example_start (false, 16, 16)).
  - reflexivity.
  - vm_compute. reflexivity.
Defined.

(** X8: the triple a turn returns is what [check_endgame] computes on
    the world the turn leaves, and it is the cached result of that world. *)
Theorem step_returns_endgame_of_new_state (fuel : nat) (call : outcome)
    (w : World) (x : bool * Z * Z) :
  wf_worldb w = true →
  (step fuel call w).1 = Ok x →
  check_endgame fuel (step fuel call w).2 = Ok x ∧
  results_cache (step fuel call w).2 = Some x.
Proof.
  intros Hw H. apply wf_worldb_spec in Hw. apply pair_of_fst in H.
  destruct (step_ok_inv fuel call w x _ Hw H)
    as (v & elapsed & next_pos & dir & b' & _ & _ & _ & _ & _ & _ &
        _ & _ & _ & _ & _ & _ & _ & _ & Ecache & Eend).
  done.
Qed.

Lemma step_returns_endgame_of_new_state_witness :
  check_endgame 100 (step 100 example_move example_start).2
    = Ok (false, 16, 16).
Proof.
  apply (step_returns_endgame_of_new_state 100 example_move example_start
           (false, 16, 16)).
  - reflexivity.
  - vm_compute. reflexivity.
Defined.

(** X9: a turn returns only when the collaborator's call has returned,
    and then the elapsed time of the call has been appended to the list of
    the player who moved, while the other player's list is unchanged. *)
Theorem step_records_time (fuel : nat) (call : outcome) (w : World)
    (x : bool * Z * Z) :
  wf_worldb w = true →
  (step fuel call w).1 = Ok x →
  ∃ v elapsed,
    call = AgentReturns v elapsed ∧
    waiting_time (step fuel call w).2 = mover_time w ++ [elapsed] ∧
    mover_time (step fuel call w).2 = waiting_time w.
Proof.
  intros Hw H. apply wf_worldb_spec in Hw. apply pair_of_fst in H.
  destruct (step_ok_inv fuel call w x _ Hw H)
    as (v & elapsed & next_pos & dir & b' & -> & _ & _ & _ & _ & _ &
        _ & _ & _ & _ & _ & _ & Ewt & Emt & _).
  eauto.
Qed.

Lemma step_records_time_witness :
  ∃ v elapsed,
    example_move = AgentReturns v elapsed ∧
    waiting_time (step 100 example_move example_start).2
      = mover_time example_start ++ [elapsed].
Proof.
  destruct (step_records_time 100 example_move example_start (false, 16, 16))
    as (v & elapsed & Hcall & Htime & _).
  - reflexivity.
  - vm_compute. reflexivity.
  - exists v, elapsed. split; [exact Hcall | exact Htime].
Defined.

(** ** Moves never reach the opponent's cell *)

Lemma scan_moves_true_not_adv b adv end_pos cur cs ms q vis q' vis' :
  scan_moves b adv end_pos cur cs ms q vis = Ok (true, q', vis') →
  end_pos ≠ adv.
Proof.
  revert q vis. induction ms as [|[dir move] ms IH]; intros q vis;
    [discriminate|].
  cbn [scan_moves]. cbv [mbind res_mbind res_bind].
  destruct (arr_get b cur.1 cur.2 dir) as [[|]|]; [apply IH | | discriminate].
  destruct (bool_decide (pos_add cur move = adv)) eqn:Eadv; simpl;
    [apply IH|].
  destruct (bool_decide (pos_add cur move ∈ vis)); simpl; [apply IH|].
  destruct (bool_decide (pos_add cur move = end_pos)) eqn:Eend; [|apply IH].
  intros _. apply bool_decide_eq_true in Eend.
  apply bool_decide_eq_false in Eadv. by rewrite <- Eend.
Qed.

Lemma bfs_true_not_adv fuel b max_step adv end_pos q vis :
  bfs fuel b max_step adv end_pos q vis = Ok true → end_pos ≠ adv.
Proof.
  revert q vis. induction fuel as [|fuel IH]; intros q vis; [discriminate|].
  cbn [bfs]. destruct q as [|[cur cs] rest]; [discriminate|].
  destruct (cs =? max_step); [discriminate|].
  cbv [mbind res_mbind res_bind].
  destruct (scan_moves _ _ _ _ _ _ _ _) as [[[[|] q'] vis']|] eqn:E;
    [| apply IH | discriminate].
  intros _. by eapply scan_moves_true_not_adv.
Qed.

Lemma check_valid_step_true_dest fuel w start_pos end_pos barrier_dir :
  check_valid_step fuel w start_pos end_pos barrier_dir = Ok true →
  end_pos = start_pos ∨ end_pos ≠ waiting_pos w.
Proof.
  intros H. unfold check_valid_step, check_valid_step_on in H.
  cbv [mbind res_mbind res_bind] in H.
  destruct (arr_get _ _ _ _) as [[|]|]; try discriminate.
  destruct (bool_decide (start_pos = end_pos)) eqn:E.
  - left. by apply bool_decide_eq_true in E.
  - right. apply bfs_true_not_adv in H. exact H.
Qed.

(** X10: whatever the board, a move that [check_valid_step] accepts puts
    the wall in a slot that is free at the destination, and its destination
    is the start itself or a cell other than the opponent's. *)
Theorem check_valid_step_accepts_only (fuel : nat) (w : World)
    (start_pos end_pos : pos) (barrier_dir : Z) :
  check_valid_step fuel w start_pos end_pos barrier_dir = Ok true →
  arr_get (chess_board w) end_pos.1 end_pos.2 barrier_dir = Ok false ∧
  (end_pos = start_pos ∨ end_pos ≠ waiting_pos w).
Proof.
  intros H. split; [by eapply check_valid_step_on_true|].
  by eapply check_valid_step_true_dest.
Qed.

Lemma check_valid_step_accepts_only_witness :
  arr_get (chess_board example_start) 1 1 2 = Ok false ∧
  ((1, 1) = (0, 0) ∨ (1, 1) ≠ waiting_pos example_start).
Proof.
  apply (check_valid_step_accepts_only 100 example_start (0, 0) (1, 1) 2).
  vm_compute. reflexivity.
Defined.

Lemma bsteps_last {A} (R : relation A) (k : nat) (x y : A) :
  bsteps R k x y → x = y ∨ ∃ z, R z y.
Proof.
  induction 1 as [k x | k x y z Hxy _ IH]; [by left|].
  right. destruct IH as [<- | IH]; eauto.
Qed.

Lemma random_walk_on_not_adv (n : Z) (b : ndarray) (max_step : Z)
    (my_pos adv_pos : pos) (g g' : Rng) (dest : pos) (dir : Z) :
  wf_board n b → in_bounds n my_pos → my_pos ≠ adv_pos →
  random_walk_on b max_step my_pos adv_pos g = (Ok (dest, dir), g') →
  dest ≠ adv_pos.
Proof.
  intros Hwf Hp Hne. unfold random_walk_on. st_unfold.
  destruct (randint 0 (max_step + 1) g) as [[steps|] g1]; [|discriminate].
  destruct (walk_loop_spec n b adv_pos (Z.to_nat steps) Hwf my_pos g1 Hp)
    as (q & g2 & -> & Hreach & _).
  destruct q as [r c].
  destruct (allowed_barriers _ _ _ _) as [l|]; [|discriminate].
  destruct (bool_decide _); [|discriminate].
  destruct (rand_choice l g2) as [[d|] g3]; [|discriminate].
  intros [= <- _ _].
  apply bsteps_last in Hreach as [<- | (z & _ & Hadv)]; done.
Qed.

(** Neither an accepted move nor a fallback move ends on the opponent's
    cell. *)
Lemma step_ok_apart fuel call w x w' :
  wf_world w → p0_pos w ≠ p1_pos w →
  step fuel call w = (Ok x, w') →
  p0_pos w' ≠ p1_pos w'.
Proof.
  intros Hw Hne H.
  destruct (step_ok_inv fuel call w x _ Hw H)
    as (v & elapsed & next_pos & dir & b' & _ & Hnext & _ & _ & Horigin & _ &
        _ & _ & _ & Et & Ewait & Emove & _).
  assert (mover_pos w ≠ waiting_pos w) as Hne'.
  { unfold mover_pos, waiting_pos. destruct (turn w =? 0); [done|].
    intros Heq. by apply Hne. }
  assert (next_pos ≠ waiting_pos w) as Hfree.
  { destruct Horigin as [[_ Hvalid] | [g' Hwalk]].
    - apply check_valid_step_true_dest in Hvalid as [-> | Hv]; [done|].
      unfold waiting_pos in *.
      destruct (update_player_time_params elapsed w)
        as (_ & _ & _ & -> & -> & ->) in Hv. exact Hv.
    - pose proof Hw as (Hwf & H0 & H1 & _).
      eapply (random_walk_on_not_adv (board_size w)); [done | | done | done].
      unfold mover_pos. by destruct (turn w =? 0). }
  rewrite <- Ewait, <- Emove in Hfree.
  unfold waiting_pos, mover_pos in Hfree.
  destruct (turn w' =? 0); [|done].
  intros Heq. by apply Hfree.
Qed.

(** ** Exit requests and rejected moves *)

(** X12: an exit request is passed on instead of being replaced by a
    random walk: when the collaborator's call raises an exception whose
    class name contains KeyboardInterrupt, or one whose class name contains
    SystemExit while the player to move is a human agent, the turn raises
    [SystemExit] and the world is left as it was, the random source
    included. *)
Theorem step_passes_exit_request (fuel : nat) (name : string) (w : World) :
  (name_in "SystemExit" name && is_human (mover_agent w))
    || name_in "KeyboardInterrupt" name = true →
  step fuel (AgentRaises (PyExn name)) w = (Raise SystemExit, w).
Proof.
  intros Hname. unfold step. rewrite get_current_player_eq.
  cbn [step_try step_except]. rewrite Hname. reflexivity.
Qed.

Lemma step_passes_exit_request_witness :
  step 100 (AgentRaises (PyExn "KeyboardInterrupt")) example_start
    = (Raise SystemExit, example_start).
Proof.
  apply (step_passes_exit_request 100 "KeyboardInterrupt" example_start).
  reflexivity.
Defined.

(** X13: a returned move that the engine rejects (a destination off the
    board, a direction outside 0..3, or a move [check_valid_step] refuses)
    does not fail the turn: in a well-formed world where the mover's cell
    has a side without a wall, the turn returns, and the move played is the
    one [random_walk] draws from the mover's cell. *)
Theorem step_replaces_rejected_move (fuel : nat) (w : World)
    (next_pos : pos) (dir elapsed : Z) :
  wf_worldb w = true →
  2 * board_size w * board_size w < Z.of_nat fuel →
  (∃ d, 0 ≤ d ≤ 3 ∧
        arr_bits (chess_board w) (mover_pos w).1 (mover_pos w).2 d = false) →
  check_boundary w next_pos = false ∨ ¬ 0 ≤ dir ≤ 3 ∨
    check_valid_step fuel w (mover_pos w) next_pos dir = Ok false →
  let call := AgentReturns (RetMove next_pos dir) elapsed in
  ∃ dest d g' x,
    random_walk_on (chess_board w) (max_step w) (mover_pos w) (waiting_pos w)
      (rng w) = (Ok (dest, d), g') ∧
    (step fuel call w).1 = Ok x ∧
    waiting_pos (step fuel call w).2 = dest ∧
    arr_bits (chess_board (step fuel call w).2) dest.1 dest.2 d = true.
Proof.
  intros Hw Hfuel Hfree Hbad call. apply wf_worldb_spec in Hw.
  set (w1 := update_player_time elapsed w).
  destruct (update_player_time_params elapsed w)
    as (Ems & Esz & Eb & Ep0 & Ep1 & Et). fold w1 in Ems, Esz, Eb, Ep0, Ep1, Et.
  assert (check_valid_step fuel w1 (mover_pos w) next_pos dir
          = check_valid_step fuel w (mover_pos w) next_pos dir) as Evalid.
  { unfold check_valid_step. by rewrite Ems, Eb, Ep0, Ep1, Et. }
  assert (check_boundary w1 next_pos = check_boundary w next_pos) as Ebound.
  { unfold check_boundary. by rewrite Esz. }
  assert (step_try fuel call (mover_pos w) w
          = (Raise ValueError, Some elapsed, w1)) as Etry.
  { unfold call. cbn [step_try]. fold w1. rewrite Ebound, Evalid.
    destruct Hbad as [-> | [Hd | ->]]; [done | | ].
    - destruct (check_boundary w next_pos); [|done]. simpl.
      destruct ((0 <=? dir) && (dir <=? 3)) eqn:E; [lia | done].
    - destruct (check_boundary w next_pos); [|done]. simpl.
      by destruct ((0 <=? dir) && (dir <=? 3)). }
  destruct (step_falls_back_after_return fuel call w _ _ _ _ _ _ Hw Hfuel
              (get_current_player_eq w) Hfree Etry)
    as (mv & w2 & x & w' & _ & Estep & _); [reflexivity|].
  destruct (step_ok_inv fuel call w x w' Hw Estep)
    as (v & t & dest & d & b' & Ecall & Hdest & Hd & Hopen & Horigin & Eset &
        _ & Eb' & _ & _ & Ewait & _).
  destruct Horigin as [[Ev Hok] | [g' Hwalk]].
  { exfalso. unfold call in Ecall. injection Ecall as <- <-.
    injection Ev as <- <-. fold w1 in Hok. rewrite Evalid in Hok.
    destruct Hbad as [Hb | [Hb | Hb]]; [| done | congruence].
    apply not_true_iff_false in Hb. apply Hb.
    unfold check_boundary. destruct next_pos as [r c].
    destruct Hdest as [Hr Hc]. simpl in Hr, Hc. lia. }
  exists dest, d, g', x. rewrite Estep. simpl.
  split; [exact Hwalk|]. split; [done|]. split; [exact Ewait|].
  rewrite Eb'. pose proof Hw as (Hwf & _). pose proof Hwf as (Hn & _).
  destruct (open_edge_inside _ _ dest d Hwf Hdest Hd Hopen) as [Hnb _].
  destruct dest as [r c].
  by destruct (set_barrier_arr_bits _ _ _ r c d Hn Hdest Hd Hnb Eset)
    as (? & _).
Qed.

Lemma step_replaces_rejected_move_witness :
  let call := AgentReturns (RetMove (3, 3) 0) 5 in
  ∃ dest d g' x,
    random_walk_on (chess_board example_start) (max_step example_start)
      (mover_pos example_start) (waiting_pos example_start)
      (rng example_start) = (Ok (dest, d), g') ∧
    (step 100 call example_start).1 = Ok x ∧
    waiting_pos (step 100 call example_start).2 = dest ∧
    arr_bits (chess_board (step 100 call example_start).2) dest.1 dest.2 d
      = true.
Proof.
  apply (step_replaces_rejected_move 100 example_start (3, 3) 0 5).
  - reflexivity.
  - vm_compute. reflexivity.
  - exists 1. split; [lia | reflexivity].
  - right. right. vm_compute. reflexivity.
Defined.

(** ** Every completed turn is a legal move *)

Lemma random_walk_on_reach (n : Z) (b : ndarray) (max_step : Z)
    (my_pos adv_pos : pos) (g g' : Rng) (dest : pos) (dir : Z) :
  wf_board n b → in_bounds n my_pos →
  random_walk_on b max_step my_pos adv_pos g = (Ok (dest, dir), g') →
  reachable_within n b adv_pos (Z.to_nat max_step) my_pos dest.
Proof.
  intros Hwf Hp. unfold random_walk_on. st_unfold.
  destruct (randint 0 (max_step + 1) g) as [[steps|] g1] eqn:Er;
    [|discriminate].
  apply randint_range in Er.
  destruct (walk_loop_spec n b adv_pos (Z.to_nat steps) Hwf my_pos g1 Hp)
    as (q & g2 & -> & Hreach & _).
  destruct q as [r c].
  destruct (allowed_barriers _ _ _ _) as [l|]; [|discriminate].
  destruct (bool_decide _); [|discriminate].
  destruct (rand_choice l g2) as [[d|] g3]; [|discriminate].
  intros [= <- _ _].
  eapply (bsteps_weaken (Z.to_nat steps)); [lia | exact Hreach].
Qed.

Lemma mover_pos_in_bounds (w : World) :
  wf_world w →
  in_bounds (board_size w) (mover_pos w) ∧
  in_bounds (board_size w) (waiting_pos w).
Proof.
  intros (_ & H0 & H1 & _). unfold mover_pos, waiting_pos.
  by destruct (turn w =? 0).
Qed.

(** The cell a completed turn moves to is within [max_step] legal steps of
    the mover's cell, whether the move came from the agent or from the
    random walk. *)
Lemma step_ok_reach fuel call w x w' :
  wf_world w → board_size w * board_size w < Z.of_nat fuel →
  step fuel call w = (Ok x, w') →
  reachable_within (board_size w) (chess_board w) (waiting_pos w)
    (Z.to_nat (max_step w)) (mover_pos w) (waiting_pos w').
Proof.
  intros Hw Hfuel H.
  destruct (step_ok_inv fuel call w x w' Hw H)
    as (v & elapsed & next_pos & dir & b' & _ & Hnext & Hd & Hopen & Horigin &
        _ & _ & _ & _ & _ & Ewait & _).
  rewrite Ewait. pose proof Hw as (Hwf & _ & _ & Hms & _).
  pose proof Hwf as (_ & Hpos & _).
  destruct (mover_pos_in_bounds w Hw) as [Hmover _].
  destruct Horigin as [[_ Hvalid] | [g' Hwalk]].
  - destruct (decide (next_pos = mover_pos w)) as [-> | Hne];
      [apply bsteps_refl|].
    unfold check_valid_step in Hvalid.
    destruct (update_player_time_params elapsed w)
      as (Ems & _ & Eb & Ep0 & Ep1 & Et).
    rewrite Ems, Eb, Ep0, Ep1, Et in Hvalid. fold (waiting_pos w) in Hvalid.
    destruct (check_valid_step_on_spec fuel (board_size w) (chess_board w)
                (max_step w) (waiting_pos w) (mover_pos w) next_pos dir)
      as (r & Er & Hr); try done.
    { rewrite Hms. apply Z.div_pos; lia. }
    rewrite Er in Hvalid. injection Hvalid as ->. by apply Hr.
  - by eapply random_walk_on_reach.
Qed.


(** ** A finished game stays finished *)

Lemma reach_connected (n : Z) (b : ndarray) (adv p q : pos) (k : nat) :
  reachable_within n b adv k p q → connected n b p q.
Proof.
  unfold reachable_within, connected.
  induction 1 as [k p | k p q e [Hadj _] _ IH]; [reflexivity|].
  etrans; [|exact IH]. by apply rtsc_lr.
Qed.

(** Adding walls joins no partitions. *)
Lemma connected_fewer_walls (n : Z) (b b' : ndarray) (x y : pos) :
  arr_n b = n → arr_n b' = n →
  (∀ r c d, arr_bits b' r c d = false → arr_bits b r c d = false) →
  connected n b' x y → connected n b x y.
Proof.
  intros Hn Hn' Hsub. unfold connected. apply rtsc_subrel. clear x y.
  intros x y (Hx & Hy & dir & Hd & Hopen & ->). apply rtsc_lr.
  split; [done|]. split; [done|]. exists dir. split; [done|].
  split; [|done]. destruct Hx as [Hr Hc].
  rewrite arr_get_in in Hopen |- * by (rewrite ?Hn, ?Hn'; lia).
  injection Hopen as Hopen. by rewrite (Hsub _ _ _ Hopen).
Qed.

Lemma connected_players (n : Z) (b : ndarray) (w : World) :
  connected n b (p0_pos w) (p1_pos w) ↔
  connected n b (mover_pos w) (waiting_pos w).
Proof.
  unfold mover_pos, waiting_pos, connected.
  destruct (turn w =? 0); [done|]. split; intros H; by symmetry.
Qed.

(** Players that are walled apart stay so when the mover moves by legal
    steps. *)
Lemma step_ok_stays_ended fuel call w score_a score_b x w' :
  wf_world w →
  2 * board_size w * board_size w < Z.of_nat fuel →
  check_endgame fuel w = Ok (true, score_a, score_b) →
  step fuel call w = (Ok x, w') →
  x.1.1 = true.
Proof.
  intros Hw Hfuel Hend H.
  pose proof Hw as (Hwf & H0 & H1 & _). pose proof Hwf as (Hn & Hpos & _).
  assert (board_size w * board_size w < Z.of_nat fuel) as Hfuel' by nia.
  pose proof (step_ok_reach fuel call w x w' Hw Hfuel' H) as Hreach.
  pose proof (step_wf fuel call w x w' Hw H) as Hw'.
  destruct (step_ok_inv fuel call w x w' Hw H)
    as (v & elapsed & next_pos & dir & b' & _ & Hnext & Hd & Hopen & _ & Eset &
        _ & Eb' & Esz & _ & Ewait & Emove & _ & _ & _ & Eend).
  (* before the turn the players are apart *)
  destruct (check_endgame_on_spec fuel (board_size w) (chess_board w)
              (p0_pos w) (p1_pos w) Hwf H0 H1 Hfuel)
    as (ended & s0 & s1 & E & Hended & _).
  unfold check_endgame in Hend. rewrite Hend in E. injection E as <- _ _.
  destruct Hended as [Hended _]. specialize (Hended eq_refl).
  (* after it they are joined unless the end is reported *)
  pose proof Hw' as (Hwf' & H0' & H1' & _).
  destruct (check_endgame_on_spec fuel (board_size w') (chess_board w')
              (p0_pos w') (p1_pos w') Hwf' H0' H1')
    as (ended' & s0' & s1' & E' & _ & Hjoined & _); [by rewrite Esz|].
  unfold check_endgame in Eend. rewrite Eend in E'. injection E' as ->.
  simpl. destruct ended'; [done|]. exfalso. apply Hended.
  destruct Hjoined as [Hjoined _]. specialize (Hjoined eq_refl).
  rewrite Esz in Hjoined.
  apply connected_players. apply connected_players in Hjoined.
  rewrite Ewait, Emove in Hjoined.
  etrans; [by eapply reach_connected|]. rewrite Ewait. symmetry.
  apply (connected_fewer_walls _ _ (chess_board w')); [done | | | done].
  { destruct Hwf' as [Hn' _]. by rewrite <- Esz. }
  intros r c d Hbit. rewrite Eb' in Hbit.
  destruct (open_edge_inside _ _ next_pos dir Hwf Hnext Hd Hopen) as [Hnb _].
  destruct next_pos as [nr nc].
  destruct (set_barrier_arr_bits _ _ _ nr nc dir Hn Hnext Hd Hnb Eset)
    as (B1 & B2 & B3).
  destruct (decide ((r, c, d) = (nr, nc, dir))) as [Heq | N1];
    [injection Heq as -> -> ->; congruence|].
  destruct (decide ((r, c, d) =
                    ((neighbor (nr, nc) dir).1, (neighbor (nr, nc) dir).2,
                     opposite dir))) as [Heq | N2];
    [injection Heq as -> -> ->; unfold neighbor, pos_add in B2;
     cbn [fst snd] in B2; congruence|].
  by rewrite <- B3.
Qed.


(** ** The scores *)

Lemma partition_unique (n : Z) (b : ndarray) (p : pos) (s s' : gset pos) :
  is_partition_of n b p s → is_partition_of n b p s' → s = s'.
Proof. intros H H'. apply set_eq. intros x. by rewrite (H x), (H' x). Qed.

(** X16: which player is called player 0 does not matter to
    [check_endgame]: with the two positions exchanged it returns the same
    flag and the two scores exchanged. *)
Theorem check_endgame_swap (fuel : nat) (w : World) :
  wf_boardb (board_size w) (chess_board w) = true →
  in_bounds (board_size w) (p0_pos w) →
  in_bounds (board_size w) (p1_pos w) →
  2 * board_size w * board_size w < Z.of_nat fuel →
  ∃ (ended : bool) (score_a score_b : Z),
    check_endgame fuel w = Ok (ended, score_a, score_b) ∧
    check_endgame fuel (swap_positions w) = Ok (ended, score_b, score_a).
Proof.
  intros Hwfb H0 H1 Hfuel. apply wf_boardb_spec in Hwfb as Hwf.
  destruct (check_endgame_on_spec fuel _ _ _ _ Hwf H0 H1 Hfuel)
    as (ended & s0 & s1 & E & Hended & _ & Hs0 & Hs1).
  destruct (check_endgame_on_spec fuel _ _ _ _ Hwf H1 H0 Hfuel)
    as (ended' & s0' & s1' & E' & Hended' & _ & Hs0' & Hs1').
  exists ended, (Z.of_nat (size s0)), (Z.of_nat (size s1)).
  split; [exact E|]. unfold check_endgame, swap_positions. simpl.
  rewrite E'.
  rewrite (partition_unique _ _ _ _ _ Hs0' Hs1).
  rewrite (partition_unique _ _ _ _ _ Hs1' Hs0).
  assert (ended' = ended) as ->; [|done].
  assert (connected (board_size w) (chess_board w) (p1_pos w) (p0_pos w) ↔
          connected (board_size w) (chess_board w) (p0_pos w) (p1_pos w))
    as Hsym by (unfold connected; split; intros H; by symmetry).
  destruct ended, ended'; try done.
  - destruct Hended as [Hended _]. destruct Hended' as [_ Hended'].
    rewrite Hsym in Hended'. by rewrite Hended' by auto.
  - destruct Hended as [_ Hended]. destruct Hended' as [Hended' _].
    rewrite Hsym in Hended'. symmetry. apply Hended. auto.
Qed.

Lemma check_endgame_swap_witness :
  ∃ (ended : bool) (score_a score_b : Z),
    check_endgame 100 example_start = Ok (ended, score_a, score_b) ∧
    check_endgame 100 (swap_positions example_start)
      = Ok (ended, score_b, score_a).
Proof.
  apply (check_endgame_swap 100 example_start).
  - reflexivity.
  - split; simpl; lia.
  - split; simpl; lia.
  - vm_compute. reflexivity.
Defined.

(** X17: each score [check_endgame] returns is at least 1, the player's
    own cell, and at most N², the whole board. *)
Theorem check_endgame_score_bounds (fuel : nat) (w : World) :
  wf_boardb (board_size w) (chess_board w) = true →
  in_bounds (board_size w) (p0_pos w) →
  in_bounds (board_size w) (p1_pos w) →
  2 * board_size w * board_size w < Z.of_nat fuel →
  ∃ (ended : bool) (score_a score_b : Z),
    check_endgame fuel w = Ok (ended, score_a, score_b) ∧
    1 ≤ score_a ≤ board_size w * board_size w ∧
    1 ≤ score_b ≤ board_size w * board_size w.
Proof.
  intros Hwfb H0 H1 Hfuel. apply wf_boardb_spec in Hwfb as Hwf.
  pose proof Hwf as (_ & Hpos & _).
  destruct (check_endgame_on_spec fuel _ _ _ _ Hwf H0 H1 Hfuel)
    as (ended & s0 & s1 & E & _ & _ & Hs0 & Hs1).
  exists ended, (Z.of_nat (size s0)), (Z.of_nat (size s1)).
  split; [exact E|].
  set (n := board_size w) in *. set (b := chess_board w) in *.
  set (all := list_to_set (cells n) : gset pos).
  assert (Z.of_nat (size all) = n * n) as Hall.
  { unfold all. rewrite size_list_to_set by apply NoDup_cells.
    apply length_cells. lia. }
  assert (∀ p s, in_bounds n p → is_partition_of n b p s →
            1 ≤ Z.of_nat (size s) ≤ n * n) as Hbound.
  { intros p s Hp Hs.
    assert (p ∈ s) as Hin by (apply Hs; split; [done | reflexivity]).
    assert (s ⊆ all) as Hsub.
    { intros x Hx. apply elem_of_list_to_set, elem_of_cells.
      by apply Hs in Hx as [? _]. }
    pose proof (subseteq_size _ _ Hsub).
    assert (size s ≠ 0%nat).
    { intros Hz. apply size_empty_inv in Hz.
      apply leibniz_equiv in Hz. rewrite Hz in Hin.
      by apply not_elem_of_empty in Hin. }
    lia. }
  split; eauto.
Qed.

Lemma check_endgame_score_bounds_witness :
  ∃ (ended : bool) (score_a score_b : Z),
    check_endgame 100 example_finished = Ok (ended, score_a, score_b) ∧
    1 ≤ score_a ≤ 4 * 4 ∧ 1 ≤ score_b ≤ 4 * 4.
Proof.
  apply (check_endgame_score_bounds 100 example_finished).
  - reflexivity.
  - split; simpl; lia.
  - split; simpl; lia.
  - vm_compute. reflexivity.
Defined.

(** X18: a player position off the board is not a key of the dictionary
    [father]: on a well-formed board [check_endgame] then raises
    [KeyError], after its loops over the cells have run. *)
Theorem check_endgame_off_board (fuel : nat) (w : World) :
  wf_boardb (board_size w) (chess_board w) = true →
  2 * board_size w * board_size w < Z.of_nat fuel →
  in_boundsb (board_size w) (p0_pos w)
    && in_boundsb (board_size w) (p1_pos w) = false →
  check_endgame fuel w = Raise KeyError.
Proof.
  intros Hwfb Hfuel Hoff. apply wf_boardb_spec in Hwfb as Hwf.
  pose proof Hwf as (Hn & Hpos & _).
  set (n := board_size w) in *. set (b := chess_board w) in *.
  assert (length (join_order n) < fuel)%nat as Hfuel'.
  { pose proof (length_join_order n ltac:(lia)). lia. }
  assert (∀ f a, (∀ x, is_Some (f !! x) → in_bounds n x) →
            in_boundsb n a = false → find fuel a f = (Raise KeyError, f))
    as Hmiss.
  { intros f a Hdom Ha. destruct fuel as [|fuel0]; [lia|].
    rewrite find_unfold. destruct (f !! a) as [q|] eqn:Eq; [|done].
    assert (in_bounds n a) as Hin by (apply Hdom; eauto).
    apply in_boundsb_spec in Hin. congruence. }
  unfold check_endgame, check_endgame_on, check_endgame_st. st_unfold.
  fold n b.
  destruct (init_father_spec n) as (f0 & -> & Hf0 & Hf0').
  destruct (join_all_spec fuel n b f0 Hwf Hfuel' (uf_inv_initial n f0 Hf0 Hf0'))
    as (f1 & -> & Hinv1).
  destruct (compress_all_spec fuel n _ _ f1 Hfuel' Hinv1)
    as (f2 & -> & Hinv2 & _).
  pose proof Hinv2 as (H1 & Hdom2 & _).
  destruct (in_boundsb n (p0_pos w)) eqn:E0.
  - simpl in Hoff. apply in_boundsb_spec in E0.
    destruct (H1 _ E0) as (k0 & r0 & R0 & Hk0 & _).
    destruct (find_spec f2 k0 _ r0 fuel R0 ltac:(lia))
      as (f3 & -> & _ & _ & Hdom3).
    rewrite (Hmiss f3 _); [done | | done].
    intros x Hx. apply Hdom2. by apply Hdom3.
  - by rewrite (Hmiss f2 _ Hdom2 E0).
Qed.

Lemma check_endgame_off_board_witness :
  check_endgame 100 (example_world 4 (empty_board 4) (0, 0) (4, 0) 0)
    = Raise KeyError.
Proof.
  apply (check_endgame_off_board 100
           (example_world 4 (empty_board 4) (0, 0) (4, 0) 0)).
  - reflexivity.
  - vm_compute. reflexivity.
  - reflexivity.
Defined.

(** ** The constructor's board is point-symmetric *)

Lemma set_borders_symmetric (n : Z) (b : ndarray) :
  exec set_borders (zeros n) = Ok b → point_symmetric n b.
Proof.
  unfold exec, set_borders, arr_set_row, arr_set_col. st_unfold. simpl.
  destruct (Z_lt_le_dec 0 n) as [Hpos | Hneg].
  - repeat (first [ rewrite (norm_index_in n 0) by lia
                  | rewrite (norm_index_neg n (-1)) by lia ]; simpl).
    intros [= <-]. intros r c d Hr Hc Hd. cbn [arr_bits].
    assert (d = 0 ∨ d = 1 ∨ d = 2 ∨ d = 3) as Hcases by lia.
    destruct Hcases as [-> | [-> | [-> | ->]]]; simpl;
      eqb_cases; simpl; try lia; auto.
  - assert (norm_index n 0 = Raise IndexError) as ->; [|discriminate].
    unfold norm_index.
    destruct (0 <? n) eqn:E1; [lia|]. simpl.
    destruct (- n <=? 0); reflexivity.
Qed.

(** A wall and its point mirror, placed one after the other, keep the
    board point-symmetric. *)
Lemma set_barrier_pair_symmetric (n : Z) (b b1 b2 : ndarray) (r c dir : Z) :
  arr_n b = n → point_symmetric n b →
  in_bounds n (r, c) → 0 ≤ dir ≤ 3 → in_bounds n (neighbor (r, c) dir) →
  set_barrier_arr r c dir b = (Ok tt, b1) →
  set_barrier_arr (n - 1 - r) (n - 1 - c) (opposite dir) b1 = (Ok tt, b2) →
  point_symmetric n b2.
Proof.
  intros Hn Hsym Hrc Hd Hnb E1 E2.
  destruct (anti_neighbor_in_bounds n r c dir Hd Hrc Hnb) as [Ha Hanb].
  pose proof (opposite_range dir) as Hod.
  pose proof Hrc as [Hr Hc]. pose proof Ha as [Har Hac].
  simpl in Hr, Hc, Har, Hac.
  rewrite set_barrier_arr_in in E1 by (rewrite ?Hn; auto).
  injection E1 as <-.
  rewrite set_barrier_arr_in in E2 by (cbn [arr_n]; rewrite ?Hn; auto).
  injection E2 as <-. cbn [arr_bits arr_n].
  intros r' c' d' Hr' Hc' Hd'. cbn [arr_bits].
  unfold neighbor, pos_add, in_bounds in *.
  assert (dir = 0 ∨ dir = 1 ∨ dir = 2 ∨ dir = 3) as Hcases by lia.
  assert (d' = 0 ∨ d' = 1 ∨ d' = 2 ∨ d' = 3) as Hcases' by lia.
  unfold bits_set.
  destruct Hcases as [-> | [-> | [-> | ->]]];
    destruct Hcases' as [-> | [-> | [-> | ->]]]; simpl in *;
    rewrite ?andb_false_r, ?andb_true_r; simpl.
  all: eqb_cases; simpl; try lia; try reflexivity.
  all: try (apply (Hsym r' c' 0); lia).
  all: try (apply (Hsym r' c' 1); lia).
  all: try (apply (Hsym r' c' 2); lia).
  all: try (apply (Hsym r' c' 3); lia).
Qed.

Lemma place_barriers_symmetric (fuel k : nat) (n : Z) :
  ∀ (b : ndarray) (g : Rng) (b' : ndarray) (g' : Rng),
  wf_board n b → point_symmetric n b →
  place_barriers fuel k n b g = (Ok b', g') → point_symmetric n b'.
Proof.
  induction k as [|k IH]; intros b g b' g' Hwf Hsym.
  - by intros [= <- <-].
  - cbn [place_barriers]. st_unfold.
    destruct (draw_free_slot fuel n b g) as [[[[r c] dir]|] g1] eqn:E;
      [|discriminate].
    pose proof Hwf as (Hn & _).
    apply draw_free_slot_spec in E as (Hrc & Hd & Hopen); [|done].
    destruct (open_edge_inside n b (r, c) dir Hwf Hrc Hd Hopen) as [Hnb _].
    rewrite opposites_in by done.
    destruct (set_barrier_arr_wf n b r c dir Hwf Hrc Hd Hnb) as (b1 & E1 & Hwf1).
    unfold exec at 1. rewrite E1.
    destruct (anti_neighbor_in_bounds n r c dir Hd Hrc Hnb) as [Ha Hanb].
    destruct (set_barrier_arr_wf n b1 (n - 1 - r) (n - 1 - c) (opposite dir)
                Hwf1 Ha (opposite_range dir) Hanb) as (b2 & E2 & Hwf2).
    unfold exec. rewrite E2. apply IH; [done|].
    exact (set_barrier_pair_symmetric n b b1 b2 r c dir Hn Hsym Hrc Hd Hnb
             E1 E2).
Qed.

(** X19: the board the constructor builds looks the same after a half
    turn about its centre: the wall bit of a cell in direction [d] equals
    the wall bit of the mirrored cell in the opposite direction, so that
    with the mirrored start positions neither player is favoured. *)
Theorem World_init_board_symmetric registry min_size max_size player_1
    player_2 size want_autoplay fuel g w :
  (World_init registry min_size max_size player_1 player_2 size want_autoplay
     fuel g).1 = Ok w →
  point_symmetric (board_size w) (chess_board w).
Proof.
  intros H. apply pair_of_fst in H. unfold World_init in H. st_unfold.
  destruct (registry player_1) as [a0|]; [|discriminate].
  destruct (registry player_2) as [a1|]; [|discriminate].
  destruct (want_autoplay && _); [discriminate|].
  destruct (match size with Some n => _ | None => _ end) as [[n|] g1];
    [|discriminate].
  destruct (exec set_borders (zeros n)) as [board0|] eqn:E0; [|discriminate].
  pose proof (set_borders_wf _ _ E0) as Hwf0.
  apply set_borders_symmetric in E0.
  destruct (place_barriers _ _ _ _ _) as [[board|] g2] eqn:E1; [|discriminate].
  apply place_barriers_symmetric in E1; [|done|done].
  destruct (draw_start fuel fuel n board g2) as [[[[a b] e]|] g3];
    [|discriminate].
  destruct e; [discriminate|]. by injection H as <-.
Qed.

Lemma World_init_board_symmetric_witness :
  ∃ w, (World_init example_registry 6 12 "a" "b" (Some 4) false 100
          example_rng).1 = Ok w ∧
       point_symmetric (board_size w) (chess_board w).
Proof.
  eexists. split; [vm_compute; reflexivity|].
  eapply (World_init_board_symmetric example_registry 6 12 "a" "b" (Some 4)
            false 100 example_rng).
  vm_compute. reflexivity.
Defined.

(** ** Degenerate board sizes *)

(** X20: with [board_size] 1 the constructor never returns a world: the
    only cell is its own point mirror, the two start positions coincide at
    every roll, and the loop that rolls them again has no exit. *)
Theorem World_init_size_one_never_returns registry min_size max_size player_1
    player_2 want_autoplay fuel g :
  ∃ e, (World_init registry min_size max_size player_1 player_2 (Some 1)
          want_autoplay fuel g).1 = Raise e.
Proof.
  destruct (World_init _ _ _ _ _ _ _ _ _) as [[w|e] g'] eqn:H; [|by exists e].
  exfalso. unfold World_init in H. st_unfold.
  destruct (registry player_1) as [a0|]; [|discriminate].
  destruct (registry player_2) as [a1|]; [|discriminate].
  destruct (want_autoplay && _); [discriminate|].
  destruct (exec set_borders (zeros 1)) as [board0|]; [|discriminate].
  destruct (place_barriers _ _ _ _ _) as [[board|] g2]; [|discriminate].
  destruct (draw_start fuel fuel 1 board g2) as [[[[a b] e]|] g3] eqn:E;
    [|discriminate].
  pose proof (draw_start_in_bounds _ _ _ _ _ _ _ _ _ E) as [[Ha1 Ha2] _].
  apply draw_start_spec in E as (Hb & Hne & _).
  apply Hne. rewrite Hb. destruct a as [r c]. simpl in *. f_equal; lia.
Qed.

(** X21: with [board_size] 0 and registered agents the constructor raises
    [IndexError] at the first border assignment, row 0 of an array without
    rows, before it draws anything from the random source. *)
Theorem World_init_size_zero_raises registry min_size max_size player_1
    player_2 fuel g a0 a1 :
  registry player_1 = Some a0 →
  registry player_2 = Some a1 →
  World_init registry min_size max_size player_1 player_2 (Some 0) false
    fuel g = (Raise IndexError, g).
Proof. intros H0 H1. unfold World_init. rewrite H0, H1. reflexivity. Qed.

Lemma World_init_size_zero_raises_witness :
  World_init example_registry 6 12 "a" "b" (Some 0) false 100 example_rng
    = (Raise IndexError, example_rng).
Proof.
  apply (World_init_size_zero_raises example_registry 6 12 "a" "b" 100
           example_rng example_agent example_agent); reflexivity.
Defined.

(** ** Path compression *)

(** X22: called on a cell whose chain of fathers ends at the root [r]
    after [k] links, with fuel for the recursion, [find] returns [r], leaves
    the cell pointing directly at [r], keeps the keys of the dictionary, and
    changes no cell's root: every cell still reaches the root it had, by a
    chain that is not longer. *)
Theorem find_compresses_path (father : gmap pos pos) (k : nat) (x r : pos)
    (fuel : nat) :
  root_at father k x r → (k < fuel)%nat →
  ∃ father',
    find fuel x father = (Ok r, father') ∧
    father' !! x = Some r ∧
    (∀ y, is_Some (father' !! y) ↔ is_Some (father !! y)) ∧
    (∀ y ky ry, root_at father ky y ry →
       ∃ ky', (ky' ≤ ky)%nat ∧ root_at father' ky' y ry).
Proof.
  intros Hroot Hfuel.
  destruct (find_spec father k x r fuel Hroot Hfuel)
    as (f' & E & Hc & Hx & Hdom).
  exists f'. split; [exact E|]. split; [exact Hx|]. split; [exact Hdom|].
  intros y ky ry Hy. by eapply compressed_root_at.
Qed.

Lemma find_compresses_path_witness :
  ∃ father',
    find 5 (0, 0) example_father = (Ok (0, 2), father') ∧
    father' !! (0, 0) = Some (0, 2) ∧
    ∃ k', (k' ≤ 1)%nat ∧ root_at father' k' (0, 1) (0, 2).
Proof.
  assert (root_at example_father 1 (0, 1) (0, 2)) as H1.
  { eapply root_at_S; [reflexivity | discriminate |].
    apply root_at_O. reflexivity. }
  destruct (find_compresses_path example_father 2 (0, 0) (0, 2) 5)
    as (f' & E & Hx & _ & Hkeep).
  - eapply root_at_S; [reflexivity | discriminate | exact H1].
  - lia.
  - exists f'. split; [exact E|]. split; [exact Hx|]. by apply Hkeep.
Defined.

(** ** The walls only grow *)

Lemma elem_of_slots (n : Z) (t : Z * Z * Z) :
  t ∈ slots n ↔ in_bounds n (t.1.1, t.1.2) ∧ 0 ≤ t.2 ≤ 3.
Proof.
  unfold slots. rewrite list_elem_of_bind. split.
  - intros (p & Ht & Hp). apply list_elem_of_bind in Ht as (d & Ht & Hd).
    apply list_elem_of_singleton in Ht as ->. simpl.
    apply elem_of_cells in Hp. apply elem_of_seqZ in Hd.
    destruct p. split; [done | lia].
  - intros [Hp Hd]. exists (t.1.1, t.1.2).
    split; [|by apply elem_of_cells].
    apply list_elem_of_bind. exists t.2.
    split; [|apply elem_of_seqZ; lia].
    destruct t as [[r c] d]. by apply list_elem_of_singleton.
Qed.

Lemma elem_of_wall_set (n : Z) (b : ndarray) (t : Z * Z * Z) :
  t ∈ wall_set n b ↔ t ∈ slots n ∧ arr_bits b t.1.1 t.1.2 t.2 = true.
Proof.
  unfold wall_set. rewrite elem_of_list_to_set, list_elem_of_filter. tauto.
Qed.

Lemma step_ok_walls fuel call w x w' :
  wf_world w → step fuel call w = (Ok x, w') →
  wall_set (board_size w) (chess_board w)
    ⊆ wall_set (board_size w) (chess_board w') ∧
  wall_count (board_size w) (chess_board w')
    = wall_count (board_size w) (chess_board w) + 2.
Proof.
  intros Hw H.
  destruct (step_ok_inv fuel call w x _ Hw H)
    as (v & elapsed & next_pos & dir & b' & _ & Hnext & Hd & Hopen & _ & Eset &
        _ & Eb & _).
  rewrite Eb. pose proof Hw as (Hwf & _). pose proof Hwf as (Hn & _).
  destruct (open_edge_inside _ _ next_pos dir Hwf Hnext Hd Hopen)
    as [Hnb Hback].
  destruct next_pos as [r c].
  destruct (set_barrier_arr_bits _ _ _ r c dir Hn Hnext Hd Hnb Eset)
    as (B1 & B2 & B3).
  set (n := board_size w) in *. set (b := chess_board w) in *.
  set (t1 := (r, c, dir)).
  set (t2 := ((neighbor (r, c) dir).1, (neighbor (r, c) dir).2, opposite dir)).
  fold t1 t2 in B3.
  assert (t1 ≠ t2) as Hne.
  { unfold t1, t2. intros [= _ _ Heq].
    destruct (move_of_cases dir Hd) as [(? & _ & ?) | [(? & _ & ?) |
      [(? & _ & ?) | (? & _ & ?)]]]; lia. }
  assert (t1 ∈ slots n ∧ t2 ∈ slots n) as [Hs1 Hs2].
  { split; apply elem_of_slots; cbn [fst snd].
    - done.
    - split; [by destruct (neighbor (r, c) dir) | apply opposite_range]. }
  assert (wall_set n b' = wall_set n b ∪ {[t1; t2]}) as Hset.
  { apply set_eq. intros t.
    rewrite elem_of_union, !elem_of_wall_set, elem_of_union,
      !elem_of_singleton.
    destruct (decide (t = t1)) as [-> | N1]; [tauto|].
    destruct (decide (t = t2)) as [-> | N2]; [tauto|].
    destruct t as [[tr tc] td]. cbn [fst snd].
    rewrite (B3 tr tc td N1 N2). tauto. }
  assert (wall_set n b ## {[t1; t2]}) as Hdisj.
  { apply elem_of_disjoint. intros t Ht Ht'.
    apply elem_of_wall_set in Ht as [_ Ht].
    apply elem_of_union in Ht' as [Ht' | Ht'];
      apply elem_of_singleton in Ht' as ->; unfold t1, t2 in Ht;
      cbn [fst snd] in Ht, Hopen, Hback; congruence. }
  split.
  - rewrite Hset. apply union_subseteq_l.
  - unfold wall_count. rewrite Hset, size_union by done.
    rewrite size_union by (by apply disjoint_singleton_l, not_elem_of_singleton).
    rewrite !size_singleton. lia.
Qed.

(** X23: every turn that returns adds exactly two wall bits to the
    board, the two sides of one edge, and removes none: the number of wall
    bits grows by 2 at each turn. *)
Theorem step_adds_two_wall_bits (fuel : nat) (call : outcome) (w : World)
    (x : bool * Z * Z) :
  wf_worldb w = true →
  (step fuel call w).1 = Ok x →
  wall_set (board_size w) (chess_board w)
    ⊆ wall_set (board_size w) (chess_board (step fuel call w).2) ∧
  wall_count (board_size w) (chess_board (step fuel call w).2)
    = wall_count (board_size w) (chess_board w) + 2.
Proof.
  intros Hw H. apply wf_worldb_spec in Hw. apply pair_of_fst in H.
  by eapply step_ok_walls.
Qed.

Lemma step_adds_two_wall_bits_witness :
  wall_set 4 (chess_board example_start)
    ⊆ wall_set 4 (chess_board (step 100 example_move example_start).2) ∧
  wall_count 4 (chess_board (step 100 example_move example_start).2)
    = wall_count 4 (chess_board example_start) + 2.
Proof.
  apply (step_adds_two_wall_bits 100 example_move example_start
           (false, 16, 16)).
  - reflexivity.
  - vm_compute. reflexivity.
Defined.

(** ** The loop of the main block *)













Lemma main_loop_returns fuel calls :
  ∀ w a b w', wf_world w →
    main_loop fuel calls w = (Ok (a, b), w') →
    wf_world w' ∧ check_endgame fuel w' = Ok (true, a, b) ∧
    results_cache w' = Some (true, a, b).
Proof.
  induction calls as [|call calls IH]; intros w a b w' Hw; [discriminate|].
  cbn [main_loop]. st_unfold.
  destruct (step fuel call w) as [[[[is_end a1] b1]|e] w1] eqn:E;
    [|discriminate].
  pose proof (step_wf _ _ _ _ _ Hw E) as Hw1.
  destruct is_end; [|by apply IH].
  intros [= <- <- <-].
  destruct (step_ok_inv _ _ _ _ _ Hw E)
    as (_ & _ & _ & _ & _ & _ & _ & _ & _ & _ & _ & _ & _ & _ & _ & _ & _ &
        _ & _ & Hcache & Hend).
  done.
Qed.

(** X25: when the loop of the main block returns, the scores it
    prints are the scores of a finished game: on the world it leaves,
    [check_endgame] reports the end with these two scores, which are also
    the cached result. *)
Theorem main_loop_prints_final_scores (fuel : nat) (calls : list outcome)
    (w : World) (score_a score_b : Z) :
  wf_worldb w = true →
  (main_loop fuel calls w).1 = Ok (score_a, score_b) →
  check_endgame fuel (main_loop fuel calls w).2
    = Ok (true, score_a, score_b) ∧
  results_cache (main_loop fuel calls w).2 = Some (true, score_a, score_b) ∧
  wf_worldb (main_loop fuel calls w).2 = true.
Proof.
  intros Hw H. apply wf_worldb_spec in Hw. apply pair_of_fst in H.
  destruct (main_loop_returns _ _ _ _ _ _ Hw H) as (Hw' & Hend & Hcache).
  split; [done|]. split; [done|]. by apply wf_worldb_spec.
Qed.

Lemma main_loop_prints_final_scores_witness :
  check_endgame 100 (main_loop 100 example_game example_small).2
    = Ok (true, 7, 1) ∧
  results_cache (main_loop 100 example_game example_small).2
    = Some (true, 7, 1) ∧
  wf_worldb (main_loop 100 example_game example_small).2 = true.
Proof.
  apply (main_loop_prints_final_scores 100 example_game example_small 7 1).
  - reflexivity.
  - vm_compute. reflexivity.
Defined.

(** ** An accepted move is played as returned *)

Lemma step_accepts fuel w next_pos dir elapsed :
  wf_world w →
  2 * board_size w * board_size w < Z.of_nat fuel →
  check_boundary w next_pos = true →
  0 ≤ dir ≤ 3 →
  check_valid_step fuel w (mover_pos w) next_pos dir = Ok true →
  ∃ x w',
    step fuel (AgentReturns (RetMove next_pos dir) elapsed) w = (Ok x, w') ∧
    step_try fuel (AgentReturns (RetMove next_pos dir) elapsed) (mover_pos w) w
      = (Ok (next_pos, dir), Some elapsed, update_player_time elapsed w) ∧
    waiting_pos w' = next_pos ∧
    mover_pos w' = waiting_pos w ∧
    arr_bits (chess_board w') next_pos.1 next_pos.2 dir = true ∧
    rng w' = rng w.
Proof.
  intros Hw Hfuel Hbound Hd Hvalid.
  set (call := AgentReturns (RetMove next_pos dir) elapsed).
  set (w1 := update_player_time elapsed w).
  destruct (update_player_time_params elapsed w)
    as (Ems & Esz & Eb & Ep0 & Ep1 & Et). fold w1 in Ems, Esz, Eb, Ep0, Ep1, Et.
  pose proof (wf_world_update_player_time elapsed w Hw) as Hw1. fold w1 in Hw1.
  assert (rng w1 = rng w) as Erng.
  { unfold w1, update_player_time. by destruct (turn w =? 0). }
  assert (check_valid_step fuel w1 (mover_pos w) next_pos dir = Ok true)
    as Hvalid1.
  { rewrite <- Hvalid. unfold check_valid_step.
    by rewrite Ems, Eb, Ep0, Ep1, Et. }
  assert (check_boundary w1 next_pos = true) as Hbound1.
  { rewrite <- Hbound. unfold check_boundary. by rewrite Esz. }
  assert (step_try fuel call (mover_pos w) w
          = (Ok (next_pos, dir), Some elapsed, w1)) as Etry.
  { unfold call. cbn [step_try]. fold w1. rewrite Hbound1, Hvalid1. simpl.
    destruct ((0 <=? dir) && (dir <=? 3)) eqn:E; [done | lia]. }
  pose proof Hw1 as (Hwf1 & H0 & H1 & Hms & Hturn).
  pose proof Hwf1 as (Hn & Hpos & _).
  assert (in_bounds (board_size w1) next_pos) as Hnext.
  { unfold check_boundary in Hbound1. destruct next_pos as [r c].
    split; simpl; lia. }
  assert (arr_bits (chess_board w1) next_pos.1 next_pos.2 dir = false)
    as Hopen.
  { apply check_valid_step_on_true in Hvalid1.
    rewrite arr_get_in in Hvalid1 by (destruct Hnext; rewrite ?Hn; lia).
    by injection Hvalid1. }
  destruct (open_edge_inside _ _ next_pos dir Hwf1 Hnext Hd Hopen) as [Hnb _].
  destruct next_pos as [r c].
  destruct (set_barrier_arr_wf _ _ r c dir Hwf1 Hnext Hd Hnb)
    as (b' & Eset & Hwf').
  destruct (set_barrier_arr_bits _ _ _ r c dir Hn Hnext Hd Hnb Eset)
    as (Hbit & _).
  assert (is_ok (log_move w1 dir (Some elapsed)) = true) as Hlog.
  { unfold log_move.
    destruct Hturn as [-> | ->]; simpl;
      (destruct ((0 <=? dir) && (dir <=? 3)) eqn:E; [done | lia]). }
  pose proof (step_apply_explicit fuel (r, c) dir (Some elapsed) w1 b'
                Hlog Eset) as Eapply.
  cbv zeta in Eapply.
  set (w3 := set_turn _ _) in Eapply.
  assert (wf_board (board_size w3) (chess_board w3) ∧
          in_bounds (board_size w3) (p0_pos w3) ∧
          in_bounds (board_size w3) (p1_pos w3) ∧
          board_size w3 = board_size w) as (Hwf3 & H03 & H13 & Esz3).
  { unfold w3. destruct (turn w1 =? 0); simpl; auto. }
  destruct (check_endgame_on_spec fuel (board_size w3) (chess_board w3)
              (p0_pos w3) (p1_pos w3) Hwf3 H03 H13)
    as (ended & s0 & s1 & Eend & _); [by rewrite Esz3|].
  unfold check_endgame in Eapply. rewrite Eend in Eapply.
  assert (step fuel call w
          = (Ok (ended, Z.of_nat (size s0), Z.of_nat (size s1)),
             set_results_cache
               (Some (ended, Z.of_nat (size s0), Z.of_nat (size s1))) w3))
    as Estep.
  { unfold step. rewrite get_current_player_eq, Etry. exact Eapply. }
  eexists _, _. split; [exact Estep|]. split; [exact Etry|].
  unfold waiting_pos, mover_pos, w3. simpl. rewrite <- Et.
  destruct Hturn as [Ht | Ht]; rewrite Ht; simpl; rewrite ?Ep0, ?Ep1; auto.
Qed.

(** X26: a returned move that passes the three checks of the engine
    (destination on the board, direction in 0..3, [check_valid_step]) is
    played as it was returned: the turn returns, the mover stands on the
    destination, the wall is set there in the direction asked for, and the
    random source has not been used. *)
Theorem step_plays_accepted_move (fuel : nat) (w : World) (next_pos : pos)
    (dir elapsed : Z) :
  wf_worldb w = true →
  2 * board_size w * board_size w < Z.of_nat fuel →
  check_boundary w next_pos = true →
  0 ≤ dir ≤ 3 →
  check_valid_step fuel w (mover_pos w) next_pos dir = Ok true →
  let call := AgentReturns (RetMove next_pos dir) elapsed in
  ∃ x, (step fuel call w).1 = Ok x ∧
       waiting_pos (step fuel call w).2 = next_pos ∧
       arr_bits (chess_board (step fuel call w).2) next_pos.1 next_pos.2 dir
         = true ∧
       rng (step fuel call w).2 = rng w.
Proof.
  intros Hw Hfuel Hbound Hd Hvalid call. apply wf_worldb_spec in Hw.
  destruct (step_accepts fuel w next_pos dir elapsed Hw Hfuel Hbound Hd Hvalid)
    as (x & w' & Estep & _ & Hpos & _ & Hbit & Hrng).
  fold call in Estep. rewrite Estep. simpl. eauto.
Qed.

Lemma step_plays_accepted_move_witness :
  ∃ x, (step 100 example_move example_start).1 = Ok x ∧
       waiting_pos (step 100 example_move example_start).2 = (0, 1) ∧
       arr_bits (chess_board (step 100 example_move example_start).2) 0 1 1
         = true ∧
       rng (step 100 example_move example_start).2 = rng example_start.
Proof.
  apply (step_plays_accepted_move 100 example_start (0, 1) 1 5).
  - reflexivity.
  - vm_compute. reflexivity.
  - reflexivity.
  - lia.
  - vm_compute. reflexivity.
Defined.

(** ** Position arrays that an agent holds, and what a turn guarantees *)

Lemma write_positions_not_held (c : agent_call) (s : Shared) :
  held0 s = false → held1 s = false → write_positions c s = world s.
Proof.
  intros H0 H1. unfold write_positions. rewrite H0, H1.
  by destruct (write0 c), (write1 c).
Qed.

Lemma step_shared_ok fuel c s x s' :
  step_shared fuel c s = Ok (x, s') →
  step fuel (call_outcome c) (write_positions c s) = (Ok x, world s').
Proof.
  unfold step_shared.
  destruct (step fuel (call_outcome c) (write_positions c s)) as [[r|e] w2];
    [|discriminate].
  destruct (turn _ =? 0); by intros [= <- <-].
Qed.

(** X11: two players that stand on different cells still do after a
    turn that returns, provided the call of the agent has written nothing
    to the position arrays, as is the case when no agent holds one: neither
    an accepted move nor a fallback move ends on the opponent's cell.  The
    proviso cannot be dropped: an agent that holds the array of its player
    can move it onto the opponent's cell. *)
Theorem step_keeps_players_apart (fuel : nat) (c : agent_call) (s : Shared)
    (xs : bool * Z * Z * Shared) :
  wf_worldb (world s) = true →
  p0_pos (world s) ≠ p1_pos (world s) →
  write_positions c s = world s →
  step_shared fuel c s = Ok xs →
  p0_pos (world xs.2) ≠ p1_pos (world xs.2).
Proof.
  intros Hw Hne Hsame H. apply wf_worldb_spec in Hw.
  destruct xs as [x s']. apply step_shared_ok in H. rewrite Hsame in H.
  by eapply step_ok_apart.
Qed.

Lemma step_keeps_players_apart_witness :
  ∃ xs, step_shared 100 example_array_move example_shared = Ok xs ∧
        p0_pos (world xs.2) ≠ p1_pos (world xs.2).
Proof.
  destruct (step_shared 100 example_array_move example_shared)
    as [xs|e] eqn:E.
  - exists xs. split; [reflexivity|].
    apply (step_keeps_players_apart 100 example_array_move example_shared xs).
    + reflexivity.
    + discriminate.
    + reflexivity.
    + exact E.
  - vm_compute in E. discriminate E.
Defined.

(** X14: every turn that returns is a legal move from the cell that the
    array behind the mover's position holds when the call of the agent has
    returned: the cell the mover ends on is reached from it by at most
    [max_step] steps across open edges that never enter the opponent's
    cell, so it lies within Manhattan distance [max_step], for a move the
    agent returned and for a move drawn by the fallback alike.  When the
    call has written nothing to the arrays, that cell is the one the mover
    stood on before the call. *)
Theorem step_move_is_legal (fuel : nat) (c : agent_call) (s : Shared)
    (xs : bool * Z * Z * Shared) :
  let w1 := write_positions c s in
  wf_worldb w1 = true →
  board_size w1 * board_size w1 < Z.of_nat fuel →
  step_shared fuel c s = Ok xs →
  reachable_within (board_size w1) (chess_board w1) (waiting_pos w1)
    (Z.to_nat (max_step w1)) (mover_pos w1) (waiting_pos (world xs.2)) ∧
  manhattan (mover_pos w1) (waiting_pos (world xs.2)) ≤ max_step w1 ∧
  (w1 = world s →
   reachable_within (board_size (world s)) (chess_board (world s))
     (waiting_pos (world s)) (Z.to_nat (max_step (world s)))
     (mover_pos (world s)) (waiting_pos (world xs.2))).
Proof.
  intros w1 Hw Hfuel H. apply wf_worldb_spec in Hw.
  destruct xs as [x s']. apply step_shared_ok in H. fold w1 in H.
  pose proof (step_ok_reach fuel _ w1 x _ Hw Hfuel H) as Hreach.
  split; [exact Hreach|]. split.
  - apply reach_manhattan in Hreach.
    destruct Hw as ((_ & Hpos & _) & _ & _ & Hms & _).
    assert (0 ≤ max_step w1) by (rewrite Hms; apply Z.div_pos; lia).
    simpl. lia.
  - intros <-. exact Hreach.
Qed.

Lemma step_move_is_legal_witness :
  ∃ xs, step_shared 100 example_array_move example_shared = Ok xs ∧
        reachable_within 4 (chess_board example_start) (3, 3) 2 (0, 0)
          (waiting_pos (world xs.2)) ∧
        manhattan (0, 0) (waiting_pos (world xs.2)) ≤ 2.
Proof.
  destruct (step_shared 100 example_array_move example_shared)
    as [xs|e] eqn:E.
  - exists xs. split; [reflexivity|].
    destruct (step_move_is_legal 100 example_array_move example_shared xs)
      as (Hreach & Hdist & _).
    + reflexivity.
    + vm_compute. reflexivity.
    + exact E.
    + split; [exact Hreach | exact Hdist].
  - vm_compute in E. discriminate E.
Defined.

(** X15: once the two players are walled apart they stay so, provided
    the calls of the agents write nothing to the position arrays: in a
    well-formed world on which [check_endgame] reports the end, a further
    turn that returns after such a call reports the end again. *)
Theorem step_after_end_stays_ended (fuel : nat) (c : agent_call) (s : Shared)
    (score_a score_b : Z) (xs : bool * Z * Z * Shared) :
  wf_worldb (world s) = true →
  2 * board_size (world s) * board_size (world s) < Z.of_nat fuel →
  check_endgame fuel (world s) = Ok (true, score_a, score_b) →
  write_positions c s = world s →
  step_shared fuel c s = Ok xs →
  xs.1.1.1 = true.
Proof.
  intros Hw Hfuel Hend Hsame H. apply wf_worldb_spec in Hw.
  destruct xs as [x s']. apply step_shared_ok in H. rewrite Hsame in H.
  simpl. by eapply step_ok_stays_ended.
Qed.

Lemma step_after_end_stays_ended_witness :
  ∃ xs,
    step_shared 100
      {| write0 := None; write1 := None; call_outcome := example_late_move;
         returns_array := true |}
      {| world := example_finished; held0 := true; held1 := false |} = Ok xs ∧
    xs.1.1.1 = true.
Proof.
  destruct (step_shared 100 _ _) as [xs|e] eqn:E.
  - exists xs. split; [reflexivity|].
    eapply (step_after_end_stays_ended 100 _ _ 8 8 xs); [| | | |exact E].
    + reflexivity.
    + vm_compute. reflexivity.
    + vm_compute. reflexivity.
    + reflexivity.
  - vm_compute in E. discriminate E.
Defined.

(** X27: an agent that holds the array behind its player's position can
    put the player on any cell of the board that has a side without a wall,
    at any distance, across walls, and on the opponent's cell: it writes
    the cell into the array and returns the cell.  The start that
    [check_valid_step] compares with the destination is the array as
    written, so the two are equal and the move is accepted; the turn
    returns with the mover on that cell. *)
Theorem step_shared_jump (fuel : nat) (c : agent_call) (s : Shared)
    (q : pos) (dir elapsed : Z) :
  wf_worldb (world s) = true →
  2 * board_size (world s) * board_size (world s) < Z.of_nat fuel →
  mover_held s = true →
  mover_write c s = Some q →
  waiting_write c s = None →
  call_outcome c = AgentReturns (RetMove q dir) elapsed →
  in_boundsb (board_size (world s)) q = true →
  (0 <=? dir) && (dir <=? 3) = true →
  arr_bits (chess_board (world s)) q.1 q.2 dir = false →
  ∃ x s',
    step_shared fuel c s = Ok (x, s') ∧
    waiting_pos (world s') = q ∧
    mover_pos (world s') = waiting_pos (world s).
Proof.
  intros Hw Hfuel Hheld Hwrite Hwait Hcall Hq Hd Hopen.
  apply wf_worldb_spec in Hw. apply in_boundsb_spec in Hq.
  pose proof Hw as (Hwf & H0 & H1 & Hms & Hturn).
  pose proof Hwf as (Hn & _).
  set (w1 := write_positions c s).
  assert (w1 = (if turn (world s) =? 0 then set_p0_pos q else set_p1_pos q)
                 (world s)) as Ew1.
  { unfold w1, write_positions. unfold mover_held in Hheld.
    unfold mover_write in Hwrite. unfold waiting_write in Hwait.
    destruct (turn (world s) =? 0); rewrite Hwrite, Hwait, Hheld; [done|].
    by destruct (held0 s). }
  assert (wf_world w1 ∧ mover_pos w1 = q ∧ board_size w1 = board_size (world s)
          ∧ chess_board w1 = chess_board (world s)
          ∧ waiting_pos w1 = waiting_pos (world s)
          ∧ turn w1 = turn (world s))
    as (Hw1 & Emover & Esz & Eb & Ewaiting & Et).
  { rewrite Ew1. unfold wf_world, mover_pos, waiting_pos.
    destruct Hturn as [Ht | Ht]; rewrite Ht; simpl; rewrite ?Ht; simpl;
      auto 10. }
  destruct (step_accepts fuel w1 q dir elapsed)
    as (x & w' & Estep & Etry & Hpos & Hmove & _); try done.
  { by rewrite Esz. }
  { unfold check_boundary. rewrite Esz. destruct q as [r c0].
    destruct Hq as [Hr Hc]. simpl in Hr, Hc.
    apply andb_true_iff. split; apply andb_true_iff; split; lia. }
  { lia. }
  { unfold check_valid_step, check_valid_step_on. rewrite Eb, Emover.
    rewrite arr_get_in by (destruct Hq; rewrite ?Hn; lia).
    rewrite Hopen. simpl. by rewrite bool_decide_eq_true_2. }
  unfold step_shared. fold w1. rewrite Hcall, Estep, Etry, Et.
  cbn [fst is_ok andb].
  eexists _, _. split; [reflexivity|].
  destruct Hturn as [Ht | Ht]; rewrite Ht; simpl; rewrite ?Hpos, ?Hmove;
    auto.
Qed.

Lemma step_shared_jump_witness :
  held0 example_held = true ∧
  p0_pos (world example_held) = (0, 1) ∧
  p1_pos (world example_held) = (3, 2) ∧
  ∃ x s',
    step_shared 100 example_jump example_held = Ok (x, s') ∧
    waiting_pos (world s') = (3, 2) ∧
    mover_pos (world s') = (3, 2).
Proof.
  split; [vm_compute; reflexivity|]. split; [vm_compute; reflexivity|].
  split; [vm_compute; reflexivity|].
  destruct (step_shared_jump 100 example_jump example_held (3, 2) 3 5)
    as (x & s' & E & Hwait & Hmove).
  - vm_compute. reflexivity.
  - vm_compute. reflexivity.
  - vm_compute. reflexivity.
  - vm_compute. reflexivity.
  - vm_compute. reflexivity.
  - reflexivity.
  - vm_compute. reflexivity.
  - reflexivity.
  - vm_compute. reflexivity.
  - exists x, s'. split; [exact E|]. split; [exact Hwait|].
    rewrite Hmove. vm_compute. reflexivity.
Defined.
